(** * OpenEXR reader (OpenEXRInput): channel catalog, mip resolution,
      part state, chunked reads and missing-data fill.

    Shallow embedding of the reader found in
    [src/ffmpeg.imageio/ffmpeg_pipe_output.cpp] (the second document of
    that file, class [OpenEXRInput]).  C++ [int] values are integers of
    [Z]; where the source relies on 32-bit arithmetic the wrap-around is
    written out.  The OpenEXRCore library (exr_* functions) is an external
    collaborator: header queries are read from a record describing the
    file, and the calls of the decode pipeline draw their result codes
    from an arbitrary stream. *)

From Stdlib Require Import ZArith List String Ascii Bool Lia.
From Stdlib Require Import Sorting.Sorted Sorting.Permutation.
From Stdlib Require Import Floats.SpecFloat.
From stdpp Require Import base option list gmap strings.

Local Open Scope Z_scope.

(** ** Strings: [string_view] comparison and [Strutil::iequals] *)

Module Str.

(** [string_view::operator<]: lexicographic on the character codes, a
    proper prefix being smaller. *)
Definition lt (a b : string) : bool := String.ltb a b.

Definition eq (a b : string) : bool := String.eqb a b.

(** [fullname.find_last_of('.')]: index of the last occurrence, [None]
    standing for [npos]. *)
Fixpoint find_last_of (c : ascii) (s : string) : option nat :=
  match s with
  | EmptyString => None
  | String a s' =>
      match find_last_of c s' with
      | Some i => Some (S i)
      | None => if Ascii.eqb a c then Some 0%nat else None
      end
  end.

Definition is_upper (a : ascii) : bool :=
  let n := N_of_ascii a in ((65 <=? n) && (n <=? 90))%N.

Definition tolower (a : ascii) : ascii :=
  if is_upper a then ascii_of_N (N_of_ascii a + 32) else a.

(** Modelled from the spec: [Strutil::iequals] is declared in
    OpenImageIO/strutil.h, which is not part of the sources at hand; the
    specification only says that matching is case-insensitive.  Two
    strings are equal here when they have the same length and agree
    character by character after ASCII lower-casing. *)
Fixpoint iequals (a b : string) : bool :=
  match a, b with
  | EmptyString, EmptyString => true
  | String x a', String y b' => Ascii.eqb (tolower x) (tolower y) && iequals a' b'
  | _, _ => false
  end.

End Str.

(** ** Pixel types *)

Inductive exr_pixel_type_t :=
  | EXR_PIXEL_UINT
  | EXR_PIXEL_HALF
  | EXR_PIXEL_FLOAT
  | EXR_PIXEL_LAST_TYPE.

Inductive TypeDesc := TypeUnknown | TypeUInt | TypeHalf | TypeFloat.

Definition TypeDesc_eqb (a b : TypeDesc) : bool :=
  match a, b with
  | TypeUnknown, TypeUnknown | TypeUInt, TypeUInt
  | TypeHalf, TypeHalf | TypeFloat, TypeFloat => true
  | _, _ => false
  end.

Lemma TypeDesc_eqb_eq a b : TypeDesc_eqb a b = true <-> a = b.
Proof. destruct a, b; simpl; split; congruence. Qed.

(** [TypeDesc::size()] for the base types the reader produces. *)
Definition TypeDesc_size (t : TypeDesc) : Z :=
  match t with
  | TypeUnknown => 0
  | TypeUInt => 4
  | TypeHalf => 2
  | TypeFloat => 4
  end.

Definition TypeDesc_from_ImfPixelType (ptype : exr_pixel_type_t) : TypeDesc :=
  match ptype with
  | EXR_PIXEL_UINT => TypeUInt
  | EXR_PIXEL_HALF => TypeHalf
  | EXR_PIXEL_FLOAT => TypeFloat
  | EXR_PIXEL_LAST_TYPE => TypeUnknown
  end.

(** ** [ImageSpec]: the fields the reader sets or reads *)

Module ImageSpec.

Record t := mk {
  x : Z; y : Z; z : Z;
  width : Z; height : Z; depth : Z;
  full_x : Z; full_y : Z;
  full_width : Z; full_height : Z;
  tile_width : Z; tile_height : Z;
  nchannels : Z;
  format : TypeDesc;
  channelformats : list TypeDesc;
  channelnames : list string;
  alpha_channel : Z;
  z_channel : Z;
  deep : bool
}.

(** [ImageSpec()]: the default-constructed spec. *)
Definition default : t :=
  {| x := 0; y := 0; z := 0; width := 0; height := 0; depth := 1;
     full_x := 0; full_y := 0; full_width := 0; full_height := 0;
     tile_width := 0; tile_height := 0;
     nchannels := 0; format := TypeUnknown;
     channelformats := []; channelnames := [];
     alpha_channel := -1; z_channel := -1; deep := false |}.

(** [ImageSpec::channelformat(chan)]: the per-channel format when one is
    recorded for [chan], the common [format] otherwise. *)
Definition channelformat (spec : t) (chan : Z) : TypeDesc :=
  if (0 <=? chan) && (chan <? Z.of_nat (length (channelformats spec)))
  then nth (Z.to_nat chan) (channelformats spec) (format spec)
  else format spec.

(** [ImageSpec::channel_name(chan)]. *)
Definition channel_name (spec : t) (chan : Z) : string :=
  if (0 <=? chan) && (chan <? Z.of_nat (length (channelnames spec)))
  then nth (Z.to_nat chan) (channelnames spec) EmptyString
  else EmptyString.

(** [ImageSpec::pixel_bytes(chbegin, chend, native = true)]: the bytes of
    the channels [chbegin .. chend-1] of one pixel, each in its own
    format. *)
Definition pixel_bytes (spec : t) (chbegin chend : Z) : Z :=
  if chbegin <? 0 then 0
  else foldr Z.add 0
         (map (fun c => TypeDesc_size (channelformat spec c))
              (seqZ chbegin (Z.max chend chbegin - chbegin))).

Definition set_window (s : t) (x0 y0 w h : Z) : t :=
  {| x := x0; y := y0; z := z s; width := w; height := h; depth := depth s;
     full_x := full_x s; full_y := full_y s;
     full_width := full_width s; full_height := full_height s;
     tile_width := tile_width s; tile_height := tile_height s;
     nchannels := nchannels s; format := format s;
     channelformats := channelformats s; channelnames := channelnames s;
     alpha_channel := alpha_channel s; z_channel := z_channel s;
     deep := deep s |}.

Definition set_full_window (s : t) (fx fy fw fh : Z) : t :=
  {| x := x s; y := y s; z := z s;
     width := width s; height := height s; depth := depth s;
     full_x := fx; full_y := fy; full_width := fw; full_height := fh;
     tile_width := tile_width s; tile_height := tile_height s;
     nchannels := nchannels s; format := format s;
     channelformats := channelformats s; channelnames := channelnames s;
     alpha_channel := alpha_channel s; z_channel := z_channel s;
     deep := deep s |}.

Definition set_tile (s : t) (tw th : Z) : t :=
  {| x := x s; y := y s; z := z s;
     width := width s; height := height s; depth := depth s;
     full_x := full_x s; full_y := full_y s;
     full_width := full_width s; full_height := full_height s;
     tile_width := tw; tile_height := th;
     nchannels := nchannels s; format := format s;
     channelformats := channelformats s; channelnames := channelnames s;
     alpha_channel := alpha_channel s; z_channel := z_channel s;
     deep := deep s |}.

Definition set_nchannels (s : t) (n : Z) : t :=
  {| x := x s; y := y s; z := z s;
     width := width s; height := height s; depth := depth s;
     full_x := full_x s; full_y := full_y s;
     full_width := full_width s; full_height := full_height s;
     tile_width := tile_width s; tile_height := tile_height s;
     nchannels := n; format := format s;
     channelformats := channelformats s; channelnames := channelnames s;
     alpha_channel := alpha_channel s; z_channel := z_channel s;
     deep := deep s |}.

Definition set_format (s : t) (f : TypeDesc) : t :=
  {| x := x s; y := y s; z := z s;
     width := width s; height := height s; depth := depth s;
     full_x := full_x s; full_y := full_y s;
     full_width := full_width s; full_height := full_height s;
     tile_width := tile_width s; tile_height := tile_height s;
     nchannels := nchannels s; format := f;
     channelformats := channelformats s; channelnames := channelnames s;
     alpha_channel := alpha_channel s; z_channel := z_channel s;
     deep := deep s |}.

Definition set_channelformats (s : t) (l : list TypeDesc) : t :=
  {| x := x s; y := y s; z := z s;
     width := width s; height := height s; depth := depth s;
     full_x := full_x s; full_y := full_y s;
     full_width := full_width s; full_height := full_height s;
     tile_width := tile_width s; tile_height := tile_height s;
     nchannels := nchannels s; format := format s;
     channelformats := l; channelnames := channelnames s;
     alpha_channel := alpha_channel s; z_channel := z_channel s;
     deep := deep s |}.

Definition set_channelnames (s : t) (l : list string) : t :=
  {| x := x s; y := y s; z := z s;
     width := width s; height := height s; depth := depth s;
     full_x := full_x s; full_y := full_y s;
     full_width := full_width s; full_height := full_height s;
     tile_width := tile_width s; tile_height := tile_height s;
     nchannels := nchannels s; format := format s;
     channelformats := channelformats s; channelnames := l;
     alpha_channel := alpha_channel s; z_channel := z_channel s;
     deep := deep s |}.

Definition set_alpha_channel (s : t) (c : Z) : t :=
  {| x := x s; y := y s; z := z s;
     width := width s; height := height s; depth := depth s;
     full_x := full_x s; full_y := full_y s;
     full_width := full_width s; full_height := full_height s;
     tile_width := tile_width s; tile_height := tile_height s;
     nchannels := nchannels s; format := format s;
     channelformats := channelformats s; channelnames := channelnames s;
     alpha_channel := c; z_channel := z_channel s;
     deep := deep s |}.

Definition set_z_channel (s : t) (c : Z) : t :=
  {| x := x s; y := y s; z := z s;
     width := width s; height := height s; depth := depth s;
     full_x := full_x s; full_y := full_y s;
     full_width := full_width s; full_height := full_height s;
     tile_width := tile_width s; tile_height := tile_height s;
     nchannels := nchannels s; format := format s;
     channelformats := channelformats s; channelnames := channelnames s;
     alpha_channel := alpha_channel s; z_channel := c;
     deep := deep s |}.

Definition set_deep (s : t) (d : bool) : t :=
  {| x := x s; y := y s; z := z s;
     width := width s; height := height s; depth := depth s;
     full_x := full_x s; full_y := full_y s;
     full_width := full_width s; full_height := full_height s;
     tile_width := tile_width s; tile_height := tile_height s;
     nchannels := nchannels s; format := format s;
     channelformats := channelformats s; channelnames := channelnames s;
     alpha_channel := alpha_channel s; z_channel := z_channel s;
     deep := d |}.

End ImageSpec.

(** ** The contract of [std::sort]

    [std::sort] belongs to the C++ standard library.  Its contract: the
    result is a permutation of the input, sorted with respect to a
    comparator that is a strict weak ordering; the relative order of
    equivalent elements is left to the implementation. *)

Record StrictWeakOrder {A : Type} (comp : A -> A -> bool) : Prop := {
  swo_irrefl : forall a, comp a a = false;
  swo_trans : forall a b c, comp a b = true -> comp b c = true -> comp a c = true;
  swo_incomp : forall a b c,
    comp a b = false -> comp b a = false ->
    comp b c = false -> comp c b = false ->
    comp a c = false /\ comp c a = false
}.

(** No element is ordered before one that precedes it. *)
Definition sorted_by {A : Type} (comp : A -> A -> bool) (l : list A) : Prop :=
  StronglySorted (fun a b => comp b a = false) l.

Record StdSort : Type := {
  std_sort : forall {A : Type}, (A -> A -> bool) -> list A -> list A;
  std_sort_perm : forall A (comp : A -> A -> bool) (l : list A),
    Permutation l (std_sort comp l);
  std_sort_sorted : forall A (comp : A -> A -> bool) (l : list A),
    StrictWeakOrder comp -> sorted_by comp (std_sort comp l)
}.

(** ** Channel catalog: [ChanNameHolder] and [query_channels] *)

Module ChannelCatalog.

(** An entry of the file's channel list ([exr_attr_chlist_entry_t]). *)
Record exr_attr_chlist_entry_t := mkEntry {
  name : string;
  pixel_type : exr_pixel_type_t;
  x_sampling : Z;
  y_sampling : Z
}.

(** Split a full channel name into layer and suffix. *)
Definition split_name (fullname : string) : string * string :=
  match Str.find_last_of "."%char fullname with
  | None => (EmptyString, fullname)
  | Some dot =>
      (String.substring 0 (dot + 1) fullname,
       String.substring (dot + 1) (String.length fullname - dot - 1) fullname)
  end.

Record ChanNameHolder := mkCNH {
  fullname : string;
  layer : string;
  suffix : string;
  exr_channel_number : Z;
  special_index : Z;
  exr_data_type : exr_pixel_type_t;
  datatype : TypeDesc;
  xSampling : Z;
  ySampling : Z
}.

(** The constructor [ChanNameHolder(n, exrchan)]. *)
Definition ChanNameHolder_new (n : Z) (exrchan : exr_attr_chlist_entry_t)
  : ChanNameHolder :=
  let '(l, s) := split_name (name exrchan) in
  {| fullname := name exrchan;
     layer := l;
     suffix := s;
     exr_channel_number := n;
     special_index := 10000;
     exr_data_type := pixel_type exrchan;
     datatype := TypeDesc_from_ImfPixelType (pixel_type exrchan);
     xSampling := x_sampling exrchan;
     ySampling := y_sampling exrchan |}.

Definition set_special_index (c : ChanNameHolder) (i : Z) : ChanNameHolder :=
  {| fullname := fullname c;
     layer := layer c;
     suffix := suffix c;
     exr_channel_number := exr_channel_number c;
     special_index := i;
     exr_data_type := exr_data_type c;
     datatype := datatype c;
     xSampling := xSampling c;
     ySampling := ySampling c |}.

(** The table of [compute_special_index]. *)
Definition special : list string :=
  [ "R"; "Red"; "G"; "Green"; "B"; "Blue"; "Y";
    "real"; "imag"; "A"; "Alpha"; "AR"; "RA"; "AG";
    "GA"; "AB"; "BA"; "Z"; "Depth"; "Zback" ]%string.

(** The table of [compute_special_index_xyz]. *)
Definition special_xyz : list string :=
  [ "R"; "Red"; "G"; "Green"; "B"; "Blue";
    "X"; "Y"; "Z"; "real"; "imag"; "A"; "Alpha"; "AR";
    "RA"; "AG"; "GA"; "AB"; "BA"; "Depth"; "Zback" ]%string.

(** The loop [for (int i = 0; special[i]; ++i)] over the remainder
    [table] of a table, [i] being the index of its head: the index at
    which the loop returns, if it does. *)
Fixpoint special_loop (sfx : string) (table : list string) (i : Z) : option Z :=
  match table with
  | [] => None
  | s :: table' =>
      if Str.iequals sfx s then Some i else special_loop sfx table' (i + 1)
  end.

Definition compute_special_index (c : ChanNameHolder) : ChanNameHolder :=
  match special_loop (suffix c) special 0 with
  | Some i => set_special_index c i
  | None => c
  end.

Definition compute_special_index_xyz (c : ChanNameHolder) : ChanNameHolder :=
  match special_loop (suffix c) special_xyz 0 with
  | Some i => set_special_index c i
  | None => c
  end.

(** Partial sort on layer only. *)
Definition compare_layer (a b : ChanNameHolder) : bool :=
  Str.lt (layer a) (layer b).

(** Full sort on layer name, special index, suffix. *)
Definition compare_cnh (a b : ChanNameHolder) : bool :=
  if Str.lt (layer a) (layer b) then true
  else if Str.lt (layer b) (layer a) then false
  else if special_index a <? special_index b then true
  else if special_index b <? special_index a then false
  else Str.lt (suffix a) (suffix b).

(** Is the channel name (suffix only) in the list? *)
Fixpoint suffixfound (nm : string) (chans : list ChanNameHolder) : bool :=
  match chans with
  | [] => false
  | c :: chans' => if Str.iequals nm (suffix c) then true else suffixfound nm chans'
  end.

(** The scan [while (layerend != cnh.end() && layerbegin->layer ==
    layerend->layer) ++layerend]: the channels after [layerbegin] that
    belong to its layer, and what follows them. *)
Fixpoint layer_scan (layerbegin : ChanNameHolder) (rest : list ChanNameHolder)
  : list ChanNameHolder * list ChanNameHolder :=
  match rest with
  | [] => ([], [])
  | c :: rest' =>
      if Str.eq (layer layerbegin) (layer c)
      then let '(span, post) := layer_scan layerbegin rest' in (c :: span, post)
      else ([], rest)
  end.

(** The body of the per-layer loop on one [layerspan]: choose the table,
    compute the special indices (the sort follows). *)
Definition layer_special (layerspan : list ChanNameHolder) : list ChanNameHolder :=
  if suffixfound "X" layerspan
     && (suffixfound "Y" layerspan || suffixfound "Z" layerspan)
  then map compute_special_index_xyz layerspan
  else map compute_special_index layerspan.

(** The loop filling [cnh]: [cnh.emplace_back(c, chan)] for each entry. *)
Definition emplace_all (entries : list exr_attr_chlist_entry_t)
  : list ChanNameHolder :=
  imap (fun c chan => ChanNameHolder_new (Z.of_nat c) chan) entries.

Section WithSort.

Variable stdlib : StdSort.

(** "Now, within each layer, sort by channel name": the loop over the
    layers of [cnh].  Every turn consumes at least one channel, so
    [length cnh] turns are enough. *)
Fixpoint layers_loop (fuel : nat) (cnh : list ChanNameHolder)
  : list ChanNameHolder :=
  match fuel, cnh with
  | S fuel', layerbegin :: rest =>
      let '(span, post) := layer_scan layerbegin rest in
      std_sort stdlib compare_cnh (layer_special (layerbegin :: span))
        ++ layers_loop fuel' post
  | _, _ => cnh
  end.

(** "First, do a partial sort by layername." *)
Definition layer_pass (cnh : list ChanNameHolder) : list ChanNameHolder :=
  std_sort stdlib compare_layer cnh.

(** The order in which [query_channels] presents the channels: the
    partial sort by layer name, then the per-layer sort. *)
Definition canonical_order (entries : list exr_attr_chlist_entry_t)
  : list ChanNameHolder :=
  let cnh := layer_pass (emplace_all entries) in
  layers_loop (length cnh) cnh.

End WithSort.

End ChannelCatalog.

(** ** The file as the OpenEXRCore queries describe it *)

Inductive exr_tile_level_mode_t :=
  | EXR_TILE_ONE_LEVEL
  | EXR_TILE_MIPMAP_LEVELS
  | EXR_TILE_RIPMAP_LEVELS
  | EXR_TILE_LAST_TYPE.

Inductive exr_tile_round_mode_t :=
  | EXR_TILE_ROUND_DOWN
  | EXR_TILE_ROUND_UP
  | EXR_TILE_ROUND_LAST_TYPE.

Inductive exr_storage_t :=
  | EXR_STORAGE_SCANLINE
  | EXR_STORAGE_TILED
  | EXR_STORAGE_DEEP_SCANLINE
  | EXR_STORAGE_DEEP_TILED.

Record exr_attr_box2i_t := mkBox {
  min_x : Z; min_y : Z; max_x : Z; max_y : Z
}.

(** What the header queries answer for one part of the file; [None]
    stands for a result other than [EXR_ERR_SUCCESS].  The translation of
    the remaining attributes into metadata is not modelled: of that loop
    only whether its queries succeed matters to the part's state. *)
Record exr_part := mkExrPart {
  hdr_data_window : option exr_attr_box2i_t;
  hdr_display_window : option exr_attr_box2i_t;
  hdr_storage : option exr_storage_t;
  hdr_tile_descriptor :
    option (Z * Z * exr_tile_level_mode_t * exr_tile_round_mode_t);
  hdr_tile_levels : option (Z * Z);
  hdr_channels : option (list ChannelCatalog.exr_attr_chlist_entry_t);
  hdr_envmap_cube : option bool;
  hdr_attributes_ok : bool;
  hdr_scanlines_per_chunk : option Z;
  hdr_level_sizes : Z -> option (Z * Z)
}.

(** [exr_context_t]: a null context, or the parts of the opened file. *)
Definition exr_context_t := option (list exr_part).

Definition exr_get_part (ctxt : exr_context_t) (subimage : Z) : option exr_part :=
  match ctxt with
  | Some parts =>
      if 0 <=? subimage then parts !! Z.to_nat subimage else None
  | None => None
  end.

(** Messages handed to [errorf]. *)
Inductive error_msg :=
  | ErrNoChannels
  | ErrSubsampled (chan : string) (xs ys : Z)
  | ErrUnableToInitializePart
  | ErrNoOpenFile.

(** [clamp(a, low, high)] of OpenImageIO/fmath.h. *)
Definition clamp (a low high : Z) : Z :=
  if low <=? a then (if a <=? high then a else high) else low.

(** 32-bit two's complement wrap-around. *)
Definition int32 (v : Z) : Z := (v + 2 ^ 31) mod 2 ^ 32 - 2 ^ 31.

(** ** [OpenEXRInput::PartInfo] *)

Module PartInfo.

Import ChannelCatalog.

Record t := mk {
  initialized : bool;
  spec : ImageSpec.t;
  topwidth : Z;
  topheight : Z;
  levelmode : exr_tile_level_mode_t;
  roundingmode : exr_tile_round_mode_t;
  cubeface : bool;
  nmiplevels : Z;
  top_datawindow : exr_attr_box2i_t;
  top_displaywindow : exr_attr_box2i_t;
  pixeltype : list exr_pixel_type_t;
  chanbytes : list Z
}.

(** [PartInfo()] initialises [initialized] only; the values given here to
    the other members stand for whatever they hold before the header is
    parsed. *)
Definition new : t :=
  {| initialized := false;
     spec := ImageSpec.default;
     topwidth := 0; topheight := 0;
     levelmode := EXR_TILE_ONE_LEVEL;
     roundingmode := EXR_TILE_ROUND_DOWN;
     cubeface := false;
     nmiplevels := 0;
     top_datawindow := mkBox 0 0 0 0;
     top_displaywindow := mkBox 0 0 0 0;
     pixeltype := [];
     chanbytes := [] |}.

Definition set_initialized (p : t) (b : bool) : t :=
  mk b (spec p) (topwidth p) (topheight p) (levelmode p) (roundingmode p)
     (cubeface p) (nmiplevels p) (top_datawindow p) (top_displaywindow p)
     (pixeltype p) (chanbytes p).

Definition set_spec (p : t) (s : ImageSpec.t) : t :=
  mk (initialized p) s (topwidth p) (topheight p) (levelmode p)
     (roundingmode p) (cubeface p) (nmiplevels p) (top_datawindow p)
     (top_displaywindow p) (pixeltype p) (chanbytes p).

Definition set_windows (p : t) (dw dpw : exr_attr_box2i_t) : t :=
  mk (initialized p) (spec p) (topwidth p) (topheight p) (levelmode p)
     (roundingmode p) (cubeface p) (nmiplevels p) dw dpw
     (pixeltype p) (chanbytes p).

Definition set_top (p : t) (w h : Z) : t :=
  mk (initialized p) (spec p) w h (levelmode p)
     (roundingmode p) (cubeface p) (nmiplevels p) (top_datawindow p)
     (top_displaywindow p) (pixeltype p) (chanbytes p).

Definition set_levels (p : t) (lm : exr_tile_level_mode_t)
  (rm : exr_tile_round_mode_t) (n : Z) : t :=
  mk (initialized p) (spec p) (topwidth p) (topheight p) lm rm
     (cubeface p) n (top_datawindow p) (top_displaywindow p)
     (pixeltype p) (chanbytes p).

Definition set_cubeface (p : t) (b : bool) : t :=
  mk (initialized p) (spec p) (topwidth p) (topheight p) (levelmode p)
     (roundingmode p) b (nmiplevels p) (top_datawindow p)
     (top_displaywindow p) (pixeltype p) (chanbytes p).

Definition set_chans (p : t) (pt : list exr_pixel_type_t) (cb : list Z) : t :=
  mk (initialized p) (spec p) (topwidth p) (topheight p) (levelmode p)
     (roundingmode p) (cubeface p) (nmiplevels p) (top_datawindow p)
     (top_displaywindow p) pt cb.

Section WithLibraries.

Variable stdlib : StdSort.

(** [TypeDesc::basetype_merge] is declared in OpenImageIO/typedesc.h and
    is not part of the sources at hand; it is taken as a parameter. *)
Variable basetype_merge : TypeDesc -> TypeDesc -> TypeDesc.

(** What the loop [for (int c = 0; c < spec.nchannels; ++c)] of
    [query_channels] carries from one channel to the next. *)
Record chan_loop := mkLoop {
  cl_part : t;
  cl_all_one_format : bool;
  cl_ok : bool;
  cl_errors : list error_msg
}.

(** The body of that loop for channel [c], [ch] being [cnh[c]] and [ch0]
    being [cnh[0]]. *)
Definition chan_body (ch0 : ChanNameHolder) (c : Z) (ch : ChanNameHolder)
  (st : chan_loop) : chan_loop :=
  let part := cl_part st in
  let sp := spec part in
  let sp := ImageSpec.set_channelnames sp (ImageSpec.channelnames sp ++ [fullname ch]) in
  let sp := ImageSpec.set_channelformats sp (ImageSpec.channelformats sp ++ [datatype ch]) in
  let sp := ImageSpec.set_format sp (basetype_merge (ImageSpec.format sp) (datatype ch)) in
  let part := set_chans part (pixeltype part ++ [exr_data_type ch])
                             (chanbytes part ++ [TypeDesc_size (datatype ch)]) in
  let all_one := cl_all_one_format st && TypeDesc_eqb (datatype ch) (datatype ch0) in
  let sp :=
    if (ImageSpec.alpha_channel sp <? 0)
       && (Str.iequals (suffix ch) "A" || Str.iequals (suffix ch) "Alpha")
    then ImageSpec.set_alpha_channel sp c else sp in
  let sp :=
    if (ImageSpec.z_channel sp <? 0)
       && (Str.iequals (suffix ch) "Z" || Str.iequals (suffix ch) "Depth")
    then ImageSpec.set_z_channel sp c else sp in
  let part := set_spec part sp in
  if negb (xSampling ch =? 1) || negb (ySampling ch =? 1)
  then mkLoop part all_one false
         (cl_errors st ++ [ErrSubsampled (fullname ch) (xSampling ch) (ySampling ch)])
  else mkLoop part all_one (cl_ok st) (cl_errors st).

Fixpoint chan_loop_from (ch0 : ChanNameHolder) (c : Z)
  (cnh : list ChanNameHolder) (st : chan_loop) : chan_loop :=
  match cnh with
  | [] => st
  | ch :: cnh' => chan_loop_from ch0 (c + 1) cnh' (chan_body ch0 c ch st)
  end.

(** [PartInfo::query_channels]: the result, the part and the error
    messages issued so far. *)
Definition query_channels (part : t) (ctxt : exr_context_t) (subimage : Z)
  (errors : list error_msg) : bool * t * list error_msg :=
  let part := set_spec part (ImageSpec.set_nchannels (spec part) 0) in
  match exr_get_part ctxt subimage ≫= hdr_channels with
  | None => (false, part, errors)
  | Some chlist =>
      let cnh := emplace_all chlist in
      let part :=
        set_spec part (ImageSpec.set_nchannels (spec part) (Z.of_nat (length cnh))) in
      match cnh with
      | [] => (false, part, errors ++ [ErrNoChannels])
      | _ :: _ =>
          let cnh := canonical_order stdlib chlist in
          let part :=
            set_spec part (ImageSpec.set_format (spec part) TypeUnknown) in
          let ch0 := hd (ChanNameHolder_new 0 (mkEntry "" EXR_PIXEL_LAST_TYPE 1 1)) cnh in
          let st := chan_loop_from ch0 0 cnh (mkLoop part true true errors) in
          let part := cl_part st in
          let part :=
            if cl_all_one_format st
            then set_spec part (ImageSpec.set_channelformats (spec part) [])
            else part in
          (cl_ok st, part, cl_errors st)
      end
  end.

(** [PartInfo::parse_header].  The lock it takes is that of the caller's
    thread and has no effect on what a single thread computes. *)
Definition parse_header (part : t) (ctxt : exr_context_t) (subimage : Z)
  (errors : list error_msg) : bool * t * list error_msg :=
  if initialized part then (true, part, errors)
  else
    let part := set_spec part ImageSpec.default in
    let hdr := exr_get_part ctxt subimage in
    match hdr ≫= hdr_data_window with
    | None => (false, part, errors)
    | Some dw =>
    let part := set_windows part dw (top_displaywindow part) in
    match hdr ≫= hdr_display_window with
    | None => (false, part, errors)
    | Some dpw =>
    let part := set_windows part dw dpw in
    let w := int32 (int32 (max_x dw - min_x dw) + 1) in
    let h := int32 (int32 (max_y dw - min_y dw) + 1) in
    let sp := ImageSpec.set_window (spec part) (min_x dw) (min_y dw) w h in
    let sp := ImageSpec.set_full_window sp (min_x dpw) (min_y dpw)
                (int32 (int32 (max_x dpw - min_x dpw) + 1))
                (int32 (int32 (max_y dpw - min_y dpw) + 1)) in
    let part := set_top (set_spec part sp) w h in
    match hdr ≫= hdr_storage with
    | None => (false, part, errors)
    | Some storage =>
    let tiled :=
      match storage with
      | EXR_STORAGE_TILED | EXR_STORAGE_DEEP_TILED => hdr ≫= hdr_tile_descriptor
      | _ => None
      end in
    let levels :=
      match tiled with
      | Some (txsz, tysz, lm, rm) =>
          match hdr ≫= hdr_tile_levels with
          | None =>
              inl (set_levels (set_spec part (ImageSpec.set_tile (spec part) txsz tysz))
                     lm rm (nmiplevels part))
          | Some (levelsx, levelsy) =>
              inr (set_levels (set_spec part (ImageSpec.set_tile (spec part) txsz tysz))
                     lm rm (Z.max levelsx levelsy))
          end
      | None =>
          inr (set_levels (set_spec part (ImageSpec.set_tile (spec part) 0 0))
                 EXR_TILE_ONE_LEVEL (roundingmode part) 1)
      end in
    match levels with
    | inl part => (false, part, errors)
    | inr part =>
    match query_channels part ctxt subimage errors with
    | (false, part, errors) => (false, part, errors)
    | (true, part, errors) =>
    let part :=
      set_spec part
        (ImageSpec.set_deep (spec part)
           match storage with
           | EXR_STORAGE_DEEP_TILED | EXR_STORAGE_DEEP_SCANLINE => true
           | _ => false
           end) in
    let part :=
      match hdr ≫= hdr_envmap_cube with
      | Some cube => set_cubeface part cube
      | None => set_cubeface part false
      end in
    if negb (default false (hdr_attributes_ok <$> hdr)) then (false, part, errors)
    else (true, set_initialized part true, errors)
    end end end end end.

(** The loop [for (int m = miplevel; m; --m)] of [compute_mipres], [m]
    turns of it. *)
Fixpoint mip_loop (rm : exr_tile_round_mode_t) (m : nat) (w h : Z) : Z * Z :=
  match m with
  | O => (w, h)
  | S m' =>
      let '(w, h) :=
        match rm with
        | EXR_TILE_ROUND_DOWN => (Z.quot w 2, Z.quot h 2)
        | _ => (Z.quot (int32 (w + 1)) 2, Z.quot (int32 (h + 1)) 2)
        end in
      mip_loop rm m' (Z.max 1 w) (Z.max 1 h)
  end.

(** [PartInfo::compute_mipres]: the [spec] it leaves.  The counter [m]
    runs from [miplevel] down to zero; a negative [miplevel] wraps around
    the 32-bit range before it gets there. *)
Definition compute_mipres (part : t) (miplevel : Z) (sp : ImageSpec.t)
  : ImageSpec.t :=
  match levelmode part with
  | EXR_TILE_ONE_LEVEL => sp
  | lm =>
      let '(w, h) :=
        match lm with
        | EXR_TILE_MIPMAP_LEVELS =>
            mip_loop (roundingmode part) (Z.to_nat (miplevel mod 2 ^ 32))
              (topwidth part) (topheight part)
        | _ => (topwidth part, topheight part)
        end in
      let datawindow := top_datawindow part in
      let displaywindow := top_displaywindow part in
      let sp := ImageSpec.set_window sp (min_x datawindow) (min_y datawindow) w h in
      let sp :=
        if miplevel =? 0
        then ImageSpec.set_full_window sp (min_x displaywindow) (min_y displaywindow)
               (int32 (int32 (max_x displaywindow - min_x displaywindow) + 1))
               (int32 (int32 (max_y displaywindow - min_y displaywindow) + 1))
        else ImageSpec.set_full_window sp (ImageSpec.x sp) (ImageSpec.y sp)
               (ImageSpec.width sp) (ImageSpec.height sp) in
      if cubeface part
      then ImageSpec.set_full_window sp (ImageSpec.full_x sp) (ImageSpec.full_y sp) w w
      else sp
  end.

End WithLibraries.

End PartInfo.

(** ** [std::vector]: size and capacity

    The elements live in [storage], whose length is the capacity; a cell
    that was never written holds [None].  Only the first [size] cells are
    elements of the vector. *)

Module Vector.

Record t (A : Type) := mk {
  storage : list (option A);
  size : nat
}.
Arguments mk {A} _ _.
Arguments storage {A} _.
Arguments size {A} _.

Definition capacity {A} (v : t A) : nat := length (storage v).

Definition empty_vector {A} : t A := mk [] 0.

(** Assignment from a list of values. *)
Definition of_list {A} (l : list A) : t A := mk (Some <$> l) (length l).

(** The elements, first to last. *)
Definition elements {A} (v : t A) : list (option A) := take (size v) (storage v).

Definition empty {A} (v : t A) : bool := Nat.eqb (size v) 0.

(** [clear()] destroys the elements and keeps the storage. *)
Definition clear {A} (v : t A) : t A := mk (storage v) 0.

(** [reserve(n)] makes room for [n] elements; the size is unchanged. *)
Definition reserve {A} (n : nat) (v : t A) : t A :=
  if (capacity v <? n)%nat
  then mk (take (size v) (storage v) ++ replicate (n - size v) None) (size v)
  else v.

(** [v[i] = a]: no bounds check, no change of size.  A write within the
    capacity lands in the storage; one beyond it is an access outside the
    allocation, which this model drops. *)
Definition assign_at {A} (i : nat) (a : A) (v : t A) : t A :=
  mk (<[i := Some a]> (storage v)) (size v).

(** [back()]. *)
Definition back {A} (v : t A) : option A :=
  mjoin (storage v !! (size v - 1)%nat).

(** The copy constructor copies the elements. *)
Definition copy {A} (v : t A) : t A := mk (elements v) (size v).

(** [resize(n, a)]: drop the elements from [n] on, or append copies of
    [a] up to [n] elements. *)
Definition resize {A} (n : nat) (a : option A) (v : t A) : t A :=
  if (n <=? size v)%nat then mk (storage v) n
  else mk (take (size v) (storage v) ++ replicate (n - size v) a
           ++ drop n (storage v)) n.

(** [v[i]] as a value: [None] for a cell outside the storage or never
    written, and for a negative index. *)
Definition at_index {A} (v : t A) (i : Z) : option A :=
  if i <? 0 then None else mjoin (storage v !! Z.to_nat i).

End Vector.

(** ** Single-precision values *)

Definition float := spec_float.

(** [0.5f] and the like are written with their mantissa and exponent. *)
Definition float_zero : float := S754_zero false.

Definition fabsf (v : float) : float := SFabs v.

Definition float_lt (a b : float) : bool := SFltb a b.

(** ** Memory

    A buffer is a finite map from byte offsets to byte values.  Values are
    kept symbolic: a byte of the object representation of a [float] or of
    a [half], a byte of a sample the codec decoded, a byte the buffer held
    before the call, or a zero byte of a freshly sized vector. *)

Inductive memval :=
  | FloatByte (v : float) (k : Z)
  | HalfByte (v : float) (k : Z)
  | SampleByte (chan : string) (px py : Z) (k : Z)
  | ZeroByte.

Abbreviation mem := (gmap Z memval).

(** Write the [n] bytes [f 0 .. f (n-1)] at offset [a]. *)
Definition store_bytes (a n : Z) (f : Z -> memval) (m : mem) : mem :=
  foldr (fun k m => <[a + k := f k]> m) m (seqZ 0 n).

(** [for (i = lo; i < hi; ++i) body]. *)
Definition for_loop {St : Type} (lo hi : Z) (body : Z -> St -> St) (s : St) : St :=
  fold_left (fun s i => body i s) (seqZ lo (hi - lo)) s.

(** ** The reader's state *)

Module Reader.

Record t := mk {
  m_parts : list PartInfo.t;
  m_subimage : Z;
  m_miplevel : Z;
  m_exr_context : exr_context_t;
  m_nsubimages : Z;
  m_missingcolor : Vector.t float;
  m_spec : ImageSpec.t;
  errors : list error_msg
}.

Definition set_parts (r : t) (ps : list PartInfo.t) (errs : list error_msg) : t :=
  mk ps (m_subimage r) (m_miplevel r) (m_exr_context r) (m_nsubimages r)
     (m_missingcolor r) (m_spec r) errs.

Definition set_subimage (r : t) (s : Z) : t :=
  mk (m_parts r) s (m_miplevel r) (m_exr_context r) (m_nsubimages r)
     (m_missingcolor r) (m_spec r) (errors r).

Definition set_miplevel (r : t) (m : Z) : t :=
  mk (m_parts r) (m_subimage r) m (m_exr_context r) (m_nsubimages r)
     (m_missingcolor r) (m_spec r) (errors r).

Definition set_m_spec (r : t) (s : ImageSpec.t) : t :=
  mk (m_parts r) (m_subimage r) (m_miplevel r) (m_exr_context r)
     (m_nsubimages r) (m_missingcolor r) s (errors r).

Definition set_missingcolor (r : t) (v : Vector.t float) : t :=
  mk (m_parts r) (m_subimage r) (m_miplevel r) (m_exr_context r)
     (m_nsubimages r) v (m_spec r) (errors r).

Definition add_error (r : t) (e : error_msg) : t :=
  mk (m_parts r) (m_subimage r) (m_miplevel r) (m_exr_context r)
     (m_nsubimages r) (m_missingcolor r) (m_spec r) (errors r ++ [e]).

Definition current_subimage (r : t) : Z := m_subimage r.
Definition current_miplevel (r : t) : Z := m_miplevel r.

(** [m_parts[subimage]]; the vector has [m_nsubimages] elements once the
    file is open, and the index is checked against that count before the
    access. *)
Definition part_at (r : t) (subimage : Z) : PartInfo.t :=
  default PartInfo.new (m_parts r !! Z.to_nat subimage).

Section WithLibraries.

Variable stdlib : StdSort.
Variable basetype_merge : TypeDesc -> TypeDesc -> TypeDesc.

(** [OpenEXRInput::seek_subimage]. *)
Definition seek_subimage (r : t) (subimage miplevel : Z) : bool * t :=
  if (subimage <? 0) || (m_nsubimages r <=? subimage) then (false, r)
  else
    let part := part_at r subimage in
    let '(ok, part, errs) :=
      if PartInfo.initialized part then (true, part, errors r)
      else
        match PartInfo.parse_header stdlib basetype_merge part
                (m_exr_context r) subimage (errors r) with
        | (false, part, errs) => (false, part, errs)
        | (true, part, errs) => (true, PartInfo.set_initialized part true, errs)
        end in
    let r := set_parts r (<[Z.to_nat subimage := part]> (m_parts r)) errs in
    if negb ok then (false, r)
    else
      let r := set_subimage r subimage in
      if (miplevel <? 0) || (PartInfo.nmiplevels part <=? miplevel) then (false, r)
      else
        let r := set_m_spec (set_miplevel r miplevel) (PartInfo.spec part) in
        match miplevel =? 0, PartInfo.levelmode part with
        | true, EXR_TILE_ONE_LEVEL => (true, r)
        | _, _ => (true, set_m_spec r (PartInfo.compute_mipres part miplevel (m_spec r)))
        end.

(** [OpenEXRInput::init_part]: the part's spec, after a seek when the
    part has not been inventoried yet. *)
Definition init_part (r : t) (subimage miplevel : Z) : ImageSpec.t * t :=
  if PartInfo.initialized (part_at r subimage)
  then (PartInfo.spec (part_at r subimage), r)
  else
    match seek_subimage r subimage miplevel with
    | (false, r) =>
        let r := add_error r ErrUnableToInitializePart in
        (PartInfo.spec (part_at r subimage), r)
    | (true, r) => (PartInfo.spec (part_at r subimage), r)
    end.

(** *** [open] and [close] *)

(** The value of the "oiio:missingcolor" attribute of the configuration:
    a string, or an array of [n] numbers read with [get_float(i)]. *)
Inductive missingcolor_attr :=
  | MissingColorString (s : string)
  | MissingColorArray (values : list float).

(** What [open] meets outside the reader: the configuration attribute,
    the global "missingcolor" setting, whether the stream can be read,
    and the file that [exr_start_read] and [exr_get_count] deliver. *)
Record open_env := mkOpenEnv {
  cfg_missingcolor : option missingcolor_attr;
  global_missingcolor : string;
  io_readable : bool;
  file_parts : option (list exr_part)
}.

(** [Strutil::extract_from_list_string<float>] is declared in
    OpenImageIO/strutil.h and is not part of the sources at hand; it is
    taken as a parameter. *)
Variable extract_from_list_string : string -> list float.

(** "missingcolor" gives fill color for missing scanlines or tiles. *)
Definition configure_missingcolor (env : open_env) (mc : Vector.t float)
  : Vector.t float :=
  match cfg_missingcolor env with
  | Some (MissingColorString s) =>
      Vector.of_list (extract_from_list_string s)
  | Some (MissingColorArray values) =>
      let n := length values in
      let mc := Vector.clear mc in
      let mc := Vector.reserve n mc in
      for_loop 0 (Z.of_nat n)
        (fun i mc =>
           match values !! Z.to_nat i with
           | Some v => Vector.assign_at (Z.to_nat i) v mc
           | None => mc
           end) mc
  | None =>
      if negb (String.length (global_missingcolor env) =? 0)%nat
      then Vector.of_list (extract_from_list_string (global_missingcolor env))
      else mc
  end.

(** [m_parts.resize(n)]. *)
Definition resize_parts (n : nat) (ps : list PartInfo.t) : list PartInfo.t :=
  take n ps ++ replicate (n - length ps) PartInfo.new.

(** [init()], as far as the modelled members go. *)
Definition init (r : t) : t :=
  mk (m_parts r) (m_subimage r) (m_miplevel r) None (m_nsubimages r)
     (Vector.clear (m_missingcolor r)) (m_spec r) (errors r).

(** [OpenEXRInput::close]. *)
Definition close (r : t) : bool * t := (true, init r).

(** [OpenEXRInput::open]: the result and the reader; on success
    [newspec] is the [m_spec] of the reader. *)
Definition open (r : t) (env : open_env) : bool * t :=
  let r := set_missingcolor r (configure_missingcolor env (m_missingcolor r)) in
  let r := set_m_spec r ImageSpec.default in
  if negb (io_readable env) then (false, r)
  else
    match file_parts env with
    | None => (false, r)
    | Some parts =>
        let n := length parts in
        let r := mk (resize_parts n (m_parts r)) (-1) (-1) (Some parts)
                    (Z.of_nat n) (m_missingcolor r) (m_spec r) (errors r) in
        match seek_subimage r 0 0 with
        | (true, r) => (true, r)
        | (false, r) => (false, snd (close r))
        end
    end.

End WithLibraries.

(** *** [check_fill_missing] *)

(** The body of [for (int ch = chbegin; ch < chend; ++ch)]: the pointer
    [d] and the buffer after channel [ch] of pixel ([px], [py]). *)
Definition fill_channel (r : t) (missingcolor : Vector.t float) (stripe : bool)
  (px py : Z) (ch : Z) (st : Z * mem) : Z * mem :=
  let '(d, m) := st in
  let v := default float_zero (Vector.at_index missingcolor ch) in
  let v := if stripe && negb (Z.land (px - py) 8 =? 0) then float_zero else v in
  let cf := ImageSpec.channelformat (m_spec r) ch in
  let m :=
    match cf with
    | TypeFloat => store_bytes d 4 (FloatByte v) m
    | TypeHalf => store_bytes d 2 (HalfByte v) m
    | _ => m
    end in
  (d + TypeDesc_size cf, m).

(** Fill in with 'missing' color/pattern.  [data] is the offset in the
    buffer [m] at which the rectangle starts.  Reading an element that
    the local vector does not hold (possible only when [chend] is not
    positive) is modelled as reading zero. *)
Definition check_fill_missing (r : t)
  (xbegin xend ybegin yend chbegin chend : Z)
  (data xstride ystride : Z) (m : mem) : bool * mem :=
  if Vector.empty (m_missingcolor r) then (false, m)
  else
    let missingcolor :=
      Vector.resize (Z.to_nat chend) (Vector.back (m_missingcolor r))
        (Vector.copy (m_missingcolor r)) in
    let c0 := default float_zero (Vector.at_index missingcolor 0) in
    let stripe := float_lt c0 float_zero in
    let missingcolor :=
      if stripe then Vector.assign_at 0 (fabsf c0) missingcolor
      else missingcolor in
    (true,
     for_loop ybegin yend
       (fun py m =>
          for_loop xbegin xend
            (fun px m =>
               let d := data + (py - ybegin) * ystride + (px - xbegin) * xstride in
               snd (for_loop chbegin chend
                      (fill_channel r missingcolor stripe px py) (d, m)))
            m)
       m).

End Reader.

(** ** The decode pipeline of OpenEXRCore, as the reader drives it

    The chunk codec is a collaborator outside this repository.  Its
    calls return a result code each, drawn in order from a stream
    [results] that the theorems leave arbitrary; [EXR_ERR_SUCCESS] is 0.
    A successful run writes, for every channel whose [decode_to_ptr] is
    set, the samples of the chunk at that pointer with the strides the
    reader asked for; what a failed call leaves behind is not specified
    by the library, and the model takes it to change nothing. *)

Module Codec.

Definition exr_result_t := Z.

Definition EXR_ERR_SUCCESS : exr_result_t := 0.

Definition succeeded (rv : exr_result_t) : bool := rv =? EXR_ERR_SUCCESS.

(** [exr_chunk_block_info_t]: the pixels a chunk covers. *)
Record exr_chunk_block_info_t := mkChunk {
  start_x : Z; start_y : Z; width : Z; height : Z
}.

(** A pointer into the caller's buffer [data], into the scratch vector
    [fullchunk], or null. *)
Inductive pointer :=
  | NullPtr
  | DataPtr (off : Z)
  | ScratchPtr (off : Z).

Definition ptr_add (p : pointer) (n : Z) : pointer :=
  match p with
  | NullPtr => NullPtr
  | DataPtr off => DataPtr (off + n)
  | ScratchPtr off => ScratchPtr (off + n)
  end.

Definition ptr_eqb (p q : pointer) : bool :=
  match p, q with
  | NullPtr, NullPtr => true
  | DataPtr a, DataPtr b | ScratchPtr a, ScratchPtr b => a =? b
  | _, _ => false
  end.

Record exr_coding_channel_info_t := mkChannel {
  channel_name : string;
  bytes_per_element : Z;
  decode_to_ptr : pointer;
  user_pixel_stride : Z;
  user_line_stride : Z
}.

Record exr_decode_pipeline_t := mkPipeline {
  channels : list exr_coding_channel_info_t;
  chunk : exr_chunk_block_info_t
}.

(** [exr_decode_pipeline_t decoder = { 0 }]. *)
Definition zero_pipeline : exr_decode_pipeline_t :=
  mkPipeline [] (mkChunk 0 0 0 0).

(** The caller's buffer and the scratch vector [fullchunk] with its
    size. *)
Record buffers := mkBuffers {
  data : mem;
  fullchunk : mem;
  fullchunk_size : Z
}.

(** [fullchunk.resize(n)]: new bytes are zero. *)
Definition resize_fullchunk (n : Z) (b : buffers) : buffers :=
  if fullchunk_size b <? n
  then mkBuffers (data b)
         (store_bytes (fullchunk_size b) (n - fullchunk_size b)
            (fun _ => ZeroByte) (fullchunk b))
         n
  else mkBuffers (data b) (fullchunk b) n.

(** [memcpy(data + dst, &fullchunk[0] + src, n)]. *)
Definition memcpy_from_fullchunk (dst src n : Z) (b : buffers) : buffers :=
  mkBuffers
    (store_bytes dst n (fun i => default ZeroByte (fullchunk b !! (src + i)))
       (data b))
    (fullchunk b) (fullchunk_size b).

(** The chunk of scanlines that holds line [y]: [lines] scanlines from a
    multiple of [lines] below the top of the data window, cut at its
    bottom. *)
Definition scanline_block (hdr : option exr_part) (y : Z)
  : exr_chunk_block_info_t :=
  match hdr ≫= hdr_data_window, hdr ≫= hdr_scanlines_per_chunk with
  | Some dw, Some lines =>
      let miny := min_y dw + (y - min_y dw) `div` lines * lines in
      mkChunk (min_x dw) miny (max_x dw - min_x dw + 1)
        (Z.min lines (max_y dw - miny + 1))
  | _, _ => mkChunk 0 0 0 0
  end.

(** The tile ([tx], [ty]) of level [level]. *)
Definition tile_block (hdr : option exr_part) (tx ty level : Z)
  : exr_chunk_block_info_t :=
  match hdr ≫= hdr_data_window, hdr ≫= hdr_tile_descriptor,
        hdr ≫= (fun h => hdr_level_sizes h level) with
  | Some dw, Some (txsz, tysz, _, _), Some (levw, levh) =>
      mkChunk (min_x dw + tx * txsz) (min_y dw + ty * tysz)
        (Z.min txsz (levw - tx * txsz)) (Z.min tysz (levh - ty * tysz))
  | _, _, _ => mkChunk 0 0 0 0
  end.

(** [exr_decoding_initialize]: one channel record per channel of the
    file, in the file's order, bound to nothing yet. *)
Definition decoding_initialize (hdr : option exr_part)
  (cinfo : exr_chunk_block_info_t) : exr_decode_pipeline_t :=
  mkPipeline
    (map (fun e =>
            mkChannel (ChannelCatalog.name e)
              (TypeDesc_size
                 (TypeDesc_from_ImfPixelType (ChannelCatalog.pixel_type e)))
              NullPtr 0 0)
         (default [] (hdr ≫= hdr_channels)))
    cinfo.

(** [exr_decoding_update]: the same channels for the next chunk. *)
Definition decoding_update (cinfo : exr_chunk_block_info_t)
  (decoder : exr_decode_pipeline_t) : exr_decode_pipeline_t :=
  mkPipeline (channels decoder) cinfo.

(** The samples of one channel of the chunk, written at offset [p] of a
    buffer. *)
Definition write_samples (cinfo : exr_chunk_block_info_t)
  (ch : exr_coding_channel_info_t) (p : Z) (m : mem) : mem :=
  for_loop 0 (height cinfo)
    (fun j m =>
       for_loop 0 (width cinfo)
         (fun i m =>
            store_bytes (p + j * user_line_stride ch + i * user_pixel_stride ch)
              (bytes_per_element ch)
              (SampleByte (channel_name ch) (start_x cinfo + i) (start_y cinfo + j))
              m)
         m)
    m.

Definition decode_channel (cinfo : exr_chunk_block_info_t)
  (b : buffers) (ch : exr_coding_channel_info_t) : buffers :=
  match decode_to_ptr ch with
  | NullPtr => b
  | DataPtr p =>
      mkBuffers (write_samples cinfo ch p (data b)) (fullchunk b) (fullchunk_size b)
  | ScratchPtr p =>
      mkBuffers (data b) (write_samples cinfo ch p (fullchunk b)) (fullchunk_size b)
  end.

(** A successful [exr_decoding_run]. *)
Definition decoding_run (decoder : exr_decode_pipeline_t) (b : buffers) : buffers :=
  fold_left (decode_channel (chunk decoder)) (channels decoder) b.

(** The loop [for (int dc = 0; dc < decoder.channel_count; ++dc)] that
    looks for the channel named [cname]: the channels with the first match
    bound to [ptr], or [None] when no channel has that name. *)
Fixpoint bind_channel (cname : string) (ptr : pointer) (pixelstride linestride : Z)
  (chans : list exr_coding_channel_info_t)
  : option (list exr_coding_channel_info_t) :=
  match chans with
  | [] => None
  | curchan :: chans' =>
      if String.eqb cname (channel_name curchan)
      then Some (mkChannel (channel_name curchan) (bytes_per_element curchan)
                   ptr pixelstride linestride :: chans')
      else
        match bind_channel cname ptr pixelstride linestride chans' with
        | Some chans'' => Some (curchan :: chans'')
        | None => None
        end
  end.

(** The loop [for (int c = chbegin; c < chend; ++c)] that wires the
    requested channels to the buffer at [cdata]. *)
Definition bind_channels (spec : ImageSpec.t) (chbegin chend : Z)
  (cdata : pointer) (pixelbytes scanlinebytes : Z)
  (decoder : exr_decode_pipeline_t) : exr_decode_pipeline_t :=
  let body c (st : Z * list exr_coding_channel_info_t) :=
    let '(chanoffset, chans) := st in
    let chanbytes := TypeDesc_size (ImageSpec.channelformat spec c) in
    let cname := ImageSpec.channel_name spec c in
    match bind_channel cname (ptr_add cdata chanoffset) pixelbytes scanlinebytes
            chans with
    | Some chans' => (chanoffset + chanbytes, chans')
    | None => (chanoffset, chans)
    end in
  mkPipeline (snd (for_loop chbegin chend body (0, channels decoder)))
    (chunk decoder).

End Codec.

(** ** Reading scanlines and tiles *)

Module Reads.

Import Codec.

(** What the loop of [read_native_scanlines] carries from one chunk to
    the next; [calls] counts the pipeline calls made so far. *)
Record scan_state := mkScan {
  sc_y : Z;
  sc_nlines : Z;
  sc_linedata : Z;
  sc_first : bool;
  sc_decoder : exr_decode_pipeline_t;
  sc_rv : exr_result_t;
  sc_calls : nat;
  sc_buffers : buffers
}.

Section Scanlines.

Variable hdr : option exr_part.
Variable results : nat -> exr_result_t.
Variable spec : ImageSpec.t.
Variables ybegin yend chbegin chend : Z.
Variables scansperchunk pixelbytes scanlinebytes : Z.

(** One turn of the loop over the chunks, up to the increment
    [y += nlines]: [true] when the turn ends in [break]. *)
Definition scan_body (st : scan_state) : bool * scan_state :=
  let y := sc_y st in
  let linedata := sc_linedata st in
  let invalid := Z.rem (y - ImageSpec.y spec) scansperchunk in
  let '(cdata, nlines, y, bufs) :=
    if negb (invalid =? 0)
    then (ScratchPtr 0, scansperchunk - invalid, y - invalid,
          resize_fullchunk (scanlinebytes * scansperchunk) (sc_buffers st))
    else if (y + scansperchunk >? yend)
            && (y + scansperchunk <? ImageSpec.y spec + ImageSpec.height spec)
    then (ScratchPtr 0, yend - y, y,
          resize_fullchunk (scanlinebytes * scansperchunk) (sc_buffers st))
    else (DataPtr linedata, scansperchunk, y, sc_buffers st) in
  let calls := sc_calls st in
  let rv := results calls in
  let cinfo := scanline_block hdr y in
  let calls := S calls in
  if negb (succeeded rv)
  then (true, mkScan y nlines linedata (sc_first st) (sc_decoder st) rv calls bufs)
  else
    let rv := results calls in
    let decoder :=
      if negb (succeeded rv) then sc_decoder st
      else if sc_first st then decoding_initialize hdr cinfo
      else decoding_update cinfo (sc_decoder st) in
    let calls := S calls in
    if negb (succeeded rv)
    then (true, mkScan y nlines linedata (sc_first st) decoder rv calls bufs)
    else
      let decoder :=
        bind_channels spec chbegin chend cdata pixelbytes scanlinebytes decoder in
      let '(rv, calls) :=
        if sc_first st then (results calls, S calls) else (rv, calls) in
      if negb (succeeded rv)
      then (true, mkScan y nlines linedata (sc_first st) decoder rv calls bufs)
      else
        let rv := results calls in
        let calls := S calls in
        if negb (succeeded rv)
        then (true, mkScan y nlines linedata (sc_first st) decoder rv calls bufs)
        else
          let bufs := decoding_run decoder bufs in
          let '(y, nlines, bufs) :=
            if negb (ptr_eqb cdata (DataPtr linedata))
            then
              let y := y + invalid in
              let nlines := Z.min nlines (yend - y) in
              (y, nlines,
               memcpy_from_fullchunk linedata (invalid * scanlinebytes)
                 (nlines * scanlinebytes) bufs)
            else (y, nlines, bufs) in
          (false,
           mkScan y nlines (linedata + scanlinebytes * nlines) false decoder rv
             calls bufs).

(** [for (int y = ybegin; y < yend; y += nlines)]: the state when the
    loop is left, if it is left within [fuel] turns. *)
Fixpoint scan_loop (fuel : nat) (st : scan_state) : option scan_state :=
  if sc_y st <? yend
  then
    match fuel with
    | O => None
    | S fuel' =>
        match scan_body st with
        | (true, st') => Some st'
        | (false, st') =>
            scan_loop fuel'
              (mkScan (sc_y st' + sc_nlines st') (sc_nlines st') (sc_linedata st')
                 (sc_first st') (sc_decoder st') (sc_rv st') (sc_calls st')
                 (sc_buffers st'))
        end
    end
  else Some st.

End Scanlines.

(** The stage of the pipeline at which a tile failed. *)
Inductive tile_stage :=
  | StageBlockInfo
  | StageInitializeUpdate
  | StageChooseRoutines
  | StageRun.

(** What became of a tile: decoded, or failed at a stage, with the
    result of [check_fill_missing] for it. *)
Inductive tile_outcome :=
  | TileDecoded
  | TileFailed (stage : tile_stage) (filled : bool).

(** An entry of the record kept of the tiles visited: the tile's place in
    the request, the rectangle and the buffer offset given to
    [check_fill_missing] had it failed, and the outcome.  The record is
    not a variable of the source; it names what the loop did. *)
Record tile_event := mkEvent {
  ev_tx : Z;
  ev_ty : Z;
  ev_xbegin : Z; ev_xend : Z;
  ev_ybegin : Z; ev_yend : Z;
  ev_start : Z;
  ev_outcome : tile_outcome
}.

Record tile_state := mkTile {
  tl_first : bool;
  tl_decoder : exr_decode_pipeline_t;
  tl_retval : bool;
  tl_calls : nat;
  tl_data : mem;
  tl_log : list tile_event
}.

Section Tiles.

Variable r : Reader.t.
Variable hdr : option exr_part.
Variable results : nat -> exr_result_t.
Variable spec : ImageSpec.t.
Variables miplevel xbegin ybegin chbegin chend : Z.
Variables tilew tileh firstxtile firstytile pixelbytes scanlinebytes : Z.

(** The tile could not be read: [retval &= check_fill_missing(...);
    continue]. *)
Definition tile_failed (tx ty curtilestart : Z) (stage : tile_stage)
  (first : bool) (decoder : exr_decode_pipeline_t) (calls : nat)
  (st : tile_state) : tile_state :=
  let '(filled, m) :=
    Reader.check_fill_missing r
      (xbegin + tx * tilew) (xbegin + (tx + 1) * tilew)
      (ybegin + ty * tileh) (ybegin + (ty + 1) * tileh)
      chbegin chend curtilestart pixelbytes scanlinebytes (tl_data st) in
  mkTile first decoder (tl_retval st && filled) calls m
    (tl_log st ++
     [mkEvent tx ty (xbegin + tx * tilew) (xbegin + (tx + 1) * tilew)
        (ybegin + ty * tileh) (ybegin + (ty + 1) * tileh) curtilestart
        (TileFailed stage filled)]).

(** The body of the loop over the tiles of a row, for tile [tx] of row
    [ty] of the request. *)
Definition tile_body (ty tx : Z) (st : tile_state) : tile_state :=
  let curxtile := firstxtile + tx in
  let curytile := firstytile + ty in
  let tilesetdata := ty * tileh * scanlinebytes in
  let curtilestart := tilesetdata + tx * tilew * pixelbytes in
  let calls := tl_calls st in
  let rv := results calls in
  let cinfo := tile_block hdr curxtile curytile miplevel in
  let calls := S calls in
  if negb (succeeded rv)
  then tile_failed tx ty curtilestart StageBlockInfo
         (tl_first st) (tl_decoder st) calls st
  else
    let rv := results calls in
    let decoder :=
      if negb (succeeded rv) then tl_decoder st
      else if tl_first st then decoding_initialize hdr cinfo
      else decoding_update cinfo (tl_decoder st) in
    let calls := S calls in
    if negb (succeeded rv)
    then tile_failed tx ty curtilestart StageInitializeUpdate
           (tl_first st) decoder calls st
    else
      let decoder :=
        bind_channels spec chbegin chend (DataPtr curtilestart)
          pixelbytes scanlinebytes decoder in
      let '(rv, calls) :=
        if tl_first st then (results calls, S calls) else (rv, calls) in
      if negb (succeeded rv)
      then tile_failed tx ty curtilestart StageChooseRoutines
             (tl_first st) decoder calls st
      else
        let rv := results calls in
        let calls := S calls in
        if negb (succeeded rv)
        then tile_failed tx ty curtilestart StageRun false decoder calls st
        else
          mkTile false decoder (tl_retval st) calls
            (data (decoding_run decoder (mkBuffers (tl_data st) ∅ 0)))
            (tl_log st ++
             [mkEvent tx ty (xbegin + tx * tilew) (xbegin + (tx + 1) * tilew)
                (ybegin + ty * tileh) (ybegin + (ty + 1) * tileh) curtilestart
                TileDecoded]).

(** The two loops over the tiles of the request. *)
Definition tiles_loop (nxtiles nytiles : Z) (st : tile_state) : tile_state :=
  for_loop 0 nytiles
    (fun ty st => for_loop 0 nxtiles (fun tx st => tile_body ty tx st) st) st.

End Tiles.

Section WithLibraries.

Variable stdlib : StdSort.
Variable basetype_merge : TypeDesc -> TypeDesc -> TypeDesc.

(** [OpenEXRInput::read_native_scanlines] with a channel range: the
    result, the reader, the caller's buffer and the number of pipeline
    calls made.  Every turn of the loop moves [y] forward when
    [scansperchunk] is positive, so that [yend - ybegin] turns are enough;
    [None] stands for a loop that is not left within that many turns. *)
Definition read_native_scanlines (r : Reader.t) (results : nat -> exr_result_t)
  (subimage miplevel ybegin yend chbegin chend : Z) (buf : mem)
  : option (bool * Reader.t * mem * nat) :=
  match Reader.m_exr_context r with
  | None => Some (false, Reader.add_error r ErrNoOpenFile, buf, 0%nat)
  | Some _ =>
      let '(spec, r) := Reader.init_part stdlib basetype_merge r subimage miplevel in
      let chend := clamp chend (chbegin + 1) (ImageSpec.nchannels spec) in
      let pixelbytes := ImageSpec.pixel_bytes spec chbegin chend in
      let scanlinebytes := ImageSpec.width spec * pixelbytes in
      let hdr := exr_get_part (Reader.m_exr_context r) subimage in
      match hdr ≫= hdr_scanlines_per_chunk with
      | None => Some (false, r, buf, 0%nat)
      | Some scansperchunk =>
          match scan_loop hdr results spec yend chbegin chend scansperchunk
                  pixelbytes scanlinebytes (Z.to_nat (yend - ybegin))
                  (mkScan ybegin scansperchunk 0 true zero_pipeline
                     EXR_ERR_SUCCESS 0 (mkBuffers buf ∅ 0)) with
          | None => None
          | Some st =>
              Some (succeeded (sc_rv st), r, data (sc_buffers st), sc_calls st)
          end
      end
  end.

(** [OpenEXRInput::read_native_tiles] with a channel range: the result,
    the reader, the caller's buffer and the record of the tiles. *)
Definition read_native_tiles (r : Reader.t) (results : nat -> exr_result_t)
  (subimage miplevel xbegin xend ybegin yend zbegin zend chbegin chend : Z)
  (buf : mem) : bool * Reader.t * mem * list tile_event :=
  match Reader.m_exr_context r with
  | None => (false, Reader.add_error r ErrNoOpenFile, buf, [])
  | Some _ =>
      let '(spec, r) := Reader.init_part stdlib basetype_merge r subimage miplevel in
      let tilew := ImageSpec.tile_width spec in
      let tileh := ImageSpec.tile_height spec in
      let chend := clamp chend (chbegin + 1) (ImageSpec.nchannels spec) in
      let firstxtile := Z.quot (xbegin - ImageSpec.x spec) tilew in
      let firstytile := Z.quot (ybegin - ImageSpec.y spec) tileh in
      let pixelbytes := ImageSpec.pixel_bytes spec chbegin chend in
      let hdr := exr_get_part (Reader.m_exr_context r) subimage in
      match hdr ≫= (fun h => hdr_level_sizes h miplevel) with
      | None =>
          let '(filled, m) :=
            Reader.check_fill_missing r xbegin xend ybegin yend chbegin chend 0
              pixelbytes
              (tilew * pixelbytes * Z.quot (xend - xbegin + tilew - 1) tilew)
              buf in
          (filled, r, m, [])
      | Some (levw, levh) =>
          let xend := Z.min xend (ImageSpec.x spec + levw) in
          let yend := Z.min yend (ImageSpec.y spec + levh) in
          let nxtiles := Z.quot (xend - xbegin + tilew - 1) tilew in
          let nytiles := Z.quot (yend - ybegin + tileh - 1) tileh in
          let scanlinebytes := nxtiles * tilew * pixelbytes in
          let st :=
            tiles_loop r hdr results spec miplevel xbegin ybegin chbegin chend
              tilew tileh firstxtile firstytile pixelbytes scanlinebytes
              nxtiles nytiles
              (mkTile true zero_pipeline true 0 buf []) in
          (tl_retval st, r, tl_data st, tl_log st)
      end
  end.

End WithLibraries.

End Reads.
(** ** Attribute names and values of [parse_header] *)

Module Metadata.

(** [class StringMap]: the table of [exr_tag_to_oiio_std], filled by
    [init()] with one [m_map[key] = value] after the other. *)
Abbreviation map_t := (gmap string string).

Definition init_entries : list (string * string) :=
  [ ("cameraTransform", "worldtocamera");
    ("capDate", "DateTime");
    ("comments", "ImageDescription");
    ("owner", "Copyright");
    ("pixelAspectRatio", "PixelAspectRatio");
    ("xDensity", "XResolution");
    ("expTime", "ExposureTime");
    ("wrapmodes", "wrapmodes");
    ("aperture", "FNumber");
    ("version", "openexr:version");
    ("chunkCount", "openexr:chunkCount");
    ("maxSamplesPerPixel", "openexr:maxSamplesPerPixel");
    ("dwaCompressionLevel", "openexr:dwaCompressionLevel");
    ("channels", "");
    ("compression", "");
    ("dataWindow", "");
    ("displayWindow", "");
    ("envmap", "");
    ("tiledesc", "");
    ("tiles", "");
    ("openexr:lineOrder", "");
    ("type", "") ]%string.

Definition init : map_t :=
  fold_left (fun m kv => <[kv.1 := kv.2]> m) init_entries ∅.

(** [StringMap::operator[]]: the entry for [s], or [s] itself when the
    table has none. *)
Definition lookup_name (m : map_t) (s : string) : string :=
  match m !! s with
  | Some v => v
  | None => s
  end.

Definition exr_tag_to_oiio_std : string -> string := lookup_name init.

Section WithLibraries.

(** [gcd<long long>] is declared in OpenImageIO/fmath.h and is not part
    of the sources at hand; it is taken as a parameter. *)
Variable gcd : Z -> Z -> Z.

(** The [EXR_ATTR_RATIONAL] case: the two integers stored for the
    rational [n / d], [n] a 32-bit signed and [d] a 32-bit unsigned
    value, or [None] when nothing is stored.  The conversion of the
    divisor to [int] wraps around. *)
Definition rational_attribute (n d : Z) : option (Z * Z) :=
  if d <? 2 ^ 31 then Some (n, int32 d)
  else
    let f := int32 (gcd n d) in
    if 1 <? f then Some (Z.quot n f, int32 (Z.quot d f))
    else None.

End WithLibraries.

End Metadata.

(** * The ffmpeg pipe writer (FFMPEGPipeOutput)

    The first document of [src/ffmpeg.imageio/ffmpeg_pipe_output.cpp]:
    an image writer that sends raw scanlines to standard output for
    ffmpeg to read. *)

Module FFMPEGPipeOutput.

(** [TypeDesc::BASETYPE]. *)
Inductive BASETYPE :=
  | UNKNOWN | NONE | UINT8 | INT8 | UINT16 | INT16 | UINT32 | INT32
  | UINT64 | INT64 | HALF | FLOAT | DOUBLE | STRING | PTR.

Definition BASETYPE_eqb (a b : BASETYPE) : bool :=
  match a, b with
  | UNKNOWN, UNKNOWN | NONE, NONE | UINT8, UINT8 | INT8, INT8
  | UINT16, UINT16 | INT16, INT16 | UINT32, UINT32 | INT32, INT32
  | UINT64, UINT64 | INT64, INT64 | HALF, HALF | FLOAT, FLOAT
  | DOUBLE, DOUBLE | STRING, STRING | PTR, PTR => true
  | _, _ => false
  end.

(** The fields of the [ImageSpec] that the writer reads; [dither] is the
    "oiio:dither" attribute, if the spec has one. *)
Record spec_t := mkSpec {
  width : Z;
  height : Z;
  nchannels : Z;
  format : BASETYPE;
  dither : option Z
}.

(** [ImageSpec()]. *)
Definition default_spec : spec_t := mkSpec 0 0 0 UNKNOWN None.

(** The messages handed to [error]. *)
Inductive error_msg :=
  | ErrResolution (w h : Z)
  | ErrSeparate (name : string) (nparts : Z)
  | ErrNoTranslation (fmt : string)
  | ErrLogic
  | ErrNot8Bit
  | ErrNot16Bit
  | ErrChannels (chans nchannels : Z)
  | ErrUnknownStream (stream name : string).

(** The stream [m_obuf] points to. *)
Inductive ostream := Cout.

Record t := mk {
  m_spec : spec_t;
  m_obuf : option ostream;
  m_bytesperline : Z;
  m_dither : Z;
  m_chans : Z;
  m_bpp : Z;
  errors : list error_msg
}.

(** The writer as its constructor leaves it. *)
Definition new : t := mk default_spec None 0 0 0 1 [].

Definition error (o : t) (e : error_msg) : t :=
  mk (m_spec o) (m_obuf o) (m_bytesperline o) (m_dither o) (m_chans o)
     (m_bpp o) (errors o ++ [e]).

Definition set_spec (o : t) (s : spec_t) : t :=
  mk s (m_obuf o) (m_bytesperline o) (m_dither o) (m_chans o) (m_bpp o)
     (errors o).

Definition set_layout (o : t) (chans bpp : Z) : t :=
  mk (m_spec o) (m_obuf o) (m_bytesperline o) (m_dither o) chans bpp
     (errors o).

Definition set_bytesperline (o : t) (n : Z) : t :=
  mk (m_spec o) (m_obuf o) n (m_dither o) (m_chans o) (m_bpp o) (errors o).

Definition set_obuf (o : t) (s : option ostream) : t :=
  mk (m_spec o) s (m_bytesperline o) (m_dither o) (m_chans o) (m_bpp o)
     (errors o).

Definition set_dither (o : t) (d : Z) : t :=
  mk (m_spec o) (m_obuf o) (m_bytesperline o) d (m_chans o) (m_bpp o)
     (errors o).

(** [FFMPEGPipeOutput::supports]. *)
Definition supports (feature : string) : bool :=
  if String.eqb feature "alpha" then true
  else if String.eqb feature "non_filesystem_output" then true
  else false.

Section WithLibraries.

(** [Strutil::split(name, parts, ".")] is declared in
    OpenImageIO/strutil.h and is not part of the sources at hand; it is
    taken as a parameter. *)
Variable split : string -> list string.

(** [parts[0]] and [parts.back()]. *)
Definition front (parts : list string) : string := nth 0 parts EmptyString.
Definition back (parts : list string) : string := List.last parts EmptyString.

(** [FFMPEGPipeOutput::open].  The product of the width, the channels
    and the bytes per channel is computed in 32 bits. *)
Definition open (o : t) (name : string) (spec : spec_t) : bool * t :=
  let o := set_spec o spec in
  if (width (m_spec o) <? 1) || (height (m_spec o) <? 1)
  then (false, error o (ErrResolution (width (m_spec o)) (height (m_spec o))))
  else
    let parts := split name in
    let n := Z.of_nat (length parts) in
    if negb (n =? 2) && negb (n =? 4)
    then (false, error o (ErrSeparate name n))
    else
      let o := set_layout o 3 (-1) in
      let layout :=
        if String.eqb (front parts) "rgb24" || String.eqb (front parts) "rgb"
        then Some (set_layout o 3 1)
        else if String.eqb (front parts) "rgb48le"
        then Some (set_layout o 3 2)
        else if String.eqb (front parts) "rgba"
        then Some (set_layout o 4 1)
        else if String.eqb (front parts) "rgba64le"
        then Some (set_layout o 4 2)
        else None in
      match layout with
      | None => (false, error o (ErrNoTranslation (front parts)))
      | Some o =>
          if m_bpp o <? 0 then (false, error o ErrLogic)
          else if (m_bpp o =? 1)
                  && negb (BASETYPE_eqb (format (m_spec o)) UINT8)
          then (false, error o ErrNot8Bit)
          else if (m_bpp o =? 2)
                  && negb (BASETYPE_eqb (format (m_spec o)) UINT16)
          then (false, error o ErrNot16Bit)
          else if negb (nchannels (m_spec o) =? m_chans o)
          then (false, error o (ErrChannels (m_chans o) (nchannels (m_spec o))))
          else
            let o :=
              set_bytesperline o
                (int32 (int32 (width (m_spec o) * m_chans o) * m_bpp o)) in
            if String.eqb (back parts) "stdout"
            then
              let o := set_obuf o (Some Cout) in
              let o :=
                set_dither o
                  (if BASETYPE_eqb (format (m_spec o)) UINT8
                   then default 0 (dither (m_spec o)) mod 2 ^ 32
                   else 0) in
              (true, o)
            else (false, error o (ErrUnknownStream (back parts) name))
      end.

End WithLibraries.

(** [FFMPEGPipeOutput::close]. *)
Definition close (o : t) : bool * t :=
  (true, set_dither (set_obuf (set_bytesperline o 0) None) 0).

End FFMPEGPipeOutput.

(** ** The reader's remaining entry points *)

Module Queries.

Section WithLibraries.

Variable stdlib : StdSort.
Variable basetype_merge : TypeDesc -> TypeDesc -> TypeDesc.

(** [OpenEXRInput::spec]: the spec returned, and the reader.  [ret] is
    the default-constructed spec. *)
Definition spec (r : Reader.t) (subimage miplevel : Z)
  : ImageSpec.t * Reader.t :=
  let ret := ImageSpec.default in
  if (subimage <? 0) || (Reader.m_nsubimages r <=? subimage) then (ret, r)
  else
    let '(ok, r) :=
      if PartInfo.initialized (Reader.part_at r subimage) then (true, r)
      else Reader.seek_subimage stdlib basetype_merge r subimage miplevel in
    if negb ok then (ret, r)
    else
      let part := Reader.part_at r subimage in
      if (miplevel <? 0) || (PartInfo.nmiplevels part <=? miplevel)
      then (ret, r)
      else (PartInfo.compute_mipres part miplevel (PartInfo.spec part), r).

(** [ImageSpec::copy_dimensions] is declared in OpenImageIO/imageio.h and
    is not part of the sources at hand; it is taken as a parameter:
    [copy_dimensions ret other] is [ret] after
    [ret.copy_dimensions(other)]. *)
Variable copy_dimensions : ImageSpec.t -> ImageSpec.t -> ImageSpec.t.

(** [OpenEXRInput::spec_dimensions]. *)
Definition spec_dimensions (r : Reader.t) (subimage miplevel : Z)
  : ImageSpec.t * Reader.t :=
  let ret := ImageSpec.default in
  if (subimage <? 0) || (Reader.m_nsubimages r <=? subimage) then (ret, r)
  else
    let '(ok, r) :=
      if PartInfo.initialized (Reader.part_at r subimage) then (true, r)
      else Reader.seek_subimage stdlib basetype_merge r subimage miplevel in
    if negb ok then (ret, r)
    else
      let part := Reader.part_at r subimage in
      if (miplevel <? 0) || (PartInfo.nmiplevels part <=? miplevel)
      then (ret, r)
      else
        (PartInfo.compute_mipres part miplevel
           (copy_dimensions ret (PartInfo.spec part)), r).

End WithLibraries.

End Queries.

(** ** Reads of one scanline, of one tile, and of all channels *)

Module ReadCalls.

Import Codec.

Section WithLibraries.

Variable stdlib : StdSort.
Variable basetype_merge : TypeDesc -> TypeDesc -> TypeDesc.

(** [OpenEXRInput::read_native_scanline]. *)
Definition read_native_scanline (r : Reader.t) (results : nat -> exr_result_t)
  (subimage miplevel y z : Z) (buf : mem)
  : option (bool * Reader.t * mem * nat) :=
  match Reader.m_exr_context r with
  | None => Some (false, Reader.add_error r ErrNoOpenFile, buf, 0%nat)
  | Some _ =>
      let '(spec, r) := Reader.init_part stdlib basetype_merge r subimage miplevel in
      Reads.read_native_scanlines stdlib basetype_merge r results subimage
        miplevel y (y + 1) 0 (ImageSpec.nchannels spec) buf
  end.

(** [OpenEXRInput::read_native_scanlines] without a channel range. *)
Definition read_native_scanlines (r : Reader.t) (results : nat -> exr_result_t)
  (subimage miplevel ybegin yend z : Z) (buf : mem)
  : option (bool * Reader.t * mem * nat) :=
  match Reader.m_exr_context r with
  | None => Some (false, Reader.add_error r ErrNoOpenFile, buf, 0%nat)
  | Some _ =>
      let '(spec, r) := Reader.init_part stdlib basetype_merge r subimage miplevel in
      Reads.read_native_scanlines stdlib basetype_merge r results subimage
        miplevel ybegin yend 0 (ImageSpec.nchannels spec) buf
  end.

(** [OpenEXRInput::read_native_tiles] without a channel range. *)
Definition read_native_tiles (r : Reader.t) (results : nat -> exr_result_t)
  (subimage miplevel xbegin xend ybegin yend zbegin zend : Z) (buf : mem)
  : bool * Reader.t * mem * list Reads.tile_event :=
  match Reader.m_exr_context r with
  | None => (false, Reader.add_error r ErrNoOpenFile, buf, [])
  | Some _ =>
      let '(spec, r) := Reader.init_part stdlib basetype_merge r subimage miplevel in
      Reads.read_native_tiles stdlib basetype_merge r results subimage
        miplevel xbegin xend ybegin yend zbegin zend 0
        (ImageSpec.nchannels spec) buf
  end.

(** [OpenEXRInput::read_native_tile]: the result, the reader, the
    caller's buffer and the number of pipeline calls made.  The four
    calls of the pipeline draw their results from [results] in the order
    in which they are made.  In a part without tiles the divisions by
    [tilew] and [tileh] are undefined in C++; here they give 0, and the
    theorems ask for tile sizes that are not 0. *)
Definition read_native_tile (r : Reader.t) (results : nat -> exr_result_t)
  (subimage miplevel x y z : Z) (buf : mem) : bool * Reader.t * mem * nat :=
  match Reader.m_exr_context r with
  | None => (false, Reader.add_error r ErrNoOpenFile, buf, 0%nat)
  | Some _ =>
      let '(spec, r) := Reader.init_part stdlib basetype_merge r subimage miplevel in
      let tilew := ImageSpec.tile_width spec in
      let tileh := ImageSpec.tile_height spec in
      let pixelbytes := ImageSpec.pixel_bytes spec 0 (ImageSpec.nchannels spec) in
      let scanlinebytes := tilew * pixelbytes in
      let tx := Z.quot (x - ImageSpec.x spec) tilew in
      let ty := Z.quot (y - ImageSpec.y spec) tileh in
      let hdr := exr_get_part (Reader.m_exr_context r) subimage in
      match hdr ≫= (fun h => hdr_level_sizes h miplevel) with
      | None =>
          let '(filled, m) :=
            Reader.check_fill_missing r x (x + tilew) y (y + tileh)
              0 (ImageSpec.nchannels spec) 0 pixelbytes scanlinebytes buf in
          (filled, r, m, 0%nat)
      | Some (levw, levh) =>
          let fill (calls : nat) :=
            let '(filled, m) :=
              Reader.check_fill_missing r x (Z.min levw (x + tilew))
                y (Z.min levh (y + tileh))
                0 (ImageSpec.nchannels spec) 0 pixelbytes scanlinebytes buf in
            (filled, r, m, calls) in
          let cinfo := tile_block hdr tx ty miplevel in
          if negb (succeeded (results 0%nat)) then fill 1%nat
          else if negb (succeeded (results 1%nat)) then fill 2%nat
          else
            let decoder :=
              bind_channels spec 0 (ImageSpec.nchannels spec) (DataPtr 0)
                pixelbytes scanlinebytes (decoding_initialize hdr cinfo) in
            if negb (succeeded (results 2%nat)) then fill 3%nat
            else if negb (succeeded (results 3%nat)) then fill 4%nat
            else
              (true, r, data (decoding_run decoder (mkBuffers buf ∅ 0)), 4%nat)
      end
  end.

End WithLibraries.

End ReadCalls.


(** * Properties *)

(** ** String order *)

Module StrFacts.

Lemma ascii_compare_refl a : Ascii.compare a a = Eq.
Proof. unfold Ascii.compare. apply N.compare_refl. Qed.

Lemma compare_refl s : String.compare s s = Eq.
Proof.
  induction s as [|a s IH]; simpl; [reflexivity|].
  now rewrite ascii_compare_refl.
Qed.

Lemma ascii_compare_lt_trans a b c :
  Ascii.compare a b = Lt -> Ascii.compare b c = Lt -> Ascii.compare a c = Lt.
Proof.
  unfold Ascii.compare. rewrite !N.compare_lt_iff. lia.
Qed.

Lemma compare_lt_trans s1 : forall s2 s3,
  String.compare s1 s2 = Lt -> String.compare s2 s3 = Lt ->
  String.compare s1 s3 = Lt.
Proof.
  induction s1 as [|a s1 IH]; intros [|b s2] [|c s3]; simpl; try congruence.
  destruct (Ascii.compare a b) eqn:Hab; try congruence;
    destruct (Ascii.compare b c) eqn:Hbc; try congruence; intros H1 H2.
  - apply Ascii.compare_eq_iff in Hab, Hbc. subst.
    rewrite ascii_compare_refl. eauto.
  - apply Ascii.compare_eq_iff in Hab. subst. now rewrite Hbc.
  - apply Ascii.compare_eq_iff in Hbc. subst. now rewrite Hab.
  - now rewrite (ascii_compare_lt_trans _ _ _ Hab Hbc).
Qed.

Lemma lt_irrefl s : Str.lt s s = false.
Proof. unfold Str.lt, String.ltb. now rewrite compare_refl. Qed.

Lemma lt_trans a b c :
  Str.lt a b = true -> Str.lt b c = true -> Str.lt a c = true.
Proof.
  unfold Str.lt, String.ltb.
  destruct (String.compare a b) eqn:H1; try discriminate.
  destruct (String.compare b c) eqn:H2; try discriminate.
  now rewrite (compare_lt_trans _ _ _ H1 H2).
Qed.

(** Two strings neither of which is below the other are equal. *)
Lemma lt_incomparable a b :
  Str.lt a b = false -> Str.lt b a = false -> a = b.
Proof.
  unfold Str.lt, String.ltb. rewrite (String.compare_antisym b a).
  destruct (String.compare a b) eqn:H; simpl; try discriminate.
  intros _ _. now apply String.compare_eq_iff.
Qed.

Lemma lt_asym a b : Str.lt a b = true -> Str.lt b a = false.
Proof.
  unfold Str.lt, String.ltb. rewrite (String.compare_antisym b a).
  now destruct (String.compare a b).
Qed.

Lemma eq_spec a b : Str.eq a b = true <-> a = b.
Proof. apply String.eqb_eq. Qed.

End StrFacts.

(** ** Two implementations of the [std::sort] contract *)

Module SortImpl.

Section Insertion.

Context {A : Type} (comp : A -> A -> bool).

(** Insert [a] before the first element that is not below it. *)
Fixpoint insert (a : A) (l : list A) : list A :=
  match l with
  | [] => [a]
  | b :: l' => if comp b a then b :: insert a l' else a :: b :: l'
  end.

Fixpoint isort (l : list A) : list A :=
  match l with
  | [] => []
  | a :: l' => insert a (isort l')
  end.

Lemma insert_perm a l : Permutation (a :: l) (insert a l).
Proof.
  induction l as [|b l IH]; simpl; [reflexivity|].
  destruct (comp b a); [|reflexivity].
  rewrite perm_swap. now constructor.
Qed.

Lemma isort_perm l : Permutation l (isort l).
Proof.
  induction l as [|a l IH]; simpl; [constructor|].
  rewrite <- insert_perm. now constructor.
Qed.

Hypothesis Hswo : StrictWeakOrder comp.

Lemma swo_asym a b : comp a b = true -> comp b a = false.
Proof.
  intros Hab. destruct (comp b a) eqn:Hba; [|reflexivity].
  pose proof (swo_trans comp Hswo _ _ _ Hab Hba) as Haa.
  now rewrite (swo_irrefl comp Hswo) in Haa.
Qed.

(** "Not below" is transitive. *)
Lemma swo_neg_trans a b c :
  comp b a = false -> comp c b = false -> comp c a = false.
Proof.
  intros Hba Hcb.
  destruct (comp c a) eqn:Hca; [|reflexivity].
  destruct (comp a b) eqn:Hab.
  { now rewrite (swo_trans comp Hswo _ _ _ Hca Hab) in Hcb. }
  destruct (comp b c) eqn:Hbc.
  { now rewrite (swo_trans comp Hswo _ _ _ Hbc Hca) in Hba. }
  destruct (swo_incomp comp Hswo c b a Hcb Hbc Hba Hab) as [H _].
  congruence.
Qed.

Lemma insert_sorted a l : sorted_by comp l -> sorted_by comp (insert a l).
Proof.
  unfold sorted_by.
  induction l as [|b l IH]; simpl; intros Hs.
  - repeat constructor.
  - apply StronglySorted_inv in Hs as [Hs Hb].
    destruct (comp b a) eqn:Hba.
    + constructor; [now apply IH|].
      rewrite <- insert_perm. constructor; [|assumption].
      now apply swo_asym.
    + constructor; [now constructor|].
      constructor; [assumption|].
      eapply Forall_impl; [exact Hb|]. simpl. intros c Hcb.
      eapply swo_neg_trans; eassumption.
Qed.

Lemma isort_sorted l : sorted_by comp (isort l).
Proof.
  induction l as [|a l IH]; simpl; [constructor|].
  now apply insert_sorted.
Qed.

End Insertion.

(** Insertion sort, which keeps equivalent elements in their order. *)
Definition insertion_sort : StdSort :=
  {| std_sort := fun A comp l => isort comp l;
     std_sort_perm := fun A comp l => isort_perm comp l;
     std_sort_sorted := fun A comp l H => isort_sorted comp H l |}.


End SortImpl.

(** ** Channel catalog *)

Module CatalogFacts.

Import ChannelCatalog.



(** [emplace_all] numbers the channels by their place in the file's list
    and gives each the sentinel special index. *)
Lemma emplace_all_lookup entries i c :
  emplace_all entries !! i = Some c ->
  exists e, entries !! i = Some e /\ c = ChanNameHolder_new (Z.of_nat i) e.
Proof.
  unfold emplace_all. rewrite list_lookup_imap.
  destruct (entries !! i) as [e|]; simpl; [|discriminate].
  intros [= <-]. eauto.
Qed.

Lemma ChanNameHolder_new_special n e :
  special_index (ChanNameHolder_new n e) = 10000.
Proof. unfold ChanNameHolder_new. now destruct (split_name (name e)). Qed.

Lemma ChanNameHolder_new_number n e :
  exr_channel_number (ChanNameHolder_new n e) = n.
Proof. unfold ChanNameHolder_new. now destruct (split_name (name e)). Qed.

Lemma emplace_all_special entries :
  Forall (fun c => special_index c = 10000) (emplace_all entries).
Proof.
  apply Forall_lookup. intros i c Hc.
  apply emplace_all_lookup in Hc as (e & _ & ->).
  apply ChanNameHolder_new_special.
Qed.




(** *** Special indices (C5) *)

(** [i] is the position of the first case-insensitive match of [sfx] in
    [table]. *)
Definition first_match_at (table : list string) (sfx : string) (i : Z) : Prop :=
  0 <= i
  /\ (exists s, table !! Z.to_nat i = Some s /\ Str.iequals sfx s = true)
  /\ (forall j s, (j < Z.to_nat i)%nat -> table !! j = Some s ->
                  Str.iequals sfx s = false).

Definition no_match (table : list string) (sfx : string) : Prop :=
  forall s, In s table -> Str.iequals sfx s = false.

(** The special index the specification assigns to suffix [sfx] from
    [table]: the position of the first match, the sentinel when there is
    none. *)
Definition index_from (table : list string) (sfx : string) (idx : Z) : Prop :=
  first_match_at table sfx idx \/ (no_match table sfx /\ idx = 10000).

(** The group contains suffix "X" and at least one of "Y", "Z". *)
Definition has_xyz (group : list ChanNameHolder) : Prop :=
  (exists c, In c group /\ Str.iequals "X" (suffix c) = true)
  /\ ((exists c, In c group /\ Str.iequals "Y" (suffix c) = true)
      \/ (exists c, In c group /\ Str.iequals "Z" (suffix c) = true)).

(** The table that applies to a group. *)
Definition group_table (group : list ChanNameHolder) : list string -> Prop :=
  fun table =>
    (has_xyz group /\ table =
       ["R"; "Red"; "G"; "Green"; "B"; "Blue"; "X"; "Y"; "Z"; "real"; "imag";
        "A"; "Alpha"; "AR"; "RA"; "AG"; "GA"; "AB"; "BA"; "Depth"; "Zback"]%string)
    \/ (~ has_xyz group /\ table =
       ["R"; "Red"; "G"; "Green"; "B"; "Blue"; "Y"; "real"; "imag";
        "A"; "Alpha"; "AR"; "RA"; "AG"; "GA"; "AB"; "BA"; "Z"; "Depth";
        "Zback"]%string).

(** [groups] are the contiguous same-layer groups of [cnh]: maximal runs
    of channels with one layer key. *)
Inductive layer_groups : list ChanNameHolder -> list (list ChanNameHolder) -> Prop :=
  | layer_groups_nil : layer_groups [] []
  | layer_groups_cons b span post groups :
      Forall (fun c => layer c = layer b) span ->
      (forall c, head post = Some c -> layer c <> layer b) ->
      layer_groups post groups ->
      layer_groups (b :: span ++ post) ((b :: span) :: groups).

(** [c'] is channel [c] with the special index that the table of its
    group gives to its suffix. *)
Definition indexed_in (group : list ChanNameHolder) (c c' : ChanNameHolder) : Prop :=
  c' = set_special_index c (special_index c')
  /\ exists table, group_table group table
       /\ index_from table (suffix c) (special_index c').

Lemma special_loop_none sfx table i :
  special_loop sfx table i = None -> no_match table sfx.
Proof.
  revert i. induction table as [|s table IH]; simpl; intros i H.
  - intros s [].
  - destruct (Str.iequals sfx s) eqn:Hs; [discriminate|].
    intros s' [<-|Hin]; [assumption|]. eapply IH; eauto.
Qed.

Lemma special_loop_some sfx table i k :
  special_loop sfx table i = Some k ->
  first_match_at table sfx (k - i).
Proof.
  unfold first_match_at.
  revert i. induction table as [|s table IH]; simpl; intros i H; [discriminate|].
  destruct (Str.iequals sfx s) eqn:Hs.
  - injection H as <-. replace (i - i) with 0 by lia.
    split; [lia|]. split; [exists s; auto|]. intros j s' Hj. simpl in Hj. lia.
  - apply IH in H as (Hk & (s' & Hs' & Hm) & Hfirst).
    replace (Z.to_nat (k - i)) with (S (Z.to_nat (k - (i + 1)))) by lia.
    split; [lia|]. split; [exists s'; auto|].
    intros [|j] s'' Hj Hl; simpl in Hl.
    + now injection Hl as <-.
    + eapply Hfirst; [|exact Hl]. lia.
Qed.

Lemma set_special_index_same c :
  c = set_special_index c (special_index c).
Proof. now destruct c. Qed.

Lemma compute_special_index_spec c :
  special_index c = 10000 ->
  compute_special_index c
    = set_special_index c (special_index (compute_special_index c))
  /\ index_from special (suffix c) (special_index (compute_special_index c)).
Proof.
  intros H0. unfold compute_special_index, index_from.
  destruct (special_loop (suffix c) special 0) as [k|] eqn:Hl.
  - split; [reflexivity|]. left. apply special_loop_some in Hl.
    now replace (k - 0) with k in Hl by lia.
  - split; [apply set_special_index_same|]. right.
    split; [eapply special_loop_none; eauto|assumption].
Qed.

Lemma compute_special_index_xyz_spec c :
  special_index c = 10000 ->
  compute_special_index_xyz c
    = set_special_index c (special_index (compute_special_index_xyz c))
  /\ index_from special_xyz (suffix c) (special_index (compute_special_index_xyz c)).
Proof.
  intros H0. unfold compute_special_index_xyz, index_from.
  destruct (special_loop (suffix c) special_xyz 0) as [k|] eqn:Hl.
  - split; [reflexivity|]. left. apply special_loop_some in Hl.
    now replace (k - 0) with k in Hl by lia.
  - split; [apply set_special_index_same|]. right.
    split; [eapply special_loop_none; eauto|assumption].
Qed.

Lemma suffixfound_spec nm chans :
  suffixfound nm chans = true
  <-> exists c, In c chans /\ Str.iequals nm (suffix c) = true.
Proof.
  induction chans as [|c chans IH]; simpl.
  - split; [discriminate|]. now intros (c & [] & _).
  - destruct (Str.iequals nm (suffix c)) eqn:Hc.
    + split; [|reflexivity]. intros _. exists c. auto.
    + rewrite IH. split.
      * intros (c' & Hin & Hm). exists c'. auto.
      * intros (c' & [<-|Hin] & Hm); [congruence|]. exists c'. auto.
Qed.

Lemma has_xyz_spec group :
  suffixfound "X" group && (suffixfound "Y" group || suffixfound "Z" group) = true
  <-> has_xyz group.
Proof.
  unfold has_xyz.
  rewrite andb_true_iff, orb_true_iff, !suffixfound_spec. reflexivity.
Qed.

Lemma layer_special_spec group :
  Forall (fun c => special_index c = 10000) group ->
  Forall2 (indexed_in group) group (layer_special group).
Proof.
  intros H0. unfold layer_special.
  destruct (suffixfound "X" group && (suffixfound "Y" group || suffixfound "Z" group))
    eqn:Hx.
  - apply has_xyz_spec in Hx.
    apply Forall2_fmap_r, Forall_Forall2_diag.
    eapply Forall_impl; [exact H0|]. intros c Hc.
    destruct (compute_special_index_xyz_spec c Hc) as [H1 H2].
    split; [exact H1|]. exists special_xyz. split; [|exact H2].
    left. split; [exact Hx|reflexivity].
  - assert (~ has_xyz group) as Hn.
    { intros Hh. apply has_xyz_spec in Hh. congruence. }
    apply Forall2_fmap_r, Forall_Forall2_diag.
    eapply Forall_impl; [exact H0|]. intros c Hc.
    destruct (compute_special_index_spec c Hc) as [H1 H2].
    split; [exact H1|]. exists special. split; [|exact H2].
    right. split; [exact Hn|reflexivity].
Qed.

Lemma layer_scan_spec b rest :
  forall span post, layer_scan b rest = (span, post) ->
  rest = span ++ post
  /\ Forall (fun c => layer c = layer b) span
  /\ (forall c, head post = Some c -> layer c <> layer b).
Proof.
  induction rest as [|c rest IH]; simpl; intros span post H.
  - injection H as <- <-. repeat split; [constructor|discriminate].
  - destruct (Str.eq (layer b) (layer c)) eqn:Hc.
    + destruct (layer_scan b rest) as [span' post'] eqn:Hs.
      injection H as <- <-.
      destruct (IH _ _ eq_refl) as (-> & Hall & Hpost).
      apply StrFacts.eq_spec in Hc.
      repeat split; auto.
    + injection H as <- <-. repeat split; [constructor|].
      simpl. intros c' [= <-] Heq.
      symmetry in Heq. apply StrFacts.eq_spec in Heq. congruence.
Qed.

Lemma layers_loop_spec (stdlib : StdSort) fuel : forall cnh,
  (length cnh <= fuel)%nat ->
  Forall (fun c => special_index c = 10000) cnh ->
  exists groups indexed,
    layer_groups cnh groups
    /\ Forall2 (fun group group' => Forall2 (indexed_in group) group group')
         groups indexed
    /\ layers_loop stdlib fuel cnh
       = concat (map (std_sort stdlib compare_cnh) indexed).
Proof.
  induction fuel as [|fuel IH]; intros cnh Hlen H0.
  - destruct cnh; [|simpl in Hlen; lia].
    exists [], []. repeat split; constructor.
  - destruct cnh as [|b rest].
    { exists [], []. repeat split; constructor. }
    simpl. destruct (layer_scan b rest) as [span post] eqn:Hs.
    destruct (layer_scan_spec _ _ _ _ Hs) as (-> & Hall & Hpost).
    apply Forall_cons in H0 as [Hb H0]. apply Forall_app in H0 as [Hsp Hpo].
    destruct (IH post) as (groups & indexed & Hg & Hi & Heq).
    { simpl in Hlen. rewrite length_app in Hlen. lia. }
    { exact Hpo. }
    exists ((b :: span) :: groups), (layer_special (b :: span) :: indexed).
    split; [now constructor|]. split.
    + constructor; [|exact Hi]. apply layer_special_spec. now constructor.
    + simpl. now rewrite Heq.
Qed.

(** C5: the per-layer loop of [query_channels] works on the contiguous
    same-layer groups of the layer-sorted channel list.  Within a group
    that contains suffix "X" and at least one of "Y", "Z" (compared without
    regard to case) every channel gets as special index the position of
    the first case-insensitive match of its suffix in the table that lists
    X, Y, Z after Blue; within any other group the position in the usual
    table; a suffix that matches nothing keeps 10000.  Each group is then
    sorted on its own and the groups stay in their order. *)
Theorem special_index_by_group
  (stdlib : StdSort) (entries : list exr_attr_chlist_entry_t) :
  exists groups indexed,
    layer_groups (layer_pass stdlib (emplace_all entries)) groups
    /\ Forall2 (fun group group' => Forall2 (indexed_in group) group group')
         groups indexed
    /\ canonical_order stdlib entries
       = concat (map (std_sort stdlib compare_cnh) indexed).
Proof.
  unfold canonical_order. apply layers_loop_spec; [lia|].
  eapply Permutation_Forall; [apply std_sort_perm|].
  apply emplace_all_special.
Qed.

End CatalogFacts.

(** ** Mip levels (C6) *)

Module MipFacts.

(** One halving step as the specification words it: floor of half the
    size when rounding down, ceiling of it (computed as [(w+1)/2]) when
    rounding up, and never less than 1. *)
Definition halve (rm : exr_tile_round_mode_t) (w : Z) : Z :=
  Z.max 1 match rm with
          | EXR_TILE_ROUND_DOWN => w / 2
          | _ => (w + 1) / 2
          end.

(** [(w+1)/2] is the ceiling of [w/2]: the least integer whose double is
    not below [w]. *)
Lemma ceil_half w : w <= 2 * ((w + 1) / 2) < w + 2.
Proof.
  pose proof (Z.div_mod (w + 1) 2 ltac:(lia)).
  pose proof (Z.mod_pos_bound (w + 1) 2 ltac:(lia)). lia.
Qed.

Lemma floor_half w : 2 * (w / 2) <= w < 2 * (w / 2) + 2.
Proof.
  pose proof (Z.div_mod w 2 ltac:(lia)).
  pose proof (Z.mod_pos_bound w 2 ltac:(lia)). lia.
Qed.

(** The size at level [n]. *)
Definition level_size (rm : exr_tile_round_mode_t) (n : nat) (top : Z) : Z :=
  Nat.iter n (halve rm) top.

Definition in_int32 (v : Z) : Prop := - 2 ^ 31 <= v < 2 ^ 31.

Lemma int32_id v : in_int32 v -> int32 v = v.
Proof.
  unfold in_int32, int32. intros H.
  rewrite Z.mod_small; lia.
Qed.

Lemma quot_clamp w : Z.max 1 (Z.quot w 2) = Z.max 1 (w / 2).
Proof.
  destruct (Z_le_gt_dec 0 w) as [Hw|Hw].
  - now rewrite Z.quot_div_nonneg by lia.
  - pose proof (Z.quot_opp_l (- w) 2 ltac:(lia)) as Hq.
    replace (- - w) with w in Hq by lia.
    pose proof (Z.quot_pos (- w) 2 ltac:(lia) ltac:(lia)).
    pose proof (floor_half w). lia.
Qed.

Lemma halve_range rm w : 1 <= halve rm w.
Proof. unfold halve. lia. Qed.

Lemma halve_bound rm w : 1 <= w -> halve rm w <= w.
Proof.
  unfold halve. intros Hw.
  pose proof (floor_half w). pose proof (ceil_half w).
  destruct rm; lia.
Qed.

(** One turn of the loop computes [halve] on either dimension. *)
Lemma mip_step rm w :
  rm <> EXR_TILE_ROUND_LAST_TYPE ->
  in_int32 w -> (rm = EXR_TILE_ROUND_UP -> w < 2 ^ 31 - 1) ->
  Z.max 1 match rm with
          | EXR_TILE_ROUND_DOWN => Z.quot w 2
          | _ => Z.quot (int32 (w + 1)) 2
          end = halve rm w.
Proof.
  intros Hrm Hw Hup. unfold halve. destruct rm; try congruence.
  - apply quot_clamp.
  - specialize (Hup eq_refl).
    rewrite int32_id by (unfold in_int32 in *; lia). apply quot_clamp.
Qed.

Lemma mip_loop_spec rm n : forall w h,
  rm <> EXR_TILE_ROUND_LAST_TYPE ->
  in_int32 w -> in_int32 h ->
  (rm = EXR_TILE_ROUND_UP -> w < 2 ^ 31 - 1 /\ h < 2 ^ 31 - 1) ->
  PartInfo.mip_loop rm n w h = (level_size rm n w, level_size rm n h).
Proof.
  unfold level_size.
  induction n as [|n IH]; intros w h Hrm Hw Hh Hup; [reflexivity|].
  rewrite !Nat.iter_succ_r. simpl.
  assert (Z.max 1 match rm with
                  | EXR_TILE_ROUND_DOWN => Z.quot w 2
                  | _ => Z.quot (int32 (w + 1)) 2
                  end = halve rm w) as Ew by (apply mip_step; tauto).
  assert (Z.max 1 match rm with
                  | EXR_TILE_ROUND_DOWN => Z.quot h 2
                  | _ => Z.quot (int32 (h + 1)) 2
                  end = halve rm h) as Eh by (apply mip_step; tauto).
  assert (forall v, in_int32 v -> in_int32 (halve rm v)
                    /\ halve rm v < 2 ^ 31 - 1) as Hrange.
  { intros v Hv. unfold in_int32 in *. unfold halve.
    pose proof (floor_half v). pose proof (ceil_half v).
    destruct rm; lia. }
  destruct rm; try congruence; simpl in *; rewrite Ew, Eh;
    apply IH; try congruence; try (apply Hrange; assumption);
    intros _; split; apply Hrange; assumption.
Qed.

(** C6: in mipmap level mode the dimensions of level [miplevel] are the
    top width and height halved [miplevel] times, each step taking the
    floor of half the size when the rounding mode is down and the ceiling
    (as [(w+1)/2]) when it is up, both then clamped to at least 1.  The
    sizes are 32-bit values; when rounding up, the top sizes are below
    the largest 32-bit value, so that [w+1] is computed exactly. *)
Theorem compute_mipres_halves
  (part : PartInfo.t) (miplevel : Z) (sp : ImageSpec.t) :
  PartInfo.levelmode part = EXR_TILE_MIPMAP_LEVELS ->
  PartInfo.roundingmode part <> EXR_TILE_ROUND_LAST_TYPE ->
  0 <= miplevel < 2 ^ 31 ->
  in_int32 (PartInfo.topwidth part) -> in_int32 (PartInfo.topheight part) ->
  (PartInfo.roundingmode part = EXR_TILE_ROUND_UP ->
   PartInfo.topwidth part < 2 ^ 31 - 1 /\ PartInfo.topheight part < 2 ^ 31 - 1) ->
  let sp' := PartInfo.compute_mipres part miplevel sp in
  ImageSpec.width sp'
    = level_size (PartInfo.roundingmode part) (Z.to_nat miplevel)
        (PartInfo.topwidth part)
  /\ ImageSpec.height sp'
    = level_size (PartInfo.roundingmode part) (Z.to_nat miplevel)
        (PartInfo.topheight part).
Proof.
  intros Hlm Hrm Hm Hw Hh Hup. unfold PartInfo.compute_mipres.
  rewrite Hlm. rewrite (Z.mod_small miplevel) by lia.
  rewrite mip_loop_spec by assumption.
  destruct (miplevel =? 0), (PartInfo.cubeface part); simpl; auto.
Qed.

(** A part in mipmap mode with the given top size and rounding mode. *)
Definition mipmap_part (w h : Z) (rm : exr_tile_round_mode_t) : PartInfo.t :=
  PartInfo.set_top
    (PartInfo.set_levels PartInfo.new EXR_TILE_MIPMAP_LEVELS rm 8) w h.

Definition level_dims (w h : Z) (rm : exr_tile_round_mode_t) (miplevel : Z)
  : Z * Z :=
  let sp := PartInfo.compute_mipres (mipmap_part w h rm) miplevel
              ImageSpec.default in
  (ImageSpec.width sp, ImageSpec.height sp).

(** The figures of the specification: 100x100 rounding down gives 50x50,
    25x25 and, at level 7, 1x1; 3x3 rounding up gives 2x2, then 1x1. *)
Example mip_levels_of_100 :
  level_dims 100 100 EXR_TILE_ROUND_DOWN 1 = (50, 50)
  /\ level_dims 100 100 EXR_TILE_ROUND_DOWN 2 = (25, 25)
  /\ level_dims 100 100 EXR_TILE_ROUND_DOWN 7 = (1, 1)
  /\ level_dims 3 3 EXR_TILE_ROUND_UP 1 = (2, 2)
  /\ level_dims 3 3 EXR_TILE_ROUND_UP 2 = (1, 1).
Proof. repeat split; vm_compute; reflexivity. Qed.

Lemma compute_mipres_halves_witness :
  level_dims 100 100 EXR_TILE_ROUND_DOWN 7
  = (level_size EXR_TILE_ROUND_DOWN 7 100, level_size EXR_TILE_ROUND_DOWN 7 100)
  /\ level_size EXR_TILE_ROUND_DOWN 7 100 = 1.
Proof.
  split; [|vm_compute; reflexivity].
  unfold level_dims.
  destruct (compute_mipres_halves
              (mipmap_part 100 100 EXR_TILE_ROUND_DOWN) 7 ImageSpec.default)
    as [Hw Hh].
  - reflexivity.
  - discriminate.
  - lia.
  - unfold in_int32; simpl; lia.
  - unfold in_int32; simpl; lia.
  - discriminate.
  - rewrite Hw, Hh. reflexivity.
Defined.

End MipFacts.

(** ** Values used in the examples *)

Module Examples.

(** A stand-in for [TypeDesc::basetype_merge] where an example needs one:
    the first known type wins. *)
Definition merge_first (a b : TypeDesc) : TypeDesc :=
  match a with
  | TypeUnknown => b
  | _ => a
  end.

(** A part whose header cannot be read: the data window query fails. *)
Definition unreadable_part : exr_part :=
  mkExrPart None None None None None None None false None (fun _ => None).

(** A scanline part of 16 x 16 pixels with the given channels. *)
Definition scanline_part (chans : list ChannelCatalog.exr_attr_chlist_entry_t)
  : exr_part :=
  mkExrPart (Some (mkBox 0 0 15 15)) (Some (mkBox 0 0 15 15))
    (Some EXR_STORAGE_SCANLINE) None None (Some chans) None true
    (Some 4) (fun _ => Some (16, 16)).

(** A reader just after [open] has sized [m_parts], before the first
    seek. *)
Definition fresh_reader (parts : list exr_part) : Reader.t :=
  Reader.mk (replicate (length parts) PartInfo.new) (-1) (-1) (Some parts)
    (Z.of_nat (length parts)) Vector.empty_vector ImageSpec.default [].

End Examples.

(** ** Cataloging errors and seeking (C7, C9) *)

Module SeekFacts.

Import ChannelCatalog.

Definition entry_key (e : exr_attr_chlist_entry_t) : string * Z * Z :=
  (name e, x_sampling e, y_sampling e).

Definition chan_key (c : ChanNameHolder) : string * Z * Z :=
  (fullname c, xSampling c, ySampling c).

Lemma chan_key_new n e : chan_key (ChanNameHolder_new n e) = entry_key e.
Proof.
  unfold ChanNameHolder_new, chan_key, entry_key.
  now destruct (split_name (name e)).
Qed.

Lemma chan_key_emplace_all entries :
  map chan_key (emplace_all entries) = map entry_key entries.
Proof.
  unfold emplace_all. apply list_eq. intros i.
  rewrite !list_lookup_fmap, list_lookup_imap.
  destruct (entries !! i) as [e|]; simpl; [|reflexivity].
  now rewrite chan_key_new.
Qed.

Lemma chan_key_layer_special group :
  map chan_key (layer_special group) = map chan_key group.
Proof.
  unfold layer_special.
  destruct (suffixfound "X" group && _); rewrite map_map; apply map_ext;
    intros c; unfold compute_special_index_xyz, compute_special_index;
    destruct (special_loop _ _ _); reflexivity.
Qed.

Lemma chan_key_layers_loop (stdlib : StdSort) fuel : forall cnh,
  Permutation (map chan_key cnh) (map chan_key (layers_loop stdlib fuel cnh)).
Proof.
  induction fuel as [|fuel IH]; intros cnh; [reflexivity|].
  destruct cnh as [|b rest]; [reflexivity|]. simpl.
  destruct (layer_scan b rest) as [span post] eqn:Hs.
  destruct (CatalogFacts.layer_scan_spec _ _ _ _ Hs) as (-> & _ & _).
  rewrite !map_app. rewrite <- (IH post).
  rewrite <- (Permutation_map chan_key (std_sort_perm stdlib _ compare_cnh _)).
  rewrite chan_key_layer_special. reflexivity.
Qed.

(** The presented channels are the file's channels, with their names and
    samplings. *)
Lemma chan_key_canonical_order (stdlib : StdSort) entries :
  Permutation (map entry_key entries)
    (map chan_key (canonical_order stdlib entries)).
Proof.
  unfold canonical_order, layer_pass.
  rewrite <- chan_key_layers_loop.
  rewrite <- (Permutation_map chan_key (std_sort_perm stdlib _ compare_layer _)).
  now rewrite chan_key_emplace_all.
Qed.

Definition subsampled (e : exr_attr_chlist_entry_t) : Prop :=
  x_sampling e <> 1 \/ y_sampling e <> 1.

Section WithLibraries.

Variable stdlib : StdSort.
Variable basetype_merge : TypeDesc -> TypeDesc -> TypeDesc.

Lemma chan_body_spec ch0 c ch st :
  let st' := PartInfo.chan_body basetype_merge ch0 c ch st in
  PartInfo.initialized (PartInfo.cl_part st')
    = PartInfo.initialized (PartInfo.cl_part st)
  /\ (forall e, In e (PartInfo.cl_errors st) -> In e (PartInfo.cl_errors st'))
  /\ (PartInfo.cl_ok st = false -> PartInfo.cl_ok st' = false)
  /\ (xSampling ch <> 1 \/ ySampling ch <> 1 ->
      PartInfo.cl_ok st' = false
      /\ In (ErrSubsampled (fullname ch) (xSampling ch) (ySampling ch))
           (PartInfo.cl_errors st')).
Proof.
  unfold PartInfo.chan_body. cbv zeta.
  destruct (negb (xSampling ch =? 1) || negb (ySampling ch =? 1)) eqn:Hs; simpl.
  - repeat split; auto.
    + intros e He. apply in_or_app. now left.
    + apply in_or_app. right. now left.
  - repeat split; auto.
    + apply orb_false_iff in Hs as [H1 H2].
      apply negb_false_iff, Z.eqb_eq in H1, H2. tauto.
    + apply orb_false_iff in Hs as [H1 H2].
      apply negb_false_iff, Z.eqb_eq in H1, H2. tauto.
Qed.

Lemma chan_loop_from_spec ch0 cnh : forall c st,
  let st' := PartInfo.chan_loop_from basetype_merge ch0 c cnh st in
  PartInfo.initialized (PartInfo.cl_part st')
    = PartInfo.initialized (PartInfo.cl_part st)
  /\ (forall e, In e (PartInfo.cl_errors st) -> In e (PartInfo.cl_errors st'))
  /\ (PartInfo.cl_ok st = false -> PartInfo.cl_ok st' = false)
  /\ (forall ch, In ch cnh -> xSampling ch <> 1 \/ ySampling ch <> 1 ->
      PartInfo.cl_ok st' = false
      /\ In (ErrSubsampled (fullname ch) (xSampling ch) (ySampling ch))
           (PartInfo.cl_errors st')).
Proof.
  induction cnh as [|ch cnh IH]; intros c st; simpl.
  - split; [reflexivity|]. split; [auto|]. split; [auto|]. intros ch' [].
  - destruct (chan_body_spec ch0 c ch st) as (B1 & B2 & B3 & B4).
    destruct (IH (c + 1) (PartInfo.chan_body basetype_merge ch0 c ch st))
      as (I1 & I2 & I3 & I4).
    split; [congruence|]. split; [auto|]. split; [auto|].
    intros ch' [<-|Hin] Hsub; [|now apply (I4 ch')].
    split; [apply I3|apply I2]; now apply B4.
Qed.

(** Cataloging a channel list with a subsampled channel. *)
Lemma query_channels_subsampled part ctxt subimage errs chlist :
  exr_get_part ctxt subimage ≫= hdr_channels = Some chlist ->
  Exists subsampled chlist ->
  exists part' errs',
    PartInfo.query_channels stdlib basetype_merge part ctxt subimage errs
      = (false, part', errs')
    /\ PartInfo.initialized part' = PartInfo.initialized part
    /\ (forall e, In e chlist -> subsampled e ->
          In (ErrSubsampled (name e) (x_sampling e) (y_sampling e)) errs').
Proof.
  intros Hch Hex. unfold PartInfo.query_channels. rewrite Hch.
  destruct (emplace_all chlist) as [|c0 cnh0] eqn:Hem.
  { apply Exists_exists in Hex as (e & Hin & _).
    apply (f_equal (@length _)) in Hem. unfold emplace_all in Hem.
    rewrite length_imap in Hem. destruct chlist; [inversion Hin|discriminate]. }
  cbv zeta.
  set (ch0 := hd _ _). set (st0 := PartInfo.mkLoop _ true true errs).
  destruct (chan_loop_from_spec ch0 (canonical_order stdlib chlist) 0 st0)
    as (I1 & I2 & I3 & I4).
  set (st' := PartInfo.chan_loop_from _ _ _ _ _) in *.
  assert (Hkey : forall e, In e chlist -> subsampled e ->
            PartInfo.cl_ok st' = false
            /\ In (ErrSubsampled (name e) (x_sampling e) (y_sampling e))
                 (PartInfo.cl_errors st')).
  { intros e Hin Hsub.
    assert (In (entry_key e) (map chan_key (canonical_order stdlib chlist))) as Hk.
    { eapply Permutation_in; [apply chan_key_canonical_order|].
      now apply in_map. }
    apply in_map_iff in Hk as (ch & Hk & Hch').
    unfold chan_key, entry_key in Hk. injection Hk as Hn Hx Hy.
    rewrite <- Hn, <- Hx, <- Hy. apply I4; [assumption|].
    unfold subsampled in Hsub. congruence. }
  assert (PartInfo.cl_ok st' = false) as Hok.
  { apply Exists_exists in Hex as (e & Hin & Hsub).
    apply list_elem_of_In in Hin. now apply (Hkey e). }
  rewrite Hok.
  eexists _, _. split; [reflexivity|]. split.
  - destruct (PartInfo.cl_all_one_format st'); simpl; rewrite I1; reflexivity.
  - intros e Hin Hsub. now apply (Hkey e).
Qed.

(** Parsing the header of such a part fails and leaves the part
    uninitialized. *)
Lemma parse_header_subsampled part ctxt subimage errs chlist :
  exr_get_part ctxt subimage ≫= hdr_channels = Some chlist ->
  Exists subsampled chlist ->
  PartInfo.initialized part = false ->
  exists part' errs',
    PartInfo.parse_header stdlib basetype_merge part ctxt subimage errs
      = (false, part', errs')
    /\ PartInfo.initialized part' = false.
Proof.
  intros Hch Hex Hinit. unfold PartInfo.parse_header. rewrite Hinit.
  destruct (exr_get_part ctxt subimage ≫= hdr_data_window) as [dw|];
    [|eexists _, _; split; [reflexivity|exact Hinit]].
  destruct (exr_get_part ctxt subimage ≫= hdr_display_window) as [dpw|];
    [|eexists _, _; split; [reflexivity|exact Hinit]].
  destruct (exr_get_part ctxt subimage ≫= hdr_storage) as [storage|];
    [|eexists _, _; split; [reflexivity|exact Hinit]].
  cbv zeta.
  match goal with
  | |- context [match ?lv with inl _ => _ | inr _ => _ end] =>
      assert (Hlv : match lv with
                    | inl p | inr p => PartInfo.initialized p = false
                    end);
      [|destruct lv as [p|p]]
  end.
  { destruct storage;
      repeat match goal with
             | |- context [match ?x with _ => _ end] =>
                 lazymatch type of x with
                 | option _ => destruct x
                 | prod _ _ => destruct x
                 end
             end; exact Hinit. }
  - eexists _, _; split; [reflexivity|exact Hlv].
  - destruct (query_channels_subsampled p ctxt subimage errs chlist Hch Hex)
      as (part' & errs' & -> & Hi & _).
    eexists _, _; split; [reflexivity|]. congruence.
Qed.

Lemma part_at_set_parts r subimage part errs :
  Reader.part_at
    (Reader.set_parts r (<[Z.to_nat subimage := part]> (Reader.m_parts r)) errs)
    subimage
  = if decide (Z.to_nat subimage < length (Reader.m_parts r))%nat
    then part else PartInfo.new.
Proof.
  unfold Reader.part_at, Reader.set_parts. simpl.
  case_decide as Hlt.
  - now rewrite list_lookup_insert_eq.
  - rewrite list_insert_ge by lia.
    now rewrite lookup_ge_None_2 by lia.
Qed.

(** The part a seek works on once its header is dealt with, and whether
    that succeeded: the part itself when it is initialized already, the
    outcome of [parse_header] otherwise. *)
Definition header_ready (r : Reader.t) (subimage : Z) : bool * PartInfo.t :=
  let part := Reader.part_at r subimage in
  if PartInfo.initialized part then (true, part)
  else
    match PartInfo.parse_header stdlib basetype_merge part
            (Reader.m_exr_context r) subimage (Reader.errors r) with
    | (ok, part, _) => (ok, part)
    end.

Lemma seek_subimage_subsampled r subimage miplevel chlist :
  exr_get_part (Reader.m_exr_context r) subimage ≫= hdr_channels = Some chlist ->
  Exists subsampled chlist ->
  PartInfo.initialized (Reader.part_at r subimage) = false ->
  exists r',
    Reader.seek_subimage stdlib basetype_merge r subimage miplevel = (false, r')
    /\ PartInfo.initialized (Reader.part_at r' subimage) = false
    /\ Reader.m_exr_context r' = Reader.m_exr_context r.
Proof.
  intros Hch Hex Hinit. unfold Reader.seek_subimage.
  destruct ((subimage <? 0) || (Reader.m_nsubimages r <=? subimage)).
  { exists r. auto. }
  rewrite Hinit.
  destruct (parse_header_subsampled (Reader.part_at r subimage)
              (Reader.m_exr_context r) subimage (Reader.errors r) chlist
              Hch Hex Hinit) as (part' & errs' & -> & Hi).
  simpl. eexists. split; [reflexivity|]. split; [|reflexivity].
  rewrite part_at_set_parts. now case_decide.
Qed.

(** C7: when a channel of the part has an x or y sampling other than 1,
    cataloging the channels fails, an error naming the channel is issued
    for every such channel before the failure is returned, and the part
    is not marked initialized: the seek fails, and so does any later seek
    to that part. *)
Theorem subsampled_channels_rejected (r : Reader.t) (subimage : Z)
  (chlist : list exr_attr_chlist_entry_t) :
  exr_get_part (Reader.m_exr_context r) subimage ≫= hdr_channels = Some chlist ->
  Exists subsampled chlist ->
  (forall part errs, exists part' errs',
     PartInfo.query_channels stdlib basetype_merge part
       (Reader.m_exr_context r) subimage errs = (false, part', errs')
     /\ PartInfo.initialized part' = PartInfo.initialized part
     /\ (forall e, In e chlist -> subsampled e ->
           In (ErrSubsampled (name e) (x_sampling e) (y_sampling e)) errs'))
  /\ (PartInfo.initialized (Reader.part_at r subimage) = false ->
      forall miplevel, exists r',
        Reader.seek_subimage stdlib basetype_merge r subimage miplevel
          = (false, r')
        /\ PartInfo.initialized (Reader.part_at r' subimage) = false
        /\ forall miplevel',
             fst (Reader.seek_subimage stdlib basetype_merge r' subimage miplevel')
             = false).
Proof.
  intros Hch Hex. split.
  - intros part errs. now apply query_channels_subsampled.
  - intros Hinit miplevel.
    destruct (seek_subimage_subsampled r subimage miplevel chlist Hch Hex Hinit)
      as (r' & Hseek & Hinit' & Hctx).
    exists r'. split; [exact Hseek|]. split; [exact Hinit'|].
    intros miplevel'. rewrite <- Hctx in Hch.
    destruct (seek_subimage_subsampled r' subimage miplevel' chlist Hch Hex Hinit')
      as (r'' & -> & _). reflexivity.
Qed.

(** C9, amended: with the subimage in range and the part's header dealt
    with (the part was initialized, or its header parses), an out-of-range
    miplevel makes the seek fail with the current subimage set to the
    requested one and the current miplevel unchanged.  When the header
    does not parse, or the subimage is out of range, the seek fails and
    leaves both unchanged. *)
Theorem seek_subimage_bad_miplevel (r : Reader.t) (subimage miplevel : Z) :
  let res := Reader.seek_subimage stdlib basetype_merge r subimage miplevel in
  let ready := header_ready r subimage in
  (0 <= subimage < Reader.m_nsubimages r ->
   fst ready = true ->
   miplevel < 0 \/ PartInfo.nmiplevels (snd ready) <= miplevel ->
   fst res = false
   /\ Reader.current_subimage (snd res) = subimage
   /\ Reader.current_miplevel (snd res) = Reader.current_miplevel r)
  /\ (0 <= subimage < Reader.m_nsubimages r ->
      fst ready = false ->
      fst res = false
      /\ Reader.current_subimage (snd res) = Reader.current_subimage r
      /\ Reader.current_miplevel (snd res) = Reader.current_miplevel r)
  /\ (~ 0 <= subimage < Reader.m_nsubimages r -> res = (false, r)).
Proof.
  cbv zeta. unfold Reader.seek_subimage, header_ready.
  split; [|split].
  - intros Hs Hready Hm.
    replace ((subimage <? 0) || (Reader.m_nsubimages r <=? subimage))
      with false by lia.
    destruct (PartInfo.initialized (Reader.part_at r subimage)) eqn:Hinit.
    + simpl in *.
      replace ((miplevel <? 0)
               || (PartInfo.nmiplevels (Reader.part_at r subimage) <=? miplevel))
        with true by lia.
      auto.
    + destruct (PartInfo.parse_header _ _ _ _ _ _) as [[ok part] errs].
      simpl in Hready, Hm. subst ok. simpl.
      replace ((miplevel <? 0) || (PartInfo.nmiplevels part <=? miplevel))
        with true by lia.
      auto.
  - intros Hs Hready.
    replace ((subimage <? 0) || (Reader.m_nsubimages r <=? subimage))
      with false by lia.
    destruct (PartInfo.initialized (Reader.part_at r subimage)) eqn:Hinit;
      [discriminate|].
    destruct (PartInfo.parse_header _ _ _ _ _ _) as [[ok part] errs].
    simpl in Hready. subst ok. simpl. auto.
  - intros Hs.
    replace ((subimage <? 0) || (Reader.m_nsubimages r <=? subimage))
      with true by lia.
    reflexivity.
Qed.

End WithLibraries.

(** C7 at work: a part with channels "R" (sampling 1,1) and "G"
    (sampling 2,1). *)
Lemma subsampled_channels_rejected_witness :
  let chlist := [mkEntry "R" EXR_PIXEL_HALF 1 1; mkEntry "G" EXR_PIXEL_HALF 2 1] in
  let r := Examples.fresh_reader [Examples.scanline_part chlist] in
  fst (Reader.seek_subimage SortImpl.insertion_sort Examples.merge_first r 0 0)
  = false.
Proof.
  intros chlist r.
  destruct (subsampled_channels_rejected SortImpl.insertion_sort
              Examples.merge_first r 0 chlist eq_refl) as [_ H].
  - apply Exists_cons_tl, Exists_cons_hd. left. simpl. lia.
  - destruct (H eq_refl 0) as (r' & Heq & _). rewrite Heq. reflexivity.
Defined.

(** C9 at work: subimage 0 of a one-part file whose header parses, asked
    for miplevel 3 of a part that has one level. *)
Lemma seek_subimage_bad_miplevel_witness :
  let chlist := [mkEntry "R" EXR_PIXEL_HALF 1 1] in
  let r := Examples.fresh_reader [Examples.scanline_part chlist] in
  let res :=
    Reader.seek_subimage SortImpl.insertion_sort Examples.merge_first r 0 3 in
  fst res = false
  /\ Reader.current_subimage (snd res) = 0
  /\ Reader.current_miplevel (snd res) = -1.
Proof.
  intros chlist r res.
  apply (seek_subimage_bad_miplevel SortImpl.insertion_sort
           Examples.merge_first r 0 3).
  - simpl. lia.
  - vm_compute. reflexivity.
  - right. vm_compute. discriminate.
Defined.

(** C9, as stated, fails: subimage 0 is in range and miplevel -1 is not,
    but the header of the part cannot be read; the seek returns false and
    the current subimage is still -1, not 0. *)
Lemma seek_subimage_keeps_subimage_on_parse_failure :
  let r := Examples.fresh_reader [Examples.unreadable_part] in
  let res :=
    Reader.seek_subimage SortImpl.insertion_sort Examples.merge_first r 0 (-1) in
  0 <= 0 < Reader.m_nsubimages r
  /\ fst res = false
  /\ Reader.current_subimage (snd res) = -1
  /\ Reader.current_subimage (snd res) <> 0
  /\ Reader.current_miplevel (snd res) = Reader.current_miplevel r.
Proof. vm_compute. repeat split; congruence. Qed.

End SeekFacts.

(** ** Buffers and loops *)

Module MemFacts.

Lemma store_bytes_lookup a n f (m : mem) b :
  store_bytes a n f m !! b
  = if decide (a <= b < a + n) then Some (f (b - a)) else m !! b.
Proof.
  unfold store_bytes.
  assert (forall ks : list Z,
            foldr (fun k m => <[a + k := f k]> m) m ks !! b
            = if decide (b - a ∈ ks) then Some (f (b - a)) else m !! b) as H.
  { induction ks as [|k ks IH].
    - destruct (decide (b - a ∈ [])) as [Hin|Hin]; [|reflexivity].
      now apply elem_of_nil in Hin.
    - cbn [foldr]. rewrite lookup_insert.
      destruct (decide (a + k = b)) as [Hk|Hk].
      + destruct (decide (b - a ∈ k :: ks)) as [Hin|Hin].
        * f_equal. f_equal. lia.
        * exfalso. apply Hin. replace (b - a) with k by lia. left.
      + rewrite IH.
        destruct (decide (b - a ∈ ks)) as [Hin|Hin];
          destruct (decide (b - a ∈ k :: ks)) as [Hin'|Hin']; try reflexivity.
        * exfalso. apply Hin'. now right.
        * exfalso. apply elem_of_cons in Hin' as [?|?]; [lia|tauto]. }
  rewrite H.
  destruct (decide (b - a ∈ seqZ 0 n)) as [Hin|Hin];
    destruct (decide (a <= b < a + n)) as [Hr|Hr]; try reflexivity.
  - exfalso. apply elem_of_seqZ in Hin. lia.
  - exfalso. apply Hin, elem_of_seqZ. lia.
Qed.

Lemma store_bytes_other a n f (m : mem) b :
  ~ (a <= b < a + n) -> store_bytes a n f m !! b = m !! b.
Proof. intros H. rewrite store_bytes_lookup. now case_decide. Qed.

Lemma store_bytes_at a n f (m : mem) k :
  0 <= k < n -> store_bytes a n f m !! (a + k) = Some (f k).
Proof.
  intros H. rewrite store_bytes_lookup. case_decide; [|lia].
  f_equal. f_equal. lia.
Qed.

Section Loops.

Context {St : Type} (body : Z -> St -> St).

Lemma for_loop_nil lo hi s : hi <= lo -> for_loop lo hi body s = s.
Proof.
  intros H. unfold for_loop.
  replace (seqZ lo (hi - lo)) with (@nil Z); [reflexivity|].
  symmetry. apply seqZ_nil. lia.
Qed.

Lemma for_loop_split lo mid hi s :
  lo <= mid <= hi ->
  for_loop lo hi body s = for_loop mid hi body (for_loop lo mid body s).
Proof.
  intros H. unfold for_loop.
  replace (hi - lo) with ((mid - lo) + (hi - mid)) by lia.
  rewrite seqZ_app by lia. rewrite fold_left_app.
  now replace (lo + (mid - lo)) with mid by lia.
Qed.

Lemma for_loop_one i j s : j = i + 1 -> for_loop i j body s = body i s.
Proof.
  intros ->. unfold for_loop. replace (i + 1 - i) with 1 by lia. reflexivity.
Qed.

Lemma for_loop_first lo hi s :
  lo < hi -> for_loop lo hi body s = for_loop (lo + 1) hi body (body lo s).
Proof.
  intros H. rewrite (for_loop_split lo (lo + 1) hi) by lia.
  now rewrite (for_loop_one lo (lo + 1)).
Qed.

Lemma for_loop_last lo hi s :
  lo < hi -> for_loop lo hi body s = body (hi - 1) (for_loop lo (hi - 1) body s).
Proof.
  intros H. rewrite (for_loop_split lo (hi - 1) hi) by lia.
  apply for_loop_one. lia.
Qed.

(** Loop invariants. *)
Lemma for_loop_invariant (P : Z -> St -> Prop) lo hi s :
  lo <= hi ->
  P lo s ->
  (forall i s, lo <= i < hi -> P i s -> P (i + 1) (body i s)) ->
  P hi (for_loop lo hi body s).
Proof.
  intros Hle H0 Hstep.
  assert (forall n : nat, lo + Z.of_nat n <= hi ->
            P (lo + Z.of_nat n) (for_loop lo (lo + Z.of_nat n) body s)) as H.
  { induction n as [|n IH]; intros Hn.
    - replace (lo + Z.of_nat 0) with lo by lia.
      now rewrite for_loop_nil by lia.
    - rewrite for_loop_last by lia.
      replace (lo + Z.of_nat (S n) - 1) with (lo + Z.of_nat n) by lia.
      replace (lo + Z.of_nat (S n)) with (lo + Z.of_nat n + 1) by lia.
      apply Hstep; [lia|]. apply IH. lia. }
  specialize (H (Z.to_nat (hi - lo))).
  replace (lo + Z.of_nat (Z.to_nat (hi - lo))) with hi in H by lia.
  apply H. lia.
Qed.

End Loops.

Lemma for_loop_ext {St : Type} (body1 body2 : Z -> St -> St) lo hi s :
  (forall i s, lo <= i < hi -> body1 i s = body2 i s) ->
  for_loop lo hi body1 s = for_loop lo hi body2 s.
Proof.
  intros H. destruct (Z_le_gt_dec lo hi) as [Hle|Hgt].
  - apply (for_loop_invariant body1
             (fun i s1 => s1 = for_loop lo i body2 s) lo hi s Hle).
    + now rewrite for_loop_nil by lia.
    + intros i s1 Hi ->. rewrite (for_loop_last body2 lo (i + 1)) by lia.
      replace (i + 1 - 1) with i by lia. now apply H.
  - now rewrite !for_loop_nil by lia.
Qed.

(** A loop none of whose turns changes offset [b] leaves it alone. *)
Lemma for_loop_lookup_other (body : Z -> mem -> mem) lo hi (m : mem) b :
  (forall i m, lo <= i < hi -> body i m !! b = m !! b) ->
  for_loop lo hi body m !! b = m !! b.
Proof.
  intros H. destruct (Z_le_gt_dec lo hi) as [Hle|Hgt].
  - apply (for_loop_invariant body (fun _ m' => m' !! b = m !! b) lo hi m Hle).
    + reflexivity.
    + intros i m' Hi <-. now apply H.
  - now rewrite for_loop_nil by lia.
Qed.

(** A loop of which turn [i0] alone touches offset [b] leaves there what
    that turn writes. *)
Lemma for_loop_lookup_at (body : Z -> mem -> mem) lo hi i0 (m : mem) b v :
  lo <= i0 < hi ->
  (forall m, body i0 m !! b = v) ->
  (forall i m, lo <= i < hi -> i <> i0 -> body i m !! b = m !! b) ->
  for_loop lo hi body m !! b = v.
Proof.
  intros Hi0 Hat Hother.
  rewrite (for_loop_split body lo (i0 + 1) hi) by lia.
  rewrite for_loop_lookup_other.
  - rewrite for_loop_last by lia. replace (i0 + 1 - 1) with i0 by lia.
    apply Hat.
  - intros i m' Hi. apply Hother; lia.
Qed.

End MemFacts.

(** ** The missing colour: configuration and fill (C10, C1) *)

Module FillFacts.

Import MemFacts.

(** *** A numeric "oiio:missingcolor" (C10) *)

Lemma seek_subimage_missingcolor stdlib bm r subimage miplevel :
  Reader.m_missingcolor (snd (Reader.seek_subimage stdlib bm r subimage miplevel))
  = Reader.m_missingcolor r.
Proof.
  unfold Reader.seek_subimage.
  destruct ((subimage <? 0) || _); [reflexivity|].
  destruct (PartInfo.initialized _).
  - cbn [negb]. cbv iota beta.
    destruct ((miplevel <? 0) || _); [reflexivity|].
    destruct (miplevel =? 0);
      destruct (PartInfo.levelmode (Reader.part_at r subimage)); reflexivity.
  - destruct (PartInfo.parse_header _ _ _ _ _ _) as [[[] part] errs];
      [|reflexivity].
    cbn [negb]. cbv iota beta.
    destruct ((miplevel <? 0) || _); [reflexivity|].
    destruct (miplevel =? 0);
      destruct (PartInfo.levelmode (PartInfo.set_initialized part true));
      reflexivity.
Qed.

Lemma numeric_loop_spec (values : list float) (mc0 : Vector.t float) :
  Vector.size mc0 = 0%nat ->
  (length values <= Vector.capacity mc0)%nat ->
  let mc :=
    for_loop 0 (Z.of_nat (length values))
      (fun i mc =>
         match values !! Z.to_nat i with
         | Some v => Vector.assign_at (Z.to_nat i) v mc
         | None => mc
         end) mc0 in
  Vector.size mc = 0%nat
  /\ forall i v, values !! i = Some v -> Vector.storage mc !! i = Some (Some v).
Proof.
  intros Hsz Hcap mc.
  assert (Vector.size mc = 0%nat
          /\ Vector.capacity mc = Vector.capacity mc0
          /\ forall i v, (Z.of_nat i < Z.of_nat (length values)) ->
               values !! i = Some v ->
               Vector.storage mc !! i = Some (Some v)) as (H1 & _ & H3).
  2:{ split; [exact H1|]. intros i v Hv. apply H3; [|exact Hv].
      apply lookup_lt_Some in Hv. lia. }
  subst mc.
  apply (for_loop_invariant _
           (fun n mc =>
              Vector.size mc = 0%nat
              /\ Vector.capacity mc = Vector.capacity mc0
              /\ forall i v, (Z.of_nat i < n) -> values !! i = Some v ->
                   Vector.storage mc !! i = Some (Some v))).
  - lia.
  - repeat split; auto. intros i v Hi. lia.
  - intros n mc Hn (Hs & Hc & Hv).
    destruct (values !! Z.to_nat n) as [vn|] eqn:Hvn.
    + unfold Vector.assign_at, Vector.capacity in *. simpl.
      split; [assumption|]. split; [now rewrite length_insert|].
      intros i v Hi Hiv.
      destruct (decide (i = Z.to_nat n)) as [->|Hne].
      * rewrite list_lookup_insert_eq by lia. congruence.
      * rewrite list_lookup_insert_ne by lia. apply Hv; [lia|assumption].
    + apply lookup_ge_None in Hvn. lia.
Qed.

(** C10: when "oiio:missingcolor" is given as a numeric array, [open]
    writes the values with [operator[]] after [clear()] and [reserve(n)]
    only.  The vector's size stays zero: every value is written at an
    index that is not below the size, into the reserved storage, and the
    vector holds no element.  Whether [open] then succeeds or not,
    [check_fill_missing] finds [m_missingcolor] empty, returns false and
    leaves the buffer as it is. *)
Theorem numeric_missingcolor_stays_empty
  (stdlib : StdSort) (basetype_merge : TypeDesc -> TypeDesc -> TypeDesc)
  (extract_from_list_string : string -> list float)
  (r : Reader.t) (env : Reader.open_env) (values : list float) :
  Reader.cfg_missingcolor env = Some (Reader.MissingColorArray values) ->
  let mc :=
    Reader.configure_missingcolor extract_from_list_string env
      (Reader.m_missingcolor r) in
  let r' :=
    snd (Reader.open stdlib basetype_merge extract_from_list_string r env) in
  Vector.size mc = 0%nat
  /\ Vector.elements mc = []
  /\ (forall i v, values !! i = Some v ->
        (Vector.size mc <= i)%nat /\ Vector.storage mc !! i = Some (Some v))
  /\ Vector.size (Reader.m_missingcolor r') = 0%nat
  /\ (forall xbegin xend ybegin yend chbegin chend data xstride ystride m,
        Reader.check_fill_missing r' xbegin xend ybegin yend chbegin chend
          data xstride ystride m = (false, m)).
Proof.
  intros Hcfg mc r'.
  assert (Vector.size mc = 0%nat
          /\ forall i v, values !! i = Some v ->
               Vector.storage mc !! i = Some (Some v)) as [Hsz Hst].
  { subst mc. unfold Reader.configure_missingcolor. rewrite Hcfg.
    apply numeric_loop_spec.
    - unfold Vector.reserve, Vector.clear.
      destruct (_ <? _)%nat; reflexivity.
    - unfold Vector.reserve, Vector.clear, Vector.capacity. simpl.
      destruct (length (Vector.storage (Reader.m_missingcolor r))
                <? length values)%nat eqn:Hlt; simpl.
      + rewrite length_replicate. lia.
      + apply Nat.ltb_ge in Hlt. lia. }
  assert (Vector.size (Reader.m_missingcolor r') = 0%nat) as Hsz'.
  { subst r'. unfold Reader.open.
    fold mc. destruct (negb (Reader.io_readable env)); [exact Hsz|].
    destruct (Reader.file_parts env) as [parts|]; [|exact Hsz].
    match goal with
    | |- context [Reader.seek_subimage ?s ?b ?r0 0 0] =>
        pose proof (seek_subimage_missingcolor s b r0 0 0) as Hseek;
        destruct (Reader.seek_subimage s b r0 0 0) as [[] r1]
    end; simpl in *.
    - now rewrite Hseek.
    - reflexivity. }
  split; [exact Hsz|]. split.
  { unfold Vector.elements. now rewrite Hsz. }
  split.
  { intros i v Hv. split; [lia|]. now apply Hst. }
  split; [exact Hsz'|].
  intros. unfold Reader.check_fill_missing, Vector.empty.
  now rewrite Hsz'.
Qed.

(** *** The fill pattern (C1) *)

(** The colour configured for channel [ch]: the entry of the list, or its
    last entry for a channel beyond the list. *)
Definition configured (mc : list float) (ch : Z) : float :=
  default (default float_zero (last mc)) (mc !! Z.to_nat ch).

(** Stripe mode is on when the first configured component is negative. *)
Definition stripe_mode (mc : list float) : bool :=
  float_lt (configured mc 0) float_zero.

(** What channel [ch] holds where no stripe passes: in stripe mode the
    magnitude of the first component for channel 0, the configured value
    otherwise. *)
Definition base_value (mc : list float) (ch : Z) : float :=
  if stripe_mode mc && (ch =? 0) then fabsf (configured mc 0)
  else configured mc ch.

(** What the fill writes for channel [ch] of pixel ([px], [py]). *)
Definition fill_value (mc : list float) (px py ch : Z) : float :=
  if stripe_mode mc && negb (Z.land (px - py) 8 =? 0) then float_zero
  else base_value mc ch.

(** The local vector [missingcolor] of [check_fill_missing]. *)
Definition local_missingcolor (mc : list float) (chend : Z) : Vector.t float :=
  let v :=
    Vector.resize (Z.to_nat chend) (Vector.back (Vector.of_list mc))
      (Vector.copy (Vector.of_list mc)) in
  if float_lt (default float_zero (Vector.at_index v 0)) float_zero
  then Vector.assign_at 0 (fabsf (default float_zero (Vector.at_index v 0))) v
  else v.

Lemma resized_at_index (mc : list float) chend ch :
  mc <> [] -> 0 <= ch < chend ->
  Vector.at_index
    (Vector.resize (Z.to_nat chend) (Vector.back (Vector.of_list mc))
       (Vector.copy (Vector.of_list mc))) ch
  = Some (configured mc ch).
Proof.
  intros Hne Hch.
  assert (Vector.back (Vector.of_list mc) = last mc) as Hback.
  { unfold Vector.back, Vector.of_list. simpl.
    rewrite list_lookup_fmap, last_lookup.
    replace (length mc - 1)%nat with (pred (length mc)) by lia.
    now destruct (mc !! pred (length mc)). }
  assert (Vector.copy (Vector.of_list mc) = Vector.of_list mc) as Hcopy.
  { unfold Vector.copy, Vector.elements, Vector.of_list. simpl.
    now rewrite take_ge by (rewrite length_fmap; lia). }
  rewrite Hback, Hcopy.
  assert (is_Some (last mc)) as [lst Hlast].
  { destruct mc; [congruence|]. apply last_is_Some. discriminate. }
  unfold configured, Vector.at_index, Vector.resize, Vector.of_list. simpl.
  replace (ch <? 0) with false by lia. rewrite Hlast. simpl.
  destruct (Z.to_nat chend <=? length mc)%nat eqn:Hle; simpl.
  - apply Nat.leb_le in Hle. rewrite list_lookup_fmap.
    destruct (mc !! Z.to_nat ch) as [v|] eqn:Hv; [reflexivity|].
    apply lookup_ge_None in Hv. lia.
  - apply Nat.leb_gt in Hle.
    rewrite take_ge by (rewrite length_fmap; lia).
    destruct (mc !! Z.to_nat ch) as [v|] eqn:Hv.
    + rewrite lookup_app_l by (rewrite length_fmap; eapply lookup_lt_Some; eauto).
      now rewrite list_lookup_fmap, Hv.
    + apply lookup_ge_None in Hv.
      rewrite lookup_app_r by (rewrite length_fmap; lia).
      rewrite length_fmap.
      rewrite lookup_app_l by (rewrite length_replicate; lia).
      rewrite lookup_replicate_2 by lia. reflexivity.
Qed.

Lemma local_missingcolor_at_index (mc : list float) chend ch :
  mc <> [] -> 0 <= ch < chend ->
  Vector.at_index (local_missingcolor mc chend) ch = Some (base_value mc ch).
Proof.
  intros Hne Hch. unfold local_missingcolor, base_value, stripe_mode.
  rewrite (resized_at_index mc chend 0 Hne) by lia. simpl.
  destruct (float_lt (configured mc 0) float_zero) eqn:Hs; simpl.
  - pose proof (resized_at_index mc chend ch Hne Hch) as Hr.
    unfold Vector.at_index in *. simpl.
    replace (ch <? 0) with false in * by lia.
    destruct (ch =? 0) eqn:Hc0.
    + apply Z.eqb_eq in Hc0. subst ch. simpl in *.
      destruct (Vector.storage _) as [|c st]; [discriminate|]. reflexivity.
    + apply Z.eqb_neq in Hc0.
      rewrite list_lookup_insert_ne by lia. exact Hr.
  - now apply resized_at_index.
Qed.

Lemma foldr_add_app (l1 l2 : list Z) :
  foldr Z.add 0 (l1 ++ l2) = foldr Z.add 0 l1 + foldr Z.add 0 l2.
Proof. induction l1 as [|a l1 IH]; simpl; lia. Qed.

Lemma pixel_bytes_same spec ch : ImageSpec.pixel_bytes spec ch ch = 0.
Proof.
  unfold ImageSpec.pixel_bytes. destruct (ch <? 0); [reflexivity|].
  now replace (Z.max ch ch - ch) with 0 by lia.
Qed.

Lemma pixel_bytes_succ spec chbegin ch :
  0 <= chbegin <= ch ->
  ImageSpec.pixel_bytes spec chbegin (ch + 1)
  = ImageSpec.pixel_bytes spec chbegin ch
    + TypeDesc_size (ImageSpec.channelformat spec ch).
Proof.
  intros H. unfold ImageSpec.pixel_bytes.
  replace (chbegin <? 0) with false by lia.
  replace (Z.max (ch + 1) chbegin - chbegin) with ((ch - chbegin) + 1) by lia.
  replace (Z.max ch chbegin - chbegin) with (ch - chbegin) by lia.
  rewrite seqZ_app by lia. rewrite map_app, foldr_add_app.
  replace (chbegin + (ch - chbegin)) with ch by lia.
  change (seqZ ch 1) with [ch]. cbn [map foldr]. lia.
Qed.

Lemma TypeDesc_size_nonneg t : 0 <= TypeDesc_size t.
Proof. destruct t; simpl; lia. Qed.

Lemma pixel_bytes_mono spec chbegin ch ch' :
  0 <= chbegin <= ch -> ch <= ch' ->
  ImageSpec.pixel_bytes spec chbegin ch <= ImageSpec.pixel_bytes spec chbegin ch'.
Proof.
  intros H Hle.
  replace ch' with (ch + Z.of_nat (Z.to_nat (ch' - ch))) by lia.
  induction (Z.to_nat (ch' - ch)) as [|n IH].
  - replace (ch + Z.of_nat 0) with ch by lia. lia.
  - replace (ch + Z.of_nat (S n)) with (ch + Z.of_nat n + 1) by lia.
    rewrite pixel_bytes_succ by lia.
    pose proof (TypeDesc_size_nonneg
                  (ImageSpec.channelformat spec (ch + Z.of_nat n))). lia.
Qed.

Section Fill.

Variable r : Reader.t.
Variable mc : list float.
Variables chbegin chend : Z.

Hypothesis Hmc : mc <> [].
Hypothesis Hchb : 0 <= chbegin.

Let spec := Reader.m_spec r.
Let MC := local_missingcolor mc chend.
Let stripe := stripe_mode mc.

Lemma fill_channel_value px py ch d m :
  chbegin <= ch < chend ->
  Reader.fill_channel r MC stripe px py ch (d, m)
  = (d + TypeDesc_size (ImageSpec.channelformat spec ch),
     match ImageSpec.channelformat spec ch with
     | TypeFloat => store_bytes d 4 (FloatByte (fill_value mc px py ch)) m
     | TypeHalf => store_bytes d 2 (HalfByte (fill_value mc px py ch)) m
     | _ => m
     end).
Proof.
  intros Hch. unfold Reader.fill_channel, MC.
  rewrite (local_missingcolor_at_index mc chend ch Hmc) by lia. reflexivity.
Qed.

(** The channel loop on one pixel: where the pointer ends, what is left
    alone, and what each channel's bytes hold. *)
Lemma fill_pixel_spec px py d m n :
  chbegin <= n <= chend ->
  let res := for_loop chbegin n (Reader.fill_channel r MC stripe px py) (d, m) in
  fst res = d + ImageSpec.pixel_bytes spec chbegin n
  /\ (forall b, ~ (d <= b < d + ImageSpec.pixel_bytes spec chbegin n) ->
        snd res !! b = m !! b)
  /\ (forall ch k, chbegin <= ch < n ->
        (ImageSpec.channelformat spec ch = TypeFloat -> 0 <= k < 4 ->
         snd res !! (d + ImageSpec.pixel_bytes spec chbegin ch + k)
         = Some (FloatByte (fill_value mc px py ch) k))
        /\ (ImageSpec.channelformat spec ch = TypeHalf -> 0 <= k < 2 ->
            snd res !! (d + ImageSpec.pixel_bytes spec chbegin ch + k)
            = Some (HalfByte (fill_value mc px py ch) k))).
Proof.
  intros Hn.
  apply (for_loop_invariant (Reader.fill_channel r MC stripe px py)
           (fun n res =>
              n <= chend ->
              fst res = d + ImageSpec.pixel_bytes spec chbegin n
              /\ (forall b, ~ (d <= b < d + ImageSpec.pixel_bytes spec chbegin n) ->
                    snd res !! b = m !! b)
              /\ (forall ch k, chbegin <= ch < n ->
                    (ImageSpec.channelformat spec ch = TypeFloat -> 0 <= k < 4 ->
                     snd res !! (d + ImageSpec.pixel_bytes spec chbegin ch + k)
                     = Some (FloatByte (fill_value mc px py ch) k))
                    /\ (ImageSpec.channelformat spec ch = TypeHalf -> 0 <= k < 2 ->
                        snd res !! (d + ImageSpec.pixel_bytes spec chbegin ch + k)
                        = Some (HalfByte (fill_value mc px py ch) k))))
           chbegin n (d, m)); [lia| |  |lia].
  - intros _. rewrite pixel_bytes_same. simpl.
    split; [lia|]. split; [reflexivity|]. intros ch k Hch. lia.
  - intros i [d' m'] Hi IH Hle. simpl in IH.
    destruct (IH ltac:(lia)) as (Hd & Hframe & Hval). subst d'.
    rewrite fill_channel_value by lia. rewrite pixel_bytes_succ by lia.
    pose proof (TypeDesc_size_nonneg (ImageSpec.channelformat spec i)) as Hsz.
    pose proof (pixel_bytes_mono spec chbegin chbegin i ltac:(lia) ltac:(lia)) as Hpos.
    rewrite pixel_bytes_same in Hpos.
    simpl. split; [lia|]. split.
    + intros b Hb.
      destruct (ImageSpec.channelformat spec i) eqn:Hcf; simpl in *;
        try (apply Hframe; lia);
        (rewrite store_bytes_other by lia; apply Hframe; lia).
    + intros ch k Hch.
      destruct (decide (ch = i)) as [->|Hne].
      * split; intros Hcf Hk; rewrite Hcf; now rewrite store_bytes_at.
      * assert (chbegin <= ch < i) as Hch' by lia.
        destruct (Hval ch k Hch') as [Hf Hh].
        pose proof (pixel_bytes_mono spec chbegin (ch + 1) i ltac:(lia) ltac:(lia))
          as Hm.
        rewrite pixel_bytes_succ in Hm by lia.
        split; intros Hcf Hk; rewrite Hcf in Hm; simpl in Hm;
          destruct (ImageSpec.channelformat spec i); simpl;
          try (rewrite store_bytes_other by lia); auto.
Qed.

Variables xbegin xend ybegin yend data xstride ystride : Z.

Hypothesis Hxs : ImageSpec.pixel_bytes spec chbegin chend <= xstride.
Hypothesis Hys : (xend - xbegin) * xstride <= ystride.

Let pixel (py px : Z) (m : mem) : mem :=
  let d := data + (py - ybegin) * ystride + (px - xbegin) * xstride in
  snd (for_loop chbegin chend (Reader.fill_channel r MC stripe px py) (d, m)).

Let row (py : Z) (m : mem) : mem := for_loop xbegin xend (pixel py) m.

Lemma pixel_other py px m b :
  chbegin <= chend ->
  ~ (data + (py - ybegin) * ystride + (px - xbegin) * xstride <= b
     < data + (py - ybegin) * ystride + (px - xbegin) * xstride
       + ImageSpec.pixel_bytes spec chbegin chend) ->
  pixel py px m !! b = m !! b.
Proof.
  intros Hle Hb. unfold pixel.
  now apply (fill_pixel_spec px py _ m chend ltac:(lia)).
Qed.

(** The buffer after the fill, at the bytes of channel [ch] of pixel
    ([px], [py]). *)
Lemma fill_lookup m px py ch k :
  xbegin <= px < xend -> ybegin <= py < yend -> chbegin <= ch < chend ->
  let addr :=
    data + (py - ybegin) * ystride + (px - xbegin) * xstride
    + ImageSpec.pixel_bytes spec chbegin ch in
  let m' := for_loop ybegin yend row m in
  (ImageSpec.channelformat spec ch = TypeFloat -> 0 <= k < 4 ->
   m' !! (addr + k) = Some (FloatByte (fill_value mc px py ch) k))
  /\ (ImageSpec.channelformat spec ch = TypeHalf -> 0 <= k < 2 ->
      m' !! (addr + k) = Some (HalfByte (fill_value mc px py ch) k)).
Proof.
  intros Hpx Hpy Hch addr m'.
  pose proof (pixel_bytes_mono spec chbegin (ch + 1) chend ltac:(lia) ltac:(lia))
    as Hm.
  rewrite pixel_bytes_succ in Hm by lia.
  pose proof (pixel_bytes_mono spec chbegin chbegin ch ltac:(lia) ltac:(lia)) as Hpos.
  rewrite pixel_bytes_same in Hpos.
  assert (forall v,
            0 <= k < TypeDesc_size (ImageSpec.channelformat spec ch) ->
            (forall m0, pixel py px m0 !! (addr + k) = v) ->
            m' !! (addr + k) = v) as Hloops.
  { intros v Hk Hat. subst m'.
    assert (0 < xstride) as Hxpos by lia.
    apply (for_loop_lookup_at row ybegin yend py); [lia| |].
    - intros m0. unfold row.
      apply (for_loop_lookup_at (pixel py) xbegin xend px); [lia|exact Hat|].
      intros px' m1 Hpx' Hne. apply pixel_other; [lia|].
      subst addr.
      assert (px' < px -> (px' - xbegin) * xstride + xstride <= (px - xbegin) * xstride)
        by nia.
      assert (px < px' -> (px - xbegin) * xstride + xstride <= (px' - xbegin) * xstride)
        by nia.
      lia.
    - intros py' m0 Hpy' Hne. unfold row.
      apply for_loop_lookup_other. intros px' m1 Hpx'.
      apply pixel_other; [lia|]. subst addr.
      assert (0 <= (px - xbegin) * xstride <= (xend - xbegin) * xstride - xstride)
        by nia.
      assert (0 <= (px' - xbegin) * xstride <= (xend - xbegin) * xstride - xstride)
        by nia.
      assert (0 <= ystride) by lia.
      assert (py' < py -> (py' - ybegin) * ystride + ystride <= (py - ybegin) * ystride)
        by nia.
      assert (py < py' -> (py - ybegin) * ystride + ystride <= (py' - ybegin) * ystride)
        by nia.
      lia. }
  destruct (fill_pixel_spec px py
              (data + (py - ybegin) * ystride + (px - xbegin) * xstride)
              m chend ltac:(lia)) as (_ & _ & _).
  split; intros Hcf Hk; apply Hloops; try (rewrite Hcf; simpl; lia);
    intros m0; unfold pixel;
    destruct (fill_pixel_spec px py
                (data + (py - ybegin) * ystride + (px - xbegin) * xstride)
                m0 chend ltac:(lia)) as (_ & _ & Hval);
    destruct (Hval ch k Hch) as [Hf Hh];
    subst addr; rewrite <- Z.add_assoc in *; auto.
Qed.

End Fill.

(** C1, amended: with a missing colour whose first component is
    negative, stripe mode is on and the magnitude of that component is the
    base value of channel 0.  The fill then writes, for every float or
    half channel [ch] of the requested range at pixel ([px], [py]): zero
    when [(px - py) & 8] is nonzero, whatever the channel; otherwise the
    base value for channel 0 and the configured value for any other
    channel (the last configured value for channels beyond the list).
    The bytes are those of the channel in the pixel, for a buffer whose
    pixels and rows do not overlap. *)
Theorem stripe_fill_pattern (r : Reader.t) (mc : list float)
  (xbegin xend ybegin yend chbegin chend data xstride ystride : Z) (m : mem)
  (px py ch k : Z) :
  Reader.m_missingcolor r = Vector.of_list mc -> mc <> [] ->
  0 <= chbegin ->
  ImageSpec.pixel_bytes (Reader.m_spec r) chbegin chend <= xstride ->
  (xend - xbegin) * xstride <= ystride ->
  xbegin <= px < xend -> ybegin <= py < yend -> chbegin <= ch < chend ->
  let res :=
    Reader.check_fill_missing r xbegin xend ybegin yend chbegin chend
      data xstride ystride m in
  let addr :=
    data + (py - ybegin) * ystride + (px - xbegin) * xstride
    + ImageSpec.pixel_bytes (Reader.m_spec r) chbegin ch in
  let v :=
    if stripe_mode mc && negb (Z.land (px - py) 8 =? 0) then float_zero
    else if stripe_mode mc && (ch =? 0) then fabsf (configured mc 0)
    else configured mc ch in
  fst res = true
  /\ (ImageSpec.channelformat (Reader.m_spec r) ch = TypeFloat -> 0 <= k < 4 ->
      snd res !! (addr + k) = Some (FloatByte v k))
  /\ (ImageSpec.channelformat (Reader.m_spec r) ch = TypeHalf -> 0 <= k < 2 ->
      snd res !! (addr + k) = Some (HalfByte v k)).
Proof.
  intros Hr Hmc Hchb Hxs Hys Hpx Hpy Hch res addr v.
  assert (res = (true,
            for_loop ybegin yend
              (fun py m =>
                 for_loop xbegin xend
                   (fun px m =>
                      snd (for_loop chbegin chend
                             (Reader.fill_channel r (local_missingcolor mc chend)
                                (stripe_mode mc) px py)
                             (data + (py - ybegin) * ystride
                              + (px - xbegin) * xstride, m))) m) m)) as ->.
  { subst res. unfold Reader.check_fill_missing. rewrite Hr.
    unfold Vector.empty. simpl.
    destruct mc as [|c0 mc']; [congruence|]. simpl.
    unfold local_missingcolor, stripe_mode.
    rewrite (resized_at_index (c0 :: mc') chend 0) by (auto; lia).
    reflexivity. }
  split; [reflexivity|].
  apply (fill_lookup r mc chbegin chend Hmc Hchb xbegin xend ybegin yend
           data xstride ystride Hxs Hys m px py ch k Hpx Hpy Hch).
Qed.

(** [0.5f] and [-0.5f]. *)
Definition half_float : float := S754_finite false 8388608 (-24).
Definition minus_half_float : float := S754_finite true 8388608 (-24).

(** A reader positioned on a part with three [float] channels, with the
    given missing colour. *)
Definition rgb_reader (mc : list float) : Reader.t :=
  Reader.mk [PartInfo.new] 0 0 None 1 (Vector.of_list mc)
    (ImageSpec.set_format (ImageSpec.set_nchannels ImageSpec.default 3) TypeFloat)
    [].

(** C1, as stated, fails: with missing colour [-0.5, 0.5, 0.5], at pixel
    (9, 1), where [(9 - 1) & 8] is 8, channels 1 and 2 are written as 0
    too, not as their configured 0.5 (bytes 4 and 8 of the pixel). *)
Lemma stripe_zeroes_all_channels :
  let r := rgb_reader [minus_half_float; half_float; half_float] in
  let m := snd (Reader.check_fill_missing r 9 10 1 2 0 3 0 12 12 ∅) in
  Z.land (9 - 1) 8 = 8
  /\ m !! 0 = Some (FloatByte float_zero 0)
  /\ m !! 4 = Some (FloatByte float_zero 0)
  /\ m !! 8 = Some (FloatByte float_zero 0)
  /\ m !! 4 <> Some (FloatByte half_float 0).
Proof.
  cbv zeta. split; [reflexivity|].
  assert (H4 : snd (Reader.check_fill_missing
                      (rgb_reader [minus_half_float; half_float; half_float])
                      9 10 1 2 0 3 0 12 12 ∅) !! 4
               = Some (FloatByte float_zero 0)) by (vm_compute; reflexivity).
  split; [vm_compute; reflexivity|]. split; [exact H4|].
  split; [vm_compute; reflexivity|].
  rewrite H4. discriminate.
Qed.

(** The same fill seen through the theorem: channel 1 of pixel (9, 1). *)
Lemma stripe_fill_pattern_witness :
  let r := rgb_reader [minus_half_float; half_float; half_float] in
  snd (Reader.check_fill_missing r 9 10 1 2 0 3 0 12 12 ∅) !! (0 + 4 + 0)
  = Some (FloatByte float_zero 0).
Proof.
  intros r.
  refine (proj1 (proj2 (stripe_fill_pattern r
            [minus_half_float; half_float; half_float]
            9 10 1 2 0 3 0 12 12 ∅ 9 1 1 0
            eq_refl _ _ _ _ _ _ _)) eq_refl _);
    try (vm_compute; congruence); try lia; try discriminate.
Defined.

(** C10 at work: a three-component numeric missing colour. *)
Lemma numeric_missingcolor_stays_empty_witness :
  let env :=
    Reader.mkOpenEnv
      (Some (Reader.MissingColorArray [half_float; half_float; half_float]))
      "" true (Some [Examples.scanline_part
                       [ChannelCatalog.mkEntry "R" EXR_PIXEL_HALF 1 1]]) in
  let r :=
    snd (Reader.open SortImpl.insertion_sort Examples.merge_first
           (fun _ => []) (Examples.fresh_reader []) env) in
  Vector.size (Reader.m_missingcolor r) = 0%nat
  /\ Reader.check_fill_missing r 0 16 0 16 0 1 0 2 32 ∅ = (false, ∅).
Proof.
  intros env r.
  destruct (numeric_missingcolor_stays_empty SortImpl.insertion_sort
              Examples.merge_first (fun _ => []) (Examples.fresh_reader []) env
              [half_float; half_float; half_float] eq_refl)
    as (_ & _ & _ & Hsz & Hfill).
  split; [exact Hsz|apply Hfill].
Defined.

End FillFacts.

(** ** Scanline reads: failures (C8) *)

Module ScanFacts.

Import Codec Reads.

(** The first [n] pipeline calls succeeded. *)
Definition all_succeeded (results : nat -> exr_result_t) (n : nat) : Prop :=
  forall i, (i < n)%nat -> results i = EXR_ERR_SUCCESS.

Lemma succeeded_true rv : succeeded rv = true <-> rv = EXR_ERR_SUCCESS.
Proof. unfold succeeded. apply Z.eqb_eq. Qed.


Lemma all_succeeded_S results n :
  all_succeeded results n -> results n = EXR_ERR_SUCCESS ->
  all_succeeded results (S n).
Proof.
  intros H Hn i Hi. destruct (decide (i = n)) as [->|Hne]; [assumption|].
  apply H. lia.
Qed.

(** A turn ends in [break] exactly when its last call failed, all calls
    before that one having succeeded. *)
Definition stopped (results : nat -> exr_result_t) (st : scan_state) : Prop :=
  succeeded (sc_rv st) = false
  /\ exists k, sc_calls st = S k /\ all_succeeded results k
               /\ results k = sc_rv st.

Definition running (results : nat -> exr_result_t) (st : scan_state) : Prop :=
  succeeded (sc_rv st) = true /\ all_succeeded results (sc_calls st).

Section Scanlines.

Variable hdr : option exr_part.
Variable results : nat -> exr_result_t.
Variable spec : ImageSpec.t.
Variables yend chbegin chend scansperchunk pixelbytes scanlinebytes : Z.

Let body := scan_body hdr results spec yend chbegin chend scansperchunk
              pixelbytes scanlinebytes.
Let loop := scan_loop hdr results spec yend chbegin chend scansperchunk
              pixelbytes scanlinebytes.

Lemma scan_body_calls st :
  all_succeeded results (sc_calls st) ->
  match body st with
  | (false, st') => running results st'
  | (true, st') => stopped results st'
  end.
Proof.
  intros Hall. unfold body, scan_body.
  destruct (if negb (Z.rem (sc_y st - ImageSpec.y spec) scansperchunk =? 0)
            then _ else _) as [[[cdata nlines] y] bufs].
  cbv zeta.
  destruct (succeeded (results (sc_calls st))) eqn:H1; cbn [negb].
  2:{ split; [exact H1|]. exists (sc_calls st). auto. }
  apply succeeded_true in H1.
  pose proof (all_succeeded_S _ _ Hall H1) as Hall1.
  destruct (succeeded (results (S (sc_calls st)))) eqn:H2; cbn [negb].
  2:{ split; [exact H2|]. exists (S (sc_calls st)). auto. }
  apply succeeded_true in H2.
  pose proof (all_succeeded_S _ _ Hall1 H2) as Hall2.
  destruct (sc_first st).
  - destruct (succeeded (results (S (S (sc_calls st))))) eqn:H3; cbn [negb].
    2:{ split; [exact H3|]. exists (S (S (sc_calls st))). auto. }
    apply succeeded_true in H3.
    pose proof (all_succeeded_S _ _ Hall2 H3) as Hall3.
    destruct (succeeded (results (S (S (S (sc_calls st)))))) eqn:H4; cbn [negb].
    2:{ split; [exact H4|]. exists (S (S (S (sc_calls st)))). auto. }
    apply succeeded_true in H4.
    pose proof (all_succeeded_S _ _ Hall3 H4) as Hall4.
    destruct (negb (ptr_eqb cdata (DataPtr (sc_linedata st))));
      (split; [now apply succeeded_true|exact Hall4]).
  - rewrite (proj2 (succeeded_true _) H2). cbn [negb].
    destruct (succeeded (results (S (S (sc_calls st))))) eqn:H3; cbn [negb].
    2:{ split; [exact H3|]. exists (S (S (sc_calls st))). auto. }
    apply succeeded_true in H3.
    pose proof (all_succeeded_S _ _ Hall2 H3) as Hall3.
    destruct (negb (ptr_eqb cdata (DataPtr (sc_linedata st))));
      (split; [now apply succeeded_true|exact Hall3]).
Qed.

Lemma scan_loop_calls fuel : forall st st',
  running results st ->
  loop fuel st = Some st' ->
  running results st' \/ stopped results st'.
Proof.
  induction fuel as [|fuel IH]; intros st st' Hrun Hloop;
    unfold loop in Hloop; simpl in Hloop;
    destruct (sc_y st <? yend); try discriminate;
    try (injection Hloop as <-; now left).
  pose proof (scan_body_calls st (proj2 Hrun)) as Hbody. unfold body in Hbody.
  destruct (scan_body _ _ _ _ _ _ _ _ _ st) as [[] st1].
  - injection Hloop as <-. now right.
  - apply IH in Hloop; [exact Hloop|]. exact Hbody.
Qed.

(** Every turn that does not break moves [y] forward. *)
Lemma scan_body_progress st st' :
  1 <= scansperchunk -> sc_y st < yend ->
  body st = (false, st') ->
  sc_y st < sc_y st' + sc_nlines st'.
Proof.
  intros Hspc Hy. unfold body, scan_body.
  pose proof (Z.rem_bound_abs (sc_y st - ImageSpec.y spec) scansperchunk
                ltac:(lia)) as Hrem.
  set (invalid := Z.rem (sc_y st - ImageSpec.y spec) scansperchunk) in *.
  destruct (negb (invalid =? 0)) eqn:Hinv.
  - cbv zeta. cbn [ptr_eqb negb].
    repeat match goal with
           | |- context [if ?c then _ else _] => destruct c
           end; intros [= <-]; simpl; lia.
  - destruct ((sc_y st + scansperchunk >? yend) && _) eqn:Hpart.
    + cbv zeta. cbn [ptr_eqb negb].
      repeat match goal with
             | |- context [if ?c then _ else _] => destruct c
             end; intros [= <-]; simpl; lia.
    + cbv zeta. cbn [ptr_eqb negb]. rewrite Z.eqb_refl. cbn [negb].
      repeat match goal with
             | |- context [if ?c then _ else _] => destruct c
             end; intros [= <-]; simpl; lia.
Qed.

Lemma scan_loop_total fuel : forall st,
  1 <= scansperchunk -> (Z.to_nat (yend - sc_y st) <= fuel)%nat ->
  is_Some (loop fuel st).
Proof.
  induction fuel as [|fuel IH]; intros st Hspc Hfuel; unfold loop; simpl;
    destruct (sc_y st <? yend) eqn:Hy; try (eexists; reflexivity); try lia.
  pose proof (scan_body_progress st) as Hprog. unfold body in Hprog.
  destruct (scan_body _ _ _ _ _ _ _ _ _ st) as [[] st1];
    [eexists; reflexivity|].
  specialize (Hprog st1 Hspc ltac:(lia) eq_refl).
  apply IH; [assumption|]. simpl. lia.
Qed.

End Scanlines.

Section WithLibraries.

Variable stdlib : StdSort.
Variable basetype_merge : TypeDesc -> TypeDesc -> TypeDesc.

Lemma seek_subimage_set_missingcolor r mc subimage miplevel :
  Reader.seek_subimage stdlib basetype_merge (Reader.set_missingcolor r mc)
    subimage miplevel
  = (fst (Reader.seek_subimage stdlib basetype_merge r subimage miplevel),
     Reader.set_missingcolor
       (snd (Reader.seek_subimage stdlib basetype_merge r subimage miplevel)) mc).
Proof.
  unfold Reader.seek_subimage.
  change (Reader.m_nsubimages (Reader.set_missingcolor r mc))
    with (Reader.m_nsubimages r).
  change (Reader.part_at (Reader.set_missingcolor r mc) subimage)
    with (Reader.part_at r subimage).
  destruct ((subimage <? 0) || _); [reflexivity|].
  destruct (PartInfo.initialized _).
  - cbn [negb]. cbv iota beta.
    destruct ((miplevel <? 0) || _); [reflexivity|].
    destruct (miplevel =? 0);
      destruct (PartInfo.levelmode (Reader.part_at r subimage)); reflexivity.
  - change (Reader.m_exr_context (Reader.set_missingcolor r mc))
      with (Reader.m_exr_context r).
    change (Reader.errors (Reader.set_missingcolor r mc)) with (Reader.errors r).
    destruct (PartInfo.parse_header _ _ _ _ _ _) as [[[] part] errs];
      [|reflexivity].
    cbn [negb]. cbv iota beta.
    destruct ((miplevel <? 0) || _); [reflexivity|].
    destruct (miplevel =? 0);
      destruct (PartInfo.levelmode (PartInfo.set_initialized part true));
      reflexivity.
Qed.

Lemma seek_subimage_context r subimage miplevel :
  Reader.m_exr_context
    (snd (Reader.seek_subimage stdlib basetype_merge r subimage miplevel))
  = Reader.m_exr_context r.
Proof.
  unfold Reader.seek_subimage.
  destruct ((subimage <? 0) || _); [reflexivity|].
  destruct (PartInfo.initialized _).
  - cbn [negb]. cbv iota beta.
    destruct ((miplevel <? 0) || _); [reflexivity|].
    destruct (miplevel =? 0);
      destruct (PartInfo.levelmode (Reader.part_at r subimage)); reflexivity.
  - destruct (PartInfo.parse_header _ _ _ _ _ _) as [[[] part] errs];
      [|reflexivity].
    cbn [negb]. cbv iota beta.
    destruct ((miplevel <? 0) || _); [reflexivity|].
    destruct (miplevel =? 0);
      destruct (PartInfo.levelmode (PartInfo.set_initialized part true));
      reflexivity.
Qed.

Lemma init_part_set_missingcolor r mc subimage miplevel :
  Reader.init_part stdlib basetype_merge (Reader.set_missingcolor r mc)
    subimage miplevel
  = (fst (Reader.init_part stdlib basetype_merge r subimage miplevel),
     Reader.set_missingcolor
       (snd (Reader.init_part stdlib basetype_merge r subimage miplevel)) mc).
Proof.
  unfold Reader.init_part.
  change (Reader.part_at (Reader.set_missingcolor r mc) subimage)
    with (Reader.part_at r subimage).
  destruct (PartInfo.initialized _); [reflexivity|].
  rewrite seek_subimage_set_missingcolor.
  destruct (Reader.seek_subimage stdlib basetype_merge r subimage miplevel)
    as [[] r']; reflexivity.
Qed.

Lemma init_part_context r subimage miplevel :
  Reader.m_exr_context
    (snd (Reader.init_part stdlib basetype_merge r subimage miplevel))
  = Reader.m_exr_context r.
Proof.
  unfold Reader.init_part.
  destruct (PartInfo.initialized _); [reflexivity|].
  pose proof (seek_subimage_context r subimage miplevel) as H.
  destruct (Reader.seek_subimage stdlib basetype_merge r subimage miplevel)
    as [[] r']; exact H.
Qed.

(** What a scanline read delivers, apart from the reader itself. *)
Definition delivered (res : option (bool * Reader.t * mem * nat))
  : option (bool * mem * nat) :=
  (fun '(b, _, m, n) => (b, m, n)) <$> res.

(** C8: in [read_native_scanlines] a pipeline call that fails (the
    chunk-info lookup, the initialize or update, the choice of routines,
    the decode run, of any chunk) is the last call made, and the read
    returns false.  No fill is attempted: the result and the buffer are
    the same whatever missing colour is configured.  With a positive
    number of scanlines per chunk the read always returns. *)
Theorem scanline_read_fails_on_codec_failure
  (r : Reader.t) (results : nat -> exr_result_t)
  (subimage miplevel ybegin yend chbegin chend : Z) (buf : mem) :
  let res :=
    read_native_scanlines stdlib basetype_merge r results subimage miplevel
      ybegin yend chbegin chend buf in
  (forall b r' m n, res = Some (b, r', m, n) ->
     forall i, (i < n)%nat -> results i <> EXR_ERR_SUCCESS ->
       b = false /\ n = S i)
  /\ (forall mc,
        delivered
          (read_native_scanlines stdlib basetype_merge
             (Reader.set_missingcolor r mc) results subimage miplevel
             ybegin yend chbegin chend buf)
        = delivered res)
  /\ (forall scansperchunk,
        exr_get_part (Reader.m_exr_context r) subimage
          ≫= hdr_scanlines_per_chunk = Some scansperchunk ->
        1 <= scansperchunk -> is_Some res).
Proof.
  cbv zeta. unfold read_native_scanlines. split; [|split].
  - intros b r' m n Hres i Hi Hfail.
    destruct (Reader.m_exr_context r); [|injection Hres as <- <- <- <-; lia].
    destruct (Reader.init_part _ _ _ _ _) as [spec r1].
    destruct (_ ≫= hdr_scanlines_per_chunk) as [spc|];
      [|injection Hres as <- <- <- <-; lia].
    match type of Hres with
    | match ?l with _ => _ end = _ => destruct l as [st|] eqn:Hloop
    end; [|discriminate].
    injection Hres as <- <- <- <-.
    apply scan_loop_calls in Hloop.
    + destruct Hloop as [[_ Hall]|[Hrv (k & Hk & Hall & Hres)]].
      * now specialize (Hall i Hi).
      * split; [exact Hrv|]. rewrite Hk in *.
        destruct (decide (i = k)) as [->|Hne]; [reflexivity|].
        exfalso. apply Hfail, Hall. lia.
    + split; [reflexivity|]. intros j Hj. simpl in Hj. lia.
  - intros mc. simpl.
    destruct (Reader.m_exr_context r) eqn:Hctx; [|reflexivity].
    rewrite init_part_set_missingcolor.
    pose proof (init_part_context r subimage miplevel) as Hc.
    destruct (Reader.init_part stdlib basetype_merge r subimage miplevel)
      as [spec r1]. simpl in *.
    destruct (_ ≫= hdr_scanlines_per_chunk) as [spc|]; [|reflexivity].
    destruct (scan_loop _ _ _ _ _ _ _ _ _ _ _); reflexivity.
  - intros spc Hspc Hpos.
    destruct (Reader.m_exr_context r) eqn:Hctx; [|eexists; reflexivity].
    pose proof (init_part_context r subimage miplevel) as Hc.
    destruct (Reader.init_part _ _ _ _ _) as [spec r1]. simpl in Hc.
    rewrite Hc, Hctx, Hspc.
    destruct (scan_loop_total
                (exr_get_part (Some l) subimage) results spec yend chbegin
                (clamp chend (chbegin + 1) (ImageSpec.nchannels spec)) spc
                (ImageSpec.pixel_bytes spec chbegin
                   (clamp chend (chbegin + 1) (ImageSpec.nchannels spec)))
                (ImageSpec.width spec
                 * ImageSpec.pixel_bytes spec chbegin
                     (clamp chend (chbegin + 1) (ImageSpec.nchannels spec)))
                (Z.to_nat (yend - ybegin))
                (mkScan ybegin spc 0 true zero_pipeline EXR_ERR_SUCCESS 0
                   (mkBuffers buf ∅ 0)) Hpos ltac:(simpl; lia)) as [st Hst].
    rewrite Hst. eexists; reflexivity.
Qed.

End WithLibraries.

(** A reader opened on a scanline file of 16 x 16 pixels, one [half]
    channel "R", four scanlines per chunk. *)
Definition scanline_reader : Reader.t :=
  snd (Reader.open SortImpl.insertion_sort Examples.merge_first
         (fun _ => []) (Examples.fresh_reader [])
         (Reader.mkOpenEnv None "" true
            (Some [Examples.scanline_part
                     [ChannelCatalog.mkEntry "R" EXR_PIXEL_HALF 1 1]]))).

(** The third pipeline call fails. *)
Definition third_call_fails (i : nat) : exr_result_t :=
  if Nat.eqb i 2 then 1 else EXR_ERR_SUCCESS.

(** C8 at work: reading scanlines 0 to 7, the choice of routines for
    the first chunk fails; the read stops after that call and returns
    false. *)
Lemma scanline_read_fails_on_codec_failure_witness :
  exists r' m,
    read_native_scanlines SortImpl.insertion_sort Examples.merge_first
      scanline_reader third_call_fails 0 0 0 8 0 1 ∅
    = Some (false, r', m, 3%nat).
Proof.
  destruct (scanline_read_fails_on_codec_failure SortImpl.insertion_sort
              Examples.merge_first scanline_reader third_call_fails
              0 0 0 8 0 1 ∅) as (Hfail & _ & Htotal).
  destruct (Htotal 4 eq_refl ltac:(lia)) as [[[[b r'] m] n] Hres].
  assert (n = 3%nat) as ->.
  { revert Hres. vm_compute. congruence. }
  destruct (Hfail b r' m 3%nat Hres 2%nat ltac:(lia) ltac:(discriminate))
    as [-> _].
  exists r', m. exact Hres.
Defined.

End ScanFacts.

(** ** Tile reads: failures are isolated (C2) *)

Module TileFacts.

Import Codec Reads MemFacts.





Section Tiles.

Variable r : Reader.t.
Variable hdr : option exr_part.
Variable results : nat -> exr_result_t.
Variable spec : ImageSpec.t.
Variables miplevel xbegin ybegin chbegin chend : Z.
Variables tilew tileh firstxtile firstytile pixelbytes scanlinebytes : Z.

Let body :=
  tile_body r hdr results spec miplevel xbegin ybegin chbegin chend
    tilew tileh firstxtile firstytile pixelbytes scanlinebytes.











End Tiles.





(** A tiled part of 32 x 16 pixels in tiles of 16 x 16. *)
Definition tiled_part (chans : list ChannelCatalog.exr_attr_chlist_entry_t)
  : exr_part :=
  mkExrPart (Some (mkBox 0 0 31 15)) (Some (mkBox 0 0 31 15))
    (Some EXR_STORAGE_TILED)
    (Some (16, 16, EXR_TILE_ONE_LEVEL, EXR_TILE_ROUND_DOWN)) (Some (1, 1))
    (Some chans) None true (Some 16) (fun _ => Some (32, 16)).




End TileFacts.

(** ** Scanline reads: what is delivered (C3) *)

Module ScanContent.

Import Codec Reads MemFacts.

(** A fold over a list of which one element alone touches offset [b]. *)
Lemma fold_left_lookup_keep {A} (f : mem -> A -> mem) (l : list A) b v :
  (forall e m, In e l -> m !! b = v -> f m e !! b = v) ->
  forall m, m !! b = v -> fold_left f l m !! b = v.
Proof.
  induction l as [|e l IH]; intros H m Hm; simpl; [exact Hm|].
  apply IH.
  - intros e' m' Hin. apply H. now right.
  - apply H; [now left|exact Hm].
Qed.

Lemma fold_left_lookup_at {A} (f : mem -> A -> mem) (l : list A) b v m :
  (exists e0, In e0 l /\ forall m, f m e0 !! b = v) ->
  (forall e, In e l ->
     (forall m, f m e !! b = v) \/ (forall m, f m e !! b = m !! b)) ->
  fold_left f l m !! b = v.
Proof.
  intros (e0 & Hin & Hat) Hall. revert m.
  induction l as [|e l IH]; intros m; [inversion Hin|]. simpl.
  destruct Hin as [->|Hin].
  - apply fold_left_lookup_keep; [|apply Hat].
    intros e' m' Hin' Hm'.
    destruct (Hall e' (or_intror Hin')) as [H|H]; [apply H|].
    now rewrite H.
  - apply IH; [exact Hin|].
    intros e' Hin'. apply Hall. now right.
Qed.

Lemma fold_left_lookup_other {A} (f : mem -> A -> mem) (l : list A) b m :
  (forall e m, In e l -> f m e !! b = m !! b) ->
  fold_left f l m !! b = m !! b.
Proof.
  intros H. apply fold_left_lookup_keep; [|reflexivity].
  intros e m' Hin Hm'. now rewrite H.
Qed.

Lemma Forall2_In_r {A B} (R : A -> B -> Prop) l l' y :
  Forall2 R l l' -> In y l' -> exists x, In x l /\ R x y.
Proof.
  induction 1 as [|x y' l l' HR HF IH]; intros Hin; [inversion Hin|].
  destruct Hin as [->|Hin]; [exists x; split; [now left|exact HR]|].
  destruct (IH Hin) as (x' & Hx & HRx). exists x'. split; [now right|exact HRx].
Qed.

Lemma Forall2_In_l {A B} (R : A -> B -> Prop) l l' x :
  Forall2 R l l' -> In x l -> exists y, In y l' /\ R x y.
Proof.
  induction 1 as [|x' y l l' HR HF IH]; intros Hin; [inversion Hin|].
  destruct Hin as [->|Hin]; [exists y; split; [now left|exact HR]|].
  destruct (IH Hin) as (y' & Hy & HRy). exists y'. split; [now right|exact HRy].
Qed.

(** [bind_channel] on channels with distinct names: the channel named
    [nm] is bound, the others stay as they are. *)
Lemma bind_channel_spec nm ptr ps ls chans :
  NoDup (map channel_name chans) ->
  In nm (map channel_name chans) ->
  exists chans',
    bind_channel nm ptr ps ls chans = Some chans'
    /\ Forall2 (fun ch ch' =>
                  if String.eqb nm (channel_name ch)
                  then ch' = mkChannel (channel_name ch) (bytes_per_element ch)
                               ptr ps ls
                  else ch' = ch) chans chans'.
Proof.
  induction chans as [|ch chans IH]; intros Hnd Hin; [inversion Hin|].
  simpl in *. apply NoDup_cons in Hnd as [Hnotin Hnd].
  destruct (String.eqb nm (channel_name ch)) eqn:Heq.
  - eexists. split; [reflexivity|]. constructor; [now rewrite Heq|].
    apply String.eqb_eq in Heq. subst nm.
    apply Forall_Forall2_diag, Forall_forall. intros ch2 Hch2.
    destruct (String.eqb (channel_name ch) (channel_name ch2)) eqn:H2;
      [|reflexivity].
    apply String.eqb_eq in H2. exfalso. apply Hnotin. rewrite H2.
    apply list_elem_of_In in Hch2. apply list_elem_of_In. now apply in_map.
  - destruct Hin as [Hin|Hin].
    { apply String.eqb_neq in Heq. congruence. }
    destruct (IH Hnd Hin) as (chans' & -> & HF).
    eexists. split; [reflexivity|]. constructor; [now rewrite Heq|exact HF].
Qed.

Lemma Forall2_compose {A B C} (R : A -> B -> Prop) (Q : B -> C -> Prop)
  (T : A -> C -> Prop) l1 l2 l3 :
  (forall a b c, R a b -> Q b c -> T a c) ->
  Forall2 R l1 l2 -> Forall2 Q l2 l3 -> Forall2 T l1 l3.
Proof.
  intros HT H12. revert l3.
  induction H12 as [|a b l1 l2 HR H12 IH]; intros l3 H23;
    inversion H23; subst; constructor; eauto.
Qed.

Lemma NoDup_map_In_inj {A B} (f : A -> B) (l : list A) a b :
  NoDup (map f l) -> In a l -> In b l -> f a = f b -> a = b.
Proof.
  induction l as [|x l IH]; intros Hnd Ha Hb Hab; [inversion Ha|].
  simpl in Hnd. apply NoDup_cons in Hnd as [Hnotin Hnd].
  destruct Ha as [->|Ha], Hb as [->|Hb]; auto.
  - exfalso. apply Hnotin. rewrite Hab. apply list_elem_of_In. now apply in_map.
  - exfalso. apply Hnotin. rewrite <- Hab. apply list_elem_of_In. now apply in_map.
Qed.

Section Content.

Variable spec : ImageSpec.t.
Variables chbegin chend : Z.
Variable fch : list ChannelCatalog.exr_attr_chlist_entry_t.

(** Name, size and place in the pixel of requested channel [c]. *)
Definition name_of (c : Z) : string := ImageSpec.channel_name spec c.
Definition size_of (c : Z) : Z := TypeDesc_size (ImageSpec.channelformat spec c).
Definition offset_of (c : Z) : Z := ImageSpec.pixel_bytes spec chbegin c.

Definition entry_size (e : ChannelCatalog.exr_attr_chlist_entry_t) : Z :=
  TypeDesc_size (TypeDesc_from_ImfPixelType (ChannelCatalog.pixel_type e)).

(** The requested channels are channels of the file, with the sample
    size the spec gives them, and no two channels share a name. *)
Record channels_agree : Prop := {
  ca_range : 0 <= chbegin <= chend;
  ca_found : forall c, chbegin <= c < chend ->
    exists e, In e fch /\ ChannelCatalog.name e = name_of c
              /\ entry_size e = size_of c;
  ca_file : NoDup (map ChannelCatalog.name fch);
  ca_requested : forall c c', chbegin <= c < chend -> chbegin <= c' < chend ->
    name_of c = name_of c' -> c = c'
}.

(** The pipeline's channels are those of the file. *)
Definition of_file (chans : list exr_coding_channel_info_t) : Prop :=
  Forall2 (fun e ch => channel_name ch = ChannelCatalog.name e
                       /\ bytes_per_element ch = entry_size e) fch chans.

Definition requested (nm : string) : Prop :=
  exists c, chbegin <= c < chend /\ nm = name_of c.

(** Channels that were not asked for are bound to nothing. *)
Definition idle (chans : list exr_coding_channel_info_t) : Prop :=
  forall ch, In ch chans ->
    decode_to_ptr ch = NullPtr \/ requested (channel_name ch).

(** The requested channels below [n] are bound at their place in the
    pixel at [cdata]. *)
Definition bound_upto (n : Z) (cdata : pointer) (ps ls : Z)
  (chans : list exr_coding_channel_info_t) : Prop :=
  forall ch c, In ch chans -> chbegin <= c < n ->
    channel_name ch = name_of c ->
    decode_to_ptr ch = ptr_add cdata (offset_of c)
    /\ user_pixel_stride ch = ps /\ user_line_stride ch = ls
    /\ bytes_per_element ch = size_of c.

Lemma of_file_names chans :
  of_file chans -> map channel_name chans = map ChannelCatalog.name fch.
Proof.
  unfold of_file. induction 1 as [|e ch l l' [Hn _] HF IH]; simpl;
    [reflexivity|]. now rewrite Hn, IH.
Qed.

Hypothesis Hagree : channels_agree.

Lemma of_file_size chans ch c :
  of_file chans -> In ch chans -> chbegin <= c < chend ->
  channel_name ch = name_of c -> bytes_per_element ch = size_of c.
Proof.
  intros Hof Hin Hc Hname.
  destruct (Forall2_In_r _ _ _ _ Hof Hin) as (e & He & Hn & Hb).
  destruct (ca_found Hagree c Hc) as (e' & He' & Hn' & Hs').
  assert (e = e') as ->; [|congruence].
  apply (NoDup_map_In_inj ChannelCatalog.name fch); auto.
  - exact (ca_file Hagree).
  - congruence.
Qed.

Lemma bind_step cdata ps ls n co chans :
  chbegin <= n < chend ->
  co = offset_of n -> of_file chans -> idle chans ->
  bound_upto n cdata ps ls chans ->
  exists chans',
    bind_channel (ImageSpec.channel_name spec n) (ptr_add cdata co) ps ls chans
    = Some chans'
    /\ of_file chans' /\ idle chans'
    /\ bound_upto (n + 1) cdata ps ls chans'.
Proof.
  intros Hn -> Hof Hidle Hbound.
  destruct (ca_found Hagree n Hn) as (e & He & Hne & Hse).
  destruct (bind_channel_spec (ImageSpec.channel_name spec n)
              (ptr_add cdata (offset_of n)) ps ls chans) as (chans' & Hb & HF).
  { rewrite (of_file_names _ Hof). exact (ca_file Hagree). }
  { rewrite (of_file_names _ Hof). fold (name_of n). rewrite <- Hne.
    now apply in_map. }
  exists chans'. split; [exact Hb|]. split; [|split].
  - unfold of_file in *. eapply Forall2_compose; [|exact Hof|exact HF].
    intros e0 ch0 ch1 HR HQ. simpl in HQ.
    destruct (String.eqb _ _); subst; simpl; exact HR.
  - intros ch' Hin'.
    destruct (Forall2_In_r _ _ _ _ HF Hin') as (ch & Hin & HR).
    destruct (String.eqb (ImageSpec.channel_name spec n) (channel_name ch))
      eqn:Heq; subst ch'.
    + apply String.eqb_eq in Heq. right. exists n.
      split; [lia|]. symmetry. exact Heq.
    + now apply Hidle.
  - intros ch' c Hin' Hc Hname.
    destruct (Forall2_In_r _ _ _ _ HF Hin') as (ch & Hin & HR).
    destruct (String.eqb (ImageSpec.channel_name spec n) (channel_name ch))
      eqn:Heq; subst ch'.
    + apply String.eqb_eq in Heq. simpl in Hname |- *.
      assert (c = n) as ->.
      { apply (ca_requested Hagree); [lia|lia|].
        unfold name_of in *. congruence. }
      repeat split. eapply of_file_size; eauto.
    + apply String.eqb_neq in Heq.
      assert (c <> n) by (intros ->; apply Heq; symmetry; exact Hname).
      apply Hbound; [exact Hin|lia|exact Hname].
Qed.

Lemma bind_channels_spec cdata ps ls decoder :
  of_file (channels decoder) -> idle (channels decoder) ->
  let decoder' := bind_channels spec chbegin chend cdata ps ls decoder in
  of_file (channels decoder')
  /\ idle (channels decoder')
  /\ bound_upto chend cdata ps ls (channels decoder')
  /\ chunk decoder' = chunk decoder.
Proof.
  intros Hof Hidle. unfold bind_channels. cbv zeta. simpl.
  pose proof (ca_range Hagree) as [Hr0 Hr1].
  match goal with
  | |- context [for_loop chbegin chend ?body ?s0] =>
      assert (HJ :
        (fun n (st : Z * list exr_coding_channel_info_t) =>
           fst st = offset_of n /\ of_file (snd st) /\ idle (snd st)
           /\ bound_upto n cdata ps ls (snd st))
          chend (for_loop chbegin chend body s0))
  end.
  { apply for_loop_invariant; [exact Hr1| |].
    - simpl. split; [symmetry; apply FillFacts.pixel_bytes_same|].
      split; [exact Hof|]. split; [exact Hidle|].
      intros ch c _ Hc. lia.
    - intros n [co chans] Hn (Hco & Hof' & Hidle' & Hbound). simpl in *.
      destruct (bind_step cdata ps ls n co chans Hn Hco Hof' Hidle' Hbound)
        as (chans' & -> & H1 & H2 & H3).
      simpl. split; [|tauto]. subst co. unfold offset_of, size_of.
      rewrite FillFacts.pixel_bytes_succ by lia. reflexivity. }
  cbv beta in HJ. tauto.
Qed.

(** *** What a decode run writes *)

Lemma offset_of_nonneg c : chbegin <= c -> 0 <= offset_of c.
Proof.
  intros Hc. pose proof (ca_range Hagree).
  pose proof (FillFacts.pixel_bytes_mono spec chbegin chbegin c
                ltac:(lia) ltac:(lia)) as H1.
  now rewrite FillFacts.pixel_bytes_same in H1.
Qed.

Lemma offset_of_next c c' :
  chbegin <= c < c' -> offset_of c + size_of c <= offset_of c'.
Proof.
  intros Hc. pose proof (ca_range Hagree).
  pose proof (FillFacts.pixel_bytes_mono spec chbegin (c + 1) c'
                ltac:(lia) ltac:(lia)) as H1.
  rewrite FillFacts.pixel_bytes_succ in H1 by lia. exact H1.
Qed.

Lemma size_of_nonneg c : 0 <= size_of c.
Proof. apply FillFacts.TypeDesc_size_nonneg. Qed.

(** The sample cells of distinct channels, pixels or lines are apart. *)
Lemma cell_unique pb ls w j i o j' i' o' sz' :
  0 <= o < pb -> 0 <= o' -> o' + sz' <= pb -> w * pb <= ls ->
  0 <= i < w -> 0 <= i' < w ->
  j' * ls + i' * pb + o' <= j * ls + i * pb + o < j' * ls + i' * pb + o' + sz' ->
  j = j' /\ i = i' /\ o' <= o < o' + sz'.
Proof.
  intros Ho Ho' Hsz Hls Hi Hi' Hb.
  assert (0 <= i * pb /\ i * pb + pb <= w * pb) by nia.
  assert (0 <= i' * pb /\ i' * pb + pb <= w * pb) by nia.
  assert (j = j') as ->.
  { destruct (Z.lt_trichotomy j j') as [Hlt|[Heq|Hgt]]; [|exact Heq|].
    - assert (j * ls + ls <= j' * ls) by nia. lia.
    - assert (j' * ls + ls <= j * ls) by nia. lia. }
  assert (i = i') as ->.
  { destruct (Z.lt_trichotomy i i') as [Hlt|[Heq|Hgt]]; [|exact Heq|].
    - assert (i * pb + pb <= i' * pb) by nia. lia.
    - assert (i' * pb + pb <= i * pb) by nia. lia. }
  repeat split; lia.
Qed.

Section Run.

Variable cinfo : exr_chunk_block_info_t.
Variable ls : Z.

Let pb := offset_of chend.

Hypothesis Hls : width cinfo * pb <= ls.

(** A channel bound at offset [o] of the pixel, [sz] bytes a sample,
    writing at [p + o]. *)
Lemma write_samples_at ch p o j i k m :
  user_pixel_stride ch = pb -> user_line_stride ch = ls ->
  0 <= o -> o + bytes_per_element ch <= pb ->
  0 <= j < height cinfo -> 0 <= i < width cinfo ->
  0 <= k < bytes_per_element ch ->
  write_samples cinfo ch (p + o) m !! (p + j * ls + i * pb + o + k)
  = Some (SampleByte (channel_name ch) (start_x cinfo + i) (start_y cinfo + j) k).
Proof.
  intros Hps Hlsd Ho Hsz Hj Hi Hk. unfold write_samples. rewrite Hps, Hlsd.
  apply (for_loop_lookup_at _ 0 (height cinfo) j); [lia| |].
  - intros m0. apply (for_loop_lookup_at _ 0 (width cinfo) i); [lia| |].
    + intros m1. replace (p + j * ls + i * pb + o + k)
        with (p + o + j * ls + i * pb + k) by lia.
      now apply store_bytes_at.
    + intros i' m1 Hi' Hne. apply store_bytes_other. intros Hb.
      destruct (cell_unique pb ls (width cinfo) j i (o + k) j i' o
                  (bytes_per_element ch)) as (_ & Heq & _); lia.
  - intros j' m0 Hj' Hne. apply for_loop_lookup_other. intros i' m1 Hi'.
    apply store_bytes_other. intros Hb.
    destruct (cell_unique pb ls (width cinfo) j i (o + k) j' i' o
                (bytes_per_element ch)) as (Heq & _ & _); lia.
Qed.

(** Bytes outside every sample cell of the channel are left alone. *)
Lemma write_samples_other ch q b m :
  (forall j i, 0 <= j < height cinfo -> 0 <= i < width cinfo ->
     ~ (q + j * user_line_stride ch + i * user_pixel_stride ch <= b
        < q + j * user_line_stride ch + i * user_pixel_stride ch
          + bytes_per_element ch)) ->
  write_samples cinfo ch q m !! b = m !! b.
Proof.
  intros H. unfold write_samples.
  apply for_loop_lookup_other. intros j m0 Hj.
  apply for_loop_lookup_other. intros i m1 Hi.
  apply store_bytes_other. now apply H.
Qed.

(** What a run writes into the caller's buffer ([true]) or into the
    scratch vector ([false]). *)
Definition writes_to (data_side : bool) (m : mem)
  (ch : exr_coding_channel_info_t) : mem :=
  match decode_to_ptr ch, data_side with
  | DataPtr q, true | ScratchPtr q, false => write_samples cinfo ch q m
  | _, _ => m
  end.

Lemma decoding_run_sides chans : forall b,
  fold_left (decode_channel cinfo) chans b
  = mkBuffers (fold_left (writes_to true) chans (data b))
      (fold_left (writes_to false) chans (fullchunk b)) (fullchunk_size b).
Proof.
  induction chans as [|ch chans IH]; intros b; simpl; [now destruct b|].
  rewrite IH. unfold decode_channel, writes_to.
  destruct (decode_to_ptr ch); reflexivity.
Qed.

Definition side_ptr (data_side : bool) (p : Z) : pointer :=
  if data_side then DataPtr p else ScratchPtr p.

Variable chans : list exr_coding_channel_info_t.
Variable side : bool.
Variable p : Z.

Hypothesis Hof : of_file chans.
Hypothesis Hidle : idle chans.
Hypothesis Hbound : bound_upto chend (side_ptr side p) pb ls chans.

Lemma bound_channel ch :
  In ch chans ->
  decode_to_ptr ch = NullPtr
  \/ exists c, chbegin <= c < chend /\ channel_name ch = name_of c
       /\ (forall m, writes_to side m ch
                      = write_samples cinfo ch (p + offset_of c) m)
       /\ (forall m, writes_to (negb side) m ch = m)
       /\ user_pixel_stride ch = pb /\ user_line_stride ch = ls
       /\ bytes_per_element ch = size_of c.
Proof.
  intros Hin. destruct (Hidle ch Hin) as [Hnull|(c & Hc & Hname)];
    [now left|right].
  destruct (Hbound ch c Hin Hc Hname) as (Hptr & Hps & Hlsd & Hbpe).
  exists c. split; [exact Hc|]. split; [exact Hname|].
  split; [|split; [|tauto]]; intros m; unfold writes_to; rewrite Hptr;
    destruct side; reflexivity.
Qed.

(** The other buffer is not written. *)
Lemma run_other_side m : fold_left (writes_to (negb side)) chans m = m.
Proof.
  assert (forall l, (forall ch, In ch l -> In ch chans) ->
            forall m, fold_left (writes_to (negb side)) l m = m) as H.
  { induction l as [|ch l IH]; intros Hsub m0; [reflexivity|]. simpl.
    rewrite IH by (intros ch' Hch'; apply Hsub; now right).
    destruct (bound_channel ch (Hsub ch (or_introl eq_refl)))
      as [Hnull|(c & _ & _ & _ & Hother & _)]; [|apply Hother].
    unfold writes_to. now rewrite Hnull. }
  now apply H.
Qed.

(** The samples of the requested channels, line by line. *)
Lemma run_at m c j i k :
  chbegin <= c < chend ->
  0 <= j < height cinfo -> 0 <= i < width cinfo -> 0 <= k < size_of c ->
  fold_left (writes_to side) chans m
    !! (p + j * ls + i * pb + offset_of c + k)
  = Some (SampleByte (name_of c) (start_x cinfo + i) (start_y cinfo + j) k).
Proof.
  intros Hc Hj Hi Hk.
  pose proof (ca_range Hagree) as Hr.
  assert (forall ch, In ch chans -> channel_name ch = name_of c ->
            forall m0, writes_to side m0 ch
                         !! (p + j * ls + i * pb + offset_of c + k)
                       = Some (SampleByte (name_of c) (start_x cinfo + i)
                                 (start_y cinfo + j) k)) as Hsame.
  { intros ch Hin Hname m0.
    destruct (Hbound ch c Hin Hc Hname) as (Hptr & Hps & Hlsd & Hbpe).
    unfold writes_to. rewrite Hptr.
    assert (write_samples cinfo ch (p + offset_of c) m0
              !! (p + j * ls + i * pb + offset_of c + k)
            = Some (SampleByte (name_of c) (start_x cinfo + i)
                      (start_y cinfo + j) k)) as Hw.
    { rewrite <- Hname. apply write_samples_at; auto; try lia.
      - apply offset_of_nonneg. lia.
      - rewrite Hbpe. pose proof (offset_of_next c chend). unfold pb. lia. }
    destruct side; exact Hw. }
  apply fold_left_lookup_at.
  - destruct (ca_found Hagree c Hc) as (e & He & Hne & _).
    destruct (Forall2_In_l _ _ _ _ Hof He) as (ch & Hin & Hn & _).
    exists ch. split; [exact Hin|]. apply Hsame; [exact Hin|congruence].
  - intros ch Hin.
    destruct (bound_channel ch Hin)
      as [Hnull|(c' & Hc' & Hname & Hw & _ & Hps & Hlsd & Hbpe)].
    { right. intros m0. unfold writes_to. now rewrite Hnull. }
    destruct (decide (c' = c)) as [->|Hne].
    { left. now apply Hsame. }
    right. intros m0. rewrite Hw. apply write_samples_other.
    intros j' i' Hj' Hi' Hb. rewrite Hps, Hlsd, Hbpe in Hb.
    pose proof (offset_of_nonneg c' ltac:(lia)).
    pose proof (offset_of_nonneg c ltac:(lia)).
    pose proof (offset_of_next c' chend ltac:(lia)).
    pose proof (offset_of_next c chend ltac:(lia)).
    destruct (cell_unique pb ls (width cinfo) j i (offset_of c + k)
                j' i' (offset_of c') (size_of c'))
      as (_ & _ & Ho); try (unfold pb; lia).
    destruct (Z.lt_trichotomy c c') as [Hlt|[Heq|Hgt]]; [|lia|].
    + pose proof (offset_of_next c c' ltac:(lia)). lia.
    + pose proof (offset_of_next c' c ltac:(lia)). lia.
Qed.

(** Nothing is written outside the lines of the chunk. *)
Lemma run_frame m b :
  ~ (p <= b < p + height cinfo * ls) ->
  fold_left (writes_to side) chans m !! b = m !! b.
Proof.
  intros Hb. apply fold_left_lookup_other. intros ch m0 Hin.
  destruct (bound_channel ch Hin)
    as [Hnull|(c & Hc & Hname & Hw & _ & Hps & Hlsd & Hbpe)].
  { unfold writes_to. now rewrite Hnull. }
  rewrite Hw. apply write_samples_other.
  intros j i Hj Hi Hcell. rewrite Hps, Hlsd, Hbpe in Hcell.
  pose proof (offset_of_nonneg c ltac:(lia)).
  pose proof (offset_of_next c chend ltac:(lia)).
  pose proof (size_of_nonneg c).
  fold pb in H0.
  assert (0 <= i * pb /\ i * pb + pb <= width cinfo * pb) by nia.
  assert (0 <= j * ls /\ j * ls + ls <= height cinfo * ls) by nia.
  lia.
Qed.

End Run.

End Content.

(** *** The loop over the chunks *)

(** The part's spec and the file agree: the spec's window is the file's
    data window, and the file tells the scanlines per chunk and the
    channels. *)
Record file_agrees (hdr : option exr_part) (spec : ImageSpec.t)
  (dw : exr_attr_box2i_t) (scansperchunk : Z)
  (fch : list ChannelCatalog.exr_attr_chlist_entry_t) : Prop := {
  fa_window : hdr ≫= hdr_data_window = Some dw;
  fa_lines : hdr ≫= hdr_scanlines_per_chunk = Some scansperchunk;
  fa_channels : hdr ≫= hdr_channels = Some fch;
  fa_lines_pos : 1 <= scansperchunk;
  fa_y : ImageSpec.y spec = min_y dw;
  fa_height : ImageSpec.height spec = max_y dw - min_y dw + 1;
  fa_width : ImageSpec.width spec = max_x dw - min_x dw + 1;
  fa_width_nonneg : 0 <= ImageSpec.width spec
}.

Definition sel (data_side : bool) (b : buffers) : mem :=
  if data_side then data b else fullchunk b.

Section Loop.

Variable hdr : option exr_part.
Variable results : nat -> exr_result_t.
Variable spec : ImageSpec.t.
Variable dw : exr_attr_box2i_t.
Variable scansperchunk : Z.
Variable fch : list ChannelCatalog.exr_attr_chlist_entry_t.
Variables ybegin yend chbegin chend : Z.

Hypothesis Hfile : file_agrees hdr spec dw scansperchunk fch.
Hypothesis Hagree : channels_agree spec chbegin chend fch.
Hypothesis Hresults : forall i, results i = EXR_ERR_SUCCESS.
Hypothesis Hybegin : ImageSpec.y spec <= ybegin.
Hypothesis Hyend : yend <= ImageSpec.y spec + ImageSpec.height spec.

Let pb := offset_of spec chbegin chend.
Let slb := ImageSpec.width spec * pb.
Let imgend := ImageSpec.y spec + ImageSpec.height spec.

Lemma scanline_block_aligned y0 :
  ImageSpec.y spec <= y0 -> (y0 - ImageSpec.y spec) mod scansperchunk = 0 ->
  scanline_block hdr y0
  = mkChunk (min_x dw) y0 (ImageSpec.width spec)
      (Z.min scansperchunk (imgend - y0)).
Proof.
  intros Hy Hmod. unfold scanline_block.
  rewrite (fa_window _ _ _ _ _ Hfile), (fa_lines _ _ _ _ _ Hfile).
  pose proof (fa_lines_pos _ _ _ _ _ Hfile).
  rewrite (fa_y _ _ _ _ _ Hfile) in *.
  assert ((y0 - min_y dw) `div` scansperchunk * scansperchunk = y0 - min_y dw)
    as Hdiv.
  { pose proof (Z.div_mod (y0 - min_y dw) scansperchunk ltac:(lia)). lia. }
  rewrite Hdiv. unfold imgend.
  rewrite (fa_width _ _ _ _ _ Hfile), (fa_height _ _ _ _ _ Hfile),
    (fa_y _ _ _ _ _ Hfile).
  f_equal; lia.
Qed.

(** Decoding the chunk that starts at line [y0] into the buffer chosen
    by [side], at offset [p]. *)
Lemma decode_chunk side p y0 first decoder bufs :
  ImageSpec.y spec <= y0 -> (y0 - ImageSpec.y spec) mod scansperchunk = 0 ->
  (first = false ->
   of_file fch (channels decoder)
   /\ idle spec chbegin chend (channels decoder)) ->
  let cinfo := scanline_block hdr y0 in
  let decoder1 :=
    if first then decoding_initialize hdr cinfo
    else decoding_update cinfo decoder in
  let decoder2 :=
    bind_channels spec chbegin chend (side_ptr side p) pb slb decoder1 in
  let bufs' := decoding_run decoder2 bufs in
  of_file fch (channels decoder2)
  /\ idle spec chbegin chend (channels decoder2)
  /\ sel (negb side) bufs' = sel (negb side) bufs
  /\ fullchunk_size bufs' = fullchunk_size bufs
  /\ (forall b,
        ~ (p <= b < p + Z.min scansperchunk (imgend - y0) * slb) ->
        sel side bufs' !! b = sel side bufs !! b)
  /\ (forall c j i k,
        chbegin <= c < chend -> 0 <= j < scansperchunk -> y0 + j < imgend ->
        0 <= i < ImageSpec.width spec -> 0 <= k < size_of spec c ->
        sel side bufs' !! (p + j * slb + i * pb + offset_of spec chbegin c + k)
        = Some (SampleByte (name_of spec c) (min_x dw + i) (y0 + j) k)).
Proof.
  intros Hy0 Hal Hdec cinfo decoder1 decoder2 bufs'.
  assert (of_file fch (channels decoder1)
          /\ idle spec chbegin chend (channels decoder1)
          /\ chunk decoder1 = cinfo) as (Hof1 & Hidle1 & Hchunk1).
  { subst decoder1. destruct first.
    - unfold decoding_initialize. rewrite (fa_channels _ _ _ _ _ Hfile). simpl.
      split; [|split; [|reflexivity]].
      + unfold of_file. clear. induction fch; constructor; auto.
      + intros ch Hin. left. apply in_map_iff in Hin as (e & <- & _).
        reflexivity.
    - destruct (Hdec eq_refl). simpl. auto. }
  destruct (bind_channels_spec spec chbegin chend fch Hagree
              (side_ptr side p) pb slb decoder1 Hof1 Hidle1)
    as (Hof2 & Hidle2 & Hbound2 & Hchunk2).
  fold decoder2 in Hof2, Hidle2, Hbound2, Hchunk2.
  split; [exact Hof2|]. split; [exact Hidle2|].
  assert (chunk decoder2
          = mkChunk (min_x dw) y0 (ImageSpec.width spec)
              (Z.min scansperchunk (imgend - y0))) as Hchunk.
  { rewrite Hchunk2, Hchunk1. subst cinfo. now apply scanline_block_aligned. }
  subst bufs'. unfold decoding_run. rewrite decoding_run_sides.
  set (ci := chunk decoder2) in *.
  assert (Hls : width ci * offset_of spec chbegin chend <= slb).
  { rewrite Hchunk. simpl. subst slb pb. lia. }
  split; [|split; [reflexivity|split]].
  - pose proof (run_other_side spec chbegin chend ci slb
                  (channels decoder2) side p Hidle2 Hbound2) as Ho.
    unfold sel. destruct side; cbn [negb data fullchunk]; apply Ho.
  - intros b Hb.
    pose proof (run_frame spec chbegin chend fch Hagree ci slb Hls
                  (channels decoder2) side p Hidle2 Hbound2) as Hf.
    assert (height ci = Z.min scansperchunk (imgend - y0)) as Hh
      by now rewrite Hchunk.
    assert (~ (p <= b < p + height ci * slb)) as Hnb by now rewrite Hh.
    unfold sel. destruct side; cbn [data fullchunk]; now apply Hf.
  - intros c j i k Hc Hj Hyj Hi Hk.
    pose proof (run_at spec chbegin chend fch Hagree ci slb Hls
                  (channels decoder2) side p Hof2 Hidle2 Hbound2) as Ha.
    assert (0 <= j < height ci) as Hjh by (rewrite Hchunk; simpl; lia).
    assert (0 <= i < width ci) as Hiw by (rewrite Hchunk; simpl; lia).
    specialize (Ha (sel side bufs) c j i k Hc Hjh Hiw Hk).
    assert (start_x ci = min_x dw) as Hsx by now rewrite Hchunk.
    assert (start_y ci = y0) as Hsy by now rewrite Hchunk.
    rewrite Hsx, Hsy in Ha.
    unfold sel in *. destruct side; cbn [data fullchunk]; exact Ha.
Qed.

(** Lines [ybegin] up to [y1] of the request, as far as the image goes,
    are in the caller's buffer, each sample at its place. *)
Definition rows_ok (m : mem) (y1 : Z) : Prop :=
  forall y x c k,
    ybegin <= y < y1 -> y < imgend -> 0 <= x < ImageSpec.width spec ->
    chbegin <= c < chend -> 0 <= k < size_of spec c ->
    m !! ((y - ybegin) * slb + x * pb + offset_of spec chbegin c + k)
    = Some (SampleByte (name_of spec c) (min_x dw + x) y k).

(** What holds whenever the loop condition is tested. *)
Definition inv (st : scan_state) : Prop :=
  ybegin <= sc_y st
  /\ sc_linedata st = (sc_y st - ybegin) * slb
  /\ rows_ok (data (sc_buffers st)) (sc_y st)
  /\ succeeded (sc_rv st) = true
  /\ (sc_first st = false ->
      of_file fch (channels (sc_decoder st))
      /\ idle spec chbegin chend (channels (sc_decoder st))).

(** The increment [y += nlines]. *)
Definition next (st : scan_state) : scan_state :=
  mkScan (sc_y st + sc_nlines st) (sc_nlines st) (sc_linedata st)
    (sc_first st) (sc_decoder st) (sc_rv st) (sc_calls st) (sc_buffers st).

Let body :=
  scan_body hdr results spec yend chbegin chend scansperchunk pb slb.

Lemma rem_facts y :
  ImageSpec.y spec <= y ->
  let invalid := Z.rem (y - ImageSpec.y spec) scansperchunk in
  0 <= invalid < scansperchunk
  /\ (y - invalid - ImageSpec.y spec) mod scansperchunk = 0
  /\ ImageSpec.y spec <= y - invalid.
Proof.
  intros Hy invalid. pose proof (fa_lines_pos _ _ _ _ _ Hfile) as Hpos.
  subst invalid. rewrite Z.rem_mod_nonneg by lia.
  pose proof (Z.mod_pos_bound (y - ImageSpec.y spec) scansperchunk ltac:(lia)).
  pose proof (Z.div_mod (y - ImageSpec.y spec) scansperchunk ltac:(lia)) as Hdm.
  split; [lia|]. split; [|].
  - replace (y - (y - ImageSpec.y spec) mod scansperchunk - ImageSpec.y spec)
      with (((y - ImageSpec.y spec) `div` scansperchunk) * scansperchunk) by lia.
    apply Z.mod_mul. lia.
  - pose proof (Z.div_pos (y - ImageSpec.y spec) scansperchunk ltac:(lia)
                  ltac:(lia)). nia.
Qed.

Lemma cell_in_row x c k :
  0 <= x < ImageSpec.width spec -> chbegin <= c < chend ->
  0 <= k < size_of spec c ->
  0 <= x * pb + offset_of spec chbegin c + k < slb.
Proof.
  intros Hx Hc Hk.
  pose proof (offset_of_nonneg spec chbegin chend fch Hagree c ltac:(lia)).
  pose proof (offset_of_next spec chbegin chend fch Hagree c chend ltac:(lia)).
  fold pb in H0. subst slb.
  assert (0 <= x * pb /\ x * pb + pb <= ImageSpec.width spec * pb) by nia.
  lia.
Qed.

(** A chunk decoded into the scratch vector, [n] of its lines copied to
    the caller's buffer from line [invalid] of the chunk on. *)
Lemma scratch_step (first : bool) decoder bufs y invalid n :
  let decoder' :=
    bind_channels spec chbegin chend (ScratchPtr 0) pb slb
      (if first then decoding_initialize hdr (scanline_block hdr (y - invalid))
       else decoding_update (scanline_block hdr (y - invalid)) decoder) in
  let bufs' :=
    memcpy_from_fullchunk ((y - ybegin) * slb) (invalid * slb) (n * slb)
      (decoding_run decoder'
         (resize_fullchunk (slb * scansperchunk) bufs)) in
  ImageSpec.y spec <= y - invalid ->
  (y - invalid - ImageSpec.y spec) mod scansperchunk = 0 ->
  0 <= invalid -> 0 <= n -> invalid + n <= scansperchunk -> ybegin <= y ->
  (first = false ->
   of_file fch (channels decoder) /\ idle spec chbegin chend (channels decoder)) ->
  rows_ok (data bufs) y ->
  rows_ok (data bufs') (y + n)
  /\ of_file fch (channels decoder')
  /\ idle spec chbegin chend (channels decoder')
  /\ (forall b, ~ ((y - ybegin) * slb <= b < (y - ybegin) * slb + n * slb) ->
        data bufs' !! b = data bufs !! b).
Proof.
  intros decoder' bufs' Hy0 Hal Hinv Hn Hfit Hy Hdec Hrows.
  destruct (decode_chunk false 0 (y - invalid) first decoder
              (resize_fullchunk (slb * scansperchunk) bufs) Hy0 Hal Hdec)
    as (Hof & Hidle & Hother & _ & _ & Hat).
  change (side_ptr false 0) with (ScratchPtr 0) in *.
  fold decoder' in Hof, Hidle, Hother, Hat.
  set (bufs1 := decoding_run decoder'
                  (resize_fullchunk (slb * scansperchunk) bufs)) in *.
  assert (data bufs1 = data bufs) as Hdata.
  { cbn [negb sel] in Hother. rewrite Hother.
    unfold resize_fullchunk. now destruct (_ <? _). }
  assert (Hframe : forall b,
            ~ ((y - ybegin) * slb <= b < (y - ybegin) * slb + n * slb) ->
            data bufs' !! b = data bufs !! b).
  { intros b Hb. subst bufs'. unfold memcpy_from_fullchunk. cbn [data].
    rewrite store_bytes_other by exact Hb. now rewrite Hdata. }
  split; [|split; [exact Hof|split; [exact Hidle|exact Hframe]]].
  intros yy x c k Hyy Himg Hx Hc Hk.
  pose proof (cell_in_row x c k Hx Hc Hk) as Hcell.
  destruct (Z_lt_ge_dec yy y) as [Hold|Hnew].
  - rewrite Hframe.
    + apply Hrows; auto. lia.
    + assert ((yy - ybegin) * slb + slb <= (y - ybegin) * slb) by nia. lia.
  - subst bufs'. unfold memcpy_from_fullchunk. cbn [data].
    replace ((yy - ybegin) * slb + x * pb + offset_of spec chbegin c + k)
      with ((y - ybegin) * slb
            + ((yy - y) * slb + x * pb + offset_of spec chbegin c + k)) by ring.
    rewrite store_bytes_at.
    2:{ assert (0 <= (yy - y) * slb /\ (yy - y) * slb + slb <= n * slb) by nia.
        lia. }
    specialize (Hat c (invalid + (yy - y)) x k Hc ltac:(lia) ltac:(lia) Hx Hk).
    cbn [sel] in Hat.
    replace (invalid * slb
             + ((yy - y) * slb + x * pb + offset_of spec chbegin c + k))
      with (0 + (invalid + (yy - y)) * slb + x * pb
            + offset_of spec chbegin c + k) by ring.
    rewrite Hat. unfold default, id. cbn [from_option]. do 2 f_equal. lia.
Qed.

(** A chunk decoded straight into the caller's buffer. *)
Lemma direct_step (first : bool) decoder bufs y :
  let decoder' :=
    bind_channels spec chbegin chend (DataPtr ((y - ybegin) * slb)) pb slb
      (if first then decoding_initialize hdr (scanline_block hdr y)
       else decoding_update (scanline_block hdr y) decoder) in
  let bufs' := decoding_run decoder' bufs in
  ImageSpec.y spec <= y ->
  (y - ImageSpec.y spec) mod scansperchunk = 0 ->
  ybegin <= y ->
  (first = false ->
   of_file fch (channels decoder) /\ idle spec chbegin chend (channels decoder)) ->
  rows_ok (data bufs) y ->
  rows_ok (data bufs') (y + scansperchunk)
  /\ of_file fch (channels decoder')
  /\ idle spec chbegin chend (channels decoder')
  /\ (forall b,
        ~ ((y - ybegin) * slb <= b
           < (y - ybegin) * slb + Z.min scansperchunk (imgend - y) * slb) ->
        data bufs' !! b = data bufs !! b).
Proof.
  intros decoder' bufs' Hy0 Hal Hy Hdec Hrows.
  destruct (decode_chunk true ((y - ybegin) * slb) y first decoder bufs
              Hy0 Hal Hdec) as (Hof & Hidle & _ & _ & Hframe & Hat).
  change (side_ptr true ((y - ybegin) * slb))
    with (DataPtr ((y - ybegin) * slb)) in *.
  fold decoder' in Hof, Hidle, Hframe, Hat. fold bufs' in Hframe, Hat.
  cbn [sel] in Hframe, Hat.
  split; [|split; [exact Hof|split; [exact Hidle|exact Hframe]]].
  intros yy x c k Hyy Himg Hx Hc Hk.
  pose proof (cell_in_row x c k Hx Hc Hk) as Hcell.
  destruct (Z_lt_ge_dec yy y) as [Hold|Hnew].
  - rewrite Hframe.
    + apply Hrows; auto. lia.
    + assert ((yy - ybegin) * slb + slb <= (y - ybegin) * slb) by nia. lia.
  - specialize (Hat c (yy - y) x k Hc ltac:(lia) ltac:(lia) Hx Hk).
    replace ((yy - ybegin) * slb + x * pb + offset_of spec chbegin c + k)
      with ((y - ybegin) * slb + (yy - y) * slb + x * pb
            + offset_of spec chbegin c + k) by ring.
    rewrite Hat. do 2 f_equal. lia.
Qed.

(** The request stops inside the last chunk of the image, short of the
    image's end, and the loop comes to the first line of that chunk. *)
Definition overruns : Prop :=
  exists y, ybegin <= y < yend
    /\ (y - ImageSpec.y spec) mod scansperchunk = 0
    /\ yend < y + scansperchunk
    /\ imgend <= y + scansperchunk
    /\ yend < imgend.

(** The caller's buffer is the same in [st'] as in [st] outside lines
    [y0] up to [y1] of the request. *)
Definition same_outside (y0 y1 : Z) (st st' : scan_state) : Prop :=
  forall o,
    ~ ((y0 - ybegin) * slb <= o < (Z.min y1 imgend - ybegin) * slb) ->
    data (sc_buffers st') !! o = data (sc_buffers st) !! o.

Lemma slb_nonneg : 0 <= slb.
Proof.
  pose proof (fa_width_nonneg _ _ _ _ _ Hfile).
  pose proof (ca_range _ _ _ _ Hagree).
  pose proof (offset_of_nonneg spec chbegin chend fch Hagree chend ltac:(lia)).
  subst slb pb. nia.
Qed.

Ltac scan_turn :=
  cbv iota beta; rewrite ?Hresults;
  change (succeeded EXR_ERR_SUCCESS) with true; cbn [negb ptr_eqb];
  rewrite ?Z.eqb_refl; cbn [negb].

Lemma scan_body_inv st :
  inv st -> sc_y st < yend ->
  exists st',
    body st = (false, st') /\ inv (next st')
    /\ sc_y st < sc_y (next st')
    /\ same_outside (sc_y st) (sc_y (next st')) st st'
    /\ (~ overruns -> sc_y (next st') <= yend \/ yend = imgend).
Proof.
  intros (Hy & Hld & Hrows & Hrv & Hdec) Hlt.
  pose proof (fa_lines_pos _ _ _ _ _ Hfile) as Hpos.
  destruct (rem_facts (sc_y st) ltac:(lia)) as (Hinv & Hal & Hy0).
  unfold body, scan_body.
  set (invalid := Z.rem (sc_y st - ImageSpec.y spec) scansperchunk) in *.
  clearbody invalid.
  rewrite !Hresults. change (succeeded EXR_ERR_SUCCESS) with true.
  cbn [negb]. rewrite Hld.
  assert (Hscratch : forall n st',
    n <= yend - sc_y st -> 0 < n ->
    rows_ok (data (sc_buffers st')) (sc_y st + n) ->
    (forall b,
       ~ ((sc_y st - ybegin) * slb <= b < (sc_y st - ybegin) * slb + n * slb) ->
       data (sc_buffers st') !! b = data (sc_buffers st) !! b) ->
    of_file fch (channels (sc_decoder st')) ->
    idle spec chbegin chend (channels (sc_decoder st')) ->
    sc_y st' + sc_nlines st' = sc_y st + n ->
    sc_linedata st' = (sc_y st - ybegin) * slb + slb * n ->
    succeeded (sc_rv st') = true ->
    inv (next st')
    /\ sc_y st < sc_y (next st')
    /\ same_outside (sc_y st) (sc_y (next st')) st st'
    /\ (~ overruns -> sc_y (next st') <= yend \/ yend = imgend)).
  { intros n st' Hn Hn0 Hrows' Hfr Hof Hidle Hsum Hlin Hsucc.
    unfold inv, same_outside, next.
    cbn [sc_y sc_nlines sc_linedata sc_first sc_decoder sc_rv sc_buffers].
    rewrite Hsum, Hlin.
    split; [|split; [lia|split; [|intros _; left; lia]]].
    - split; [lia|]. split; [ring|]. split; [exact Hrows'|].
      split; [exact Hsucc|]. intros _. split; assumption.
    - intros o Ho. apply Hfr. intros Hr. apply Ho.
      replace (Z.min (sc_y st + n) imgend) with (sc_y st + n)
        by (unfold imgend; lia).
      replace ((sc_y st + n - ybegin) * slb)
        with ((sc_y st - ybegin) * slb + n * slb) by ring.
      exact Hr. }
  destruct (negb (invalid =? 0)) eqn:Hunal.
  - apply negb_true_iff, Z.eqb_neq in Hunal.
    set (n := Z.min (scansperchunk - invalid)
                (yend - (sc_y st - invalid + invalid))).
    destruct (scratch_step (sc_first st) (sc_decoder st) (sc_buffers st)
                (sc_y st) invalid n Hy0 Hal ltac:(lia) ltac:(lia) ltac:(lia)
                Hy Hdec Hrows) as (Hrows' & Hof & Hidle & Hfr).
    destruct (sc_first st); scan_turn; fold n;
      (eexists; split; [reflexivity|]);
      apply (Hscratch n); cbn [sc_y sc_nlines sc_linedata sc_decoder sc_rv
                                sc_buffers];
      first [assumption | reflexivity | lia].
  - apply negb_false_iff, Z.eqb_eq in Hunal. subst invalid.
    rewrite Z.sub_0_r in *.
    destruct ((sc_y st + scansperchunk >? yend)
              && (sc_y st + scansperchunk
                  <? ImageSpec.y spec + ImageSpec.height spec)) eqn:Hpart.
    + apply andb_true_iff in Hpart as [Hp1 Hp2].
      set (n := Z.min (yend - sc_y st) (yend - (sc_y st + 0))).
      pose proof (scratch_step (sc_first st) (sc_decoder st) (sc_buffers st)
                    (sc_y st) 0 n) as Hstep.
      rewrite Z.sub_0_r in Hstep.
      destruct (Hstep Hy0 Hal ltac:(lia) ltac:(lia) ltac:(lia)
                  Hy Hdec Hrows) as (Hrows' & Hof & Hidle & Hfr).
      clear Hstep.
      destruct (sc_first st); scan_turn; fold n;
        (eexists; split; [reflexivity|]);
        apply (Hscratch n); cbn [sc_y sc_nlines sc_linedata sc_decoder sc_rv
                                  sc_buffers];
        first [assumption | reflexivity | lia].
    + destruct (direct_step (sc_first st) (sc_decoder st) (sc_buffers st)
                  (sc_y st) Hy0 Hal Hy Hdec Hrows)
        as (Hrows' & Hof & Hidle & Hfr).
      assert (Hover : ~ overruns -> sc_y st + scansperchunk <= yend
                                    \/ yend = imgend).
      { intros Hno.
        destruct (Z_le_gt_dec (sc_y st + scansperchunk) yend); [now left|].
        destruct (Z.eq_dec yend imgend); [now right|].
        exfalso. apply Hno. exists (sc_y st). unfold imgend in *.
        apply andb_false_iff in Hpart. lia. }
      assert (Hout : forall o,
                ~ ((sc_y st - ybegin) * slb <= o
                   < (Z.min (sc_y st + scansperchunk) imgend - ybegin) * slb) ->
                ~ ((sc_y st - ybegin) * slb <= o
                   < (sc_y st - ybegin) * slb
                     + Z.min scansperchunk (imgend - sc_y st) * slb)).
      { intros o Ho Hr. apply Ho.
        replace (Z.min (sc_y st + scansperchunk) imgend - ybegin)
          with ((sc_y st - ybegin) + Z.min scansperchunk (imgend - sc_y st))
          by lia.
        now rewrite Z.mul_add_distr_r. }
      destruct (sc_first st); scan_turn;
        (eexists; split; [reflexivity|]);
        unfold inv, same_outside, next;
        cbn [sc_y sc_nlines sc_linedata sc_first sc_decoder sc_rv sc_buffers];
        (split; [|split; [lia|split; [|exact Hover]]]);
        [ split; [lia|]; split; [ring|]; split; [exact Hrows'|];
          split; [reflexivity|]; intros _; split; assumption
        | intros o Ho; apply Hfr, Hout, Ho
        | split; [lia|]; split; [ring|]; split; [exact Hrows'|];
          split; [reflexivity|]; intros _; split; assumption
        | intros o Ho; apply Hfr, Hout, Ho ].
Qed.

(** The loop is left, with every requested line in the caller's buffer. *)
Lemma scan_loop_inv fuel : forall st,
  inv st -> yend - sc_y st <= Z.of_nat fuel ->
  exists st',
    scan_loop hdr results spec yend chbegin chend scansperchunk pb slb fuel st
    = Some st'
    /\ inv st' /\ yend <= sc_y st' /\ sc_y st <= sc_y st'
    /\ same_outside (sc_y st) (sc_y st') st st'
    /\ (~ overruns -> sc_y st <= yend -> sc_y st' <= yend \/ yend = imgend).
Proof.
  induction fuel as [|fuel IH]; intros st Hinv Hfuel.
  - exists st. simpl. destruct (sc_y st <? yend) eqn:Hlt; [lia|].
    apply Z.ltb_ge in Hlt.
    repeat (split; [first [reflexivity | assumption | lia]|]).
    split; [intros o _; reflexivity|]. intros _ Hle. now left.
  - simpl. destruct (sc_y st <? yend) eqn:Hlt.
    + apply Z.ltb_lt in Hlt.
      destruct (scan_body_inv st Hinv Hlt)
        as (st1 & Hbody & Hinv1 & Hprog & Hout1 & Hover1).
      fold body. rewrite Hbody.
      destruct (IH (next st1) Hinv1 ltac:(lia))
        as (st' & Hloop & Hinv' & Hend & Hmono & Hout & Hover).
      exists st'. split; [exact Hloop|]. split; [exact Hinv'|].
      split; [exact Hend|]. split; [lia|]. split.
      * intros o Ho. pose proof slb_nonneg as Hslb.
        rewrite Hout.
        -- apply Hout1. intros Hr. apply Ho.
           assert ((Z.min (sc_y (next st1)) imgend - ybegin) * slb
                   <= (Z.min (sc_y st') imgend - ybegin) * slb) by nia.
           lia.
        -- intros Hr. apply Ho.
           assert ((sc_y st - ybegin) * slb
                   <= (sc_y (next st1) - ybegin) * slb) by nia.
           lia.
      * intros Hno _. destruct (Hover1 Hno) as [Hle|Heq]; [|now right].
        now apply Hover.
    + apply Z.ltb_ge in Hlt. exists st.
      repeat (split; [first [reflexivity | assumption | lia]|]).
      split; [intros o _; reflexivity|]. intros _ Hle. now left.
Qed.



End Loop.

(** *** A read and a read of more lines *)

Section Read.

Variable stdlib : StdSort.
Variable basetype_merge : TypeDesc -> TypeDesc -> TypeDesc.

(** A scanline read that no pipeline call fails returns true; the lines
    asked for are in the caller's buffer, and nothing is written outside
    the lines up to where the loop stopped. *)
Lemma read_native_scanlines_rows
  (r r1 : Reader.t) (results : nat -> exr_result_t)
  (subimage miplevel ybegin yend chbegin chend : Z) (buf : mem)
  (spec : ImageSpec.t) (dw : exr_attr_box2i_t) (scansperchunk : Z)
  (fch : list ChannelCatalog.exr_attr_chlist_entry_t) :
  let chend' := clamp chend (chbegin + 1) (ImageSpec.nchannels spec) in
  let slb := ImageSpec.width spec * ImageSpec.pixel_bytes spec chbegin chend' in
  let imgend := ImageSpec.y spec + ImageSpec.height spec in
  is_Some (Reader.m_exr_context r) ->
  Reader.init_part stdlib basetype_merge r subimage miplevel = (spec, r1) ->
  file_agrees (exr_get_part (Reader.m_exr_context r) subimage) spec dw
    scansperchunk fch ->
  channels_agree spec chbegin chend' fch ->
  (forall i, results i = EXR_ERR_SUCCESS) ->
  ImageSpec.y spec <= ybegin <= yend -> yend <= imgend ->
  exists m n ystop,
    read_native_scanlines stdlib basetype_merge r results subimage miplevel
      ybegin yend chbegin chend buf = Some (true, r1, m, n)
    /\ rows_ok spec dw ybegin chbegin chend' m yend
    /\ yend <= ystop
    /\ (forall o, ~ (0 <= o < (Z.min ystop imgend - ybegin) * slb) ->
          m !! o = buf !! o)
    /\ (~ overruns spec scansperchunk ybegin yend ->
        ystop <= yend \/ yend = imgend).
Proof.
  intros chend' slb imgend [ctx Hctx] Hinit Hfile Hagree Hres Hy Hyend.
  pose proof (ScanFacts.init_part_context stdlib basetype_merge r subimage
                miplevel) as Hc.
  rewrite Hinit in Hc. cbn [snd] in Hc.
  unfold read_native_scanlines. rewrite Hctx, Hinit. cbv beta iota zeta.
  rewrite Hc, (fa_lines _ _ _ _ _ Hfile).
  set (st0 := mkScan ybegin scansperchunk 0 true zero_pipeline
                EXR_ERR_SUCCESS 0 (mkBuffers buf ∅ 0)).
  assert (inv spec dw fch ybegin chbegin chend' st0) as Hinv0.
  { unfold inv, st0. cbn [sc_y sc_linedata sc_buffers sc_rv sc_first data].
    split; [lia|]. split; [ring|]. split; [|split; [reflexivity|discriminate]].
    intros y x c k Hr. lia. }
  destruct (scan_loop_inv _ results spec dw scansperchunk fch ybegin yend
              chbegin chend' Hfile Hagree Hres ltac:(lia) Hyend
              (Z.to_nat (yend - ybegin)) st0 Hinv0 ltac:(simpl; lia))
    as (st & Hloop & (_ & _ & Hrows & Hrv & _) & Hend & _ & Hout & Hover).
  unfold offset_of in Hloop. fold chend'. rewrite Hloop, Hrv.
  exists (data (sc_buffers st)), (sc_calls st), (sc_y st).
  split; [reflexivity|]. split.
  { intros y x c k Hr. apply Hrows. lia. }
  split; [exact Hend|]. split.
  - intros o Ho. apply Hout. unfold st0 at 1. cbn [sc_y].
    now rewrite Z.sub_diag, Z.mul_0_l.
  - intros Hno. apply Hover; [exact Hno|]. simpl. lia.
Qed.


End Read.

(** Every pipeline call succeeds. *)
Definition all_calls_succeed (_ : nat) : exr_result_t := EXR_ERR_SUCCESS.


End ScanContent.

Module NameFacts.

Import ChannelCatalog.

Lemma substring_0_0 s : String.substring 0 0 s = EmptyString.
Proof. now destruct s. Qed.

Lemma substring_all s : String.substring 0 (String.length s) s = s.
Proof. induction s as [|a s IH]; simpl; [reflexivity|]. now rewrite IH. Qed.

(** Where [find_last_of] finds the character, the string splits there
    into a part that ends with it and a part without it. *)
Lemma find_last_of_split c s : forall i,
  Str.find_last_of c s = Some i ->
  String.append (String.substring 0 (i + 1) s)
    (String.substring (i + 1) (String.length s - i - 1) s) = s
  /\ Str.find_last_of c
       (String.substring (i + 1) (String.length s - i - 1) s) = None
  /\ exists l,
       String.substring 0 (i + 1) s = String.append l (String c EmptyString).
Proof.
  induction s as [|a s IH]; simpl; intros i H; [discriminate|].
  destruct (Str.find_last_of c s) as [j|] eqn:Hs.
  - injection H as <-. destruct (IH j eq_refl) as (H1 & H2 & l & H3).
    replace (S j + 1)%nat with (S (j + 1)) by lia. simpl.
    split; [exact (f_equal (String a) H1)|]. split; [exact H2|].
    exists (String a l). now rewrite H3.
  - destruct (Ascii.eqb a c) eqn:Hac; [|discriminate].
    injection H as <-. apply Ascii.eqb_eq in Hac. subst a. simpl.
    rewrite substring_0_0, Nat.sub_0_r, substring_all.
    split; [reflexivity|]. split; [exact Hs|]. now exists EmptyString.
Qed.

(** X1: [split_name] cuts a channel name at its last '.': the layer and
    the suffix put together give the name back, the suffix holds no '.',
    and the layer is empty (exactly when the name holds no '.') or ends
    with the '.'. *)
Theorem split_name_round_trip (fullname : string) :
  let '(layer, suffix) := split_name fullname in
  String.append layer suffix = fullname
  /\ Str.find_last_of "." suffix = None
  /\ ((layer = EmptyString /\ Str.find_last_of "." fullname = None)
      \/ exists l, layer = String.append l "."%string).
Proof.
  unfold split_name.
  destruct (Str.find_last_of "." fullname) as [dot|] eqn:H.
  - destruct (find_last_of_split _ _ _ H) as (H1 & H2 & l & H3).
    split; [exact H1|]. split; [exact H2|]. right. now exists l.
  - split; [reflexivity|]. split; [exact H|]. now left.
Qed.

(** *** [compare_cnh] may be given to [std::sort] *)

Lemma lt_cases a b :
  (Str.lt a b = true /\ Str.lt b a = false)
  \/ a = b
  \/ (Str.lt a b = false /\ Str.lt b a = true).
Proof.
  destruct (Str.lt a b) eqn:H1.
  - left. split; [reflexivity|]. now apply StrFacts.lt_asym.
  - destruct (Str.lt b a) eqn:H2; [now right; right|].
    right. left. now apply StrFacts.lt_incomparable.
Qed.

(** The key [compare_cnh] orders by. *)
Definition sort_key (c : ChanNameHolder) : string * Z * string :=
  (layer c, special_index c, suffix c).

Lemma compare_cnh_incomparable a b :
  compare_cnh a b = false -> compare_cnh b a = false ->
  sort_key a = sort_key b.
Proof.
  unfold compare_cnh, sort_key.
  destruct (lt_cases (layer a) (layer b)) as [[H H']|[E|[H H']]];
    rewrite ?H, ?H', ?E, ?StrFacts.lt_irrefl; try discriminate.
  destruct (Z.ltb_spec (special_index a) (special_index b)); [discriminate|].
  destruct (Z.ltb_spec (special_index b) (special_index a)); [discriminate|].
  intros H1 H2. rewrite (StrFacts.lt_incomparable _ _ H1 H2).
  now replace (special_index b) with (special_index a) by lia.
Qed.

Lemma compare_cnh_key a a' b :
  sort_key a = sort_key a' -> compare_cnh a b = compare_cnh a' b
                              /\ compare_cnh b a = compare_cnh b a'.
Proof.
  unfold sort_key, compare_cnh. intros [= -> -> ->]. split; reflexivity.
Qed.

Lemma compare_cnh_irrefl a : compare_cnh a a = false.
Proof.
  unfold compare_cnh. rewrite !StrFacts.lt_irrefl, Z.ltb_irrefl.
  reflexivity.
Qed.

Lemma compare_cnh_trans a b c :
  compare_cnh a b = true -> compare_cnh b c = true -> compare_cnh a c = true.
Proof.
  unfold compare_cnh.
  destruct (lt_cases (layer a) (layer b)) as [[Hab Hba]|[Eab|[Hab Hba]]];
    rewrite ?Hab, ?Hba, ?Eab, ?StrFacts.lt_irrefl; try discriminate;
    destruct (lt_cases (layer b) (layer c)) as [[Hbc Hcb]|[Ebc|[Hbc Hcb]]];
    rewrite ?Hbc, ?Hcb, ?Ebc, ?StrFacts.lt_irrefl; try discriminate;
    try reflexivity.
  - now rewrite (StrFacts.lt_trans _ _ _ Hab Hbc).
  - rewrite <- Ebc, Hab. reflexivity.
  - destruct (Z.ltb_spec (special_index a) (special_index b)) as [L1|L1];
      [|destruct (Z.ltb_spec (special_index b) (special_index a));
         [discriminate|]];
      intros Hs1;
      (destruct (Z.ltb_spec (special_index b) (special_index c)) as [L2|L2];
       [|destruct (Z.ltb_spec (special_index c) (special_index b));
          [discriminate|]]);
      intros Hs2;
      try (now replace (special_index a <? special_index c) with true by lia).
    replace (special_index a <? special_index c) with false by lia.
    replace (special_index c <? special_index a) with false by lia.
    exact (StrFacts.lt_trans _ _ _ Hs1 Hs2).
Qed.

(** X2: [compare_cnh] is a strict weak ordering, which is what
    [std::sort] requires of its comparator: no channel is before itself,
    the order is transitive, and so is being unordered, which holds
    exactly of channels with the same layer, special index and suffix. *)
Theorem compare_cnh_strict_weak_order :
  StrictWeakOrder compare_cnh
  /\ forall a b,
       (compare_cnh a b = false /\ compare_cnh b a = false)
       <-> sort_key a = sort_key b.
Proof.
  assert (Hkey : forall a b, sort_key a = sort_key b ->
                   compare_cnh a b = false /\ compare_cnh b a = false).
  { intros a b H. destruct (compare_cnh_key a b b H) as [H1 H2].
    rewrite H1, H2, compare_cnh_irrefl. now split. }
  split.
  - constructor.
    + apply compare_cnh_irrefl.
    + apply compare_cnh_trans.
    + intros a b c H1 H2 H3 H4.
      apply Hkey.
      rewrite (compare_cnh_incomparable _ _ H1 H2).
      exact (compare_cnh_incomparable _ _ H3 H4).
  - intros a b. split.
    + intros [H1 H2]. now apply compare_cnh_incomparable.
    + apply Hkey.
Qed.

End NameFacts.

Module MetadataFacts.

Import Metadata.

Ltac in_list := cbn [In]; repeat (first [left; reflexivity | right]).

Lemma init_lookup s v :
  init !! s = Some v -> In (s, v) init_entries.
Proof.
  unfold init, init_entries. cbn [fold_left fst snd].
  repeat (rewrite lookup_insert_Some;
          intros [[<- <-]|[_ H]]; [in_list|revert H]).
  rewrite lookup_empty. discriminate.
Qed.

Lemma init_lookup_rev s v :
  In (s, v) init_entries -> init !! s = Some v.
Proof.
  unfold init_entries. cbn [In].
  intros H. repeat (destruct H as [[= <- <-]|H]; [vm_compute; reflexivity|]).
  destruct H.
Qed.

(** X3: translating an attribute name twice gives what translating it
    once gives, every name outside the table is kept as it is, and the
    names the reader handles itself are the ones translated to the empty
    name. *)
Theorem exr_tag_to_oiio_std_idempotent (s : string) :
  exr_tag_to_oiio_std (exr_tag_to_oiio_std s) = exr_tag_to_oiio_std s
  /\ (~ In s (map fst init_entries) -> exr_tag_to_oiio_std s = s)
  /\ (exr_tag_to_oiio_std s = EmptyString <->
      s = EmptyString
      \/ In s ["channels"; "compression"; "dataWindow"; "displayWindow";
               "envmap"; "tiledesc"; "tiles"; "openexr:lineOrder";
               "type"]%string).
Proof.
  unfold exr_tag_to_oiio_std, lookup_name.
  destruct (init !! s) as [v|] eqn:Hs.
  - apply init_lookup in Hs as Hin. unfold init_entries in Hin. cbn [In] in Hin.
    split; [|split].
    + repeat (destruct Hin as [[= <- <-]|Hin]; [vm_compute; reflexivity|]).
      destruct Hin.
    + intros Hn. exfalso. apply Hn.
      apply in_map_iff. exists (s, v). split; [reflexivity|].
      now apply init_lookup in Hs.
    + repeat (destruct Hin as [[= <- <-]|Hin];
              [split;
               [intros H; first [discriminate H|right; in_list]
               |intros [H|H];
                [first [reflexivity|discriminate H]
                |first [reflexivity
                       |cbn [In] in H;
                        repeat (destruct H as [H|H]; [discriminate H|]);
                        destruct H]]]|]).
      destruct Hin.
  - rewrite Hs. split; [reflexivity|]. split; [reflexivity|].
    split; [now left|]. intros [H|H]; [exact H|].
    exfalso. cbn [In] in H.
    repeat (destruct H as [<-|H]; [vm_compute in Hs; discriminate|]).
    destruct H.
Qed.

(** *** Rational attributes *)

Lemma gcd_bounds n d : 0 < d -> 1 <= Z.gcd n d <= d.
Proof.
  intros Hd. pose proof (Z.gcd_nonneg n d) as H0.
  pose proof (Z.gcd_divide_r n d) as Hdiv.
  assert (Z.gcd n d <> 0) as Hne.
  { intros H. apply Z.gcd_eq_0_r in H. lia. }
  split; [lia|]. apply Z.divide_pos_le; [lia|exact Hdiv].
Qed.

Section WithLibraries.

Variable gcd : Z -> Z -> Z.

(** What is taken of [gcd]: on a numerator that is not negative and a
    positive denominator it is the greatest common divisor. *)
Hypothesis Hgcd : forall a b, 0 <= a -> 0 < b -> gcd a b = Z.gcd a b.

(** X4: a rational attribute [n / d] with [n] not negative is stored as
    two integers that stand for the same rational: as [n] and [d] when
    [d] is below 2^31, divided by their greatest common divisor
    otherwise.  It is dropped when [d] is not below 2^31 and the divisor
    is 1 or does not fit 32 bits, which is the case of [n = 0]. *)
Theorem rational_attribute_exact (n d : Z) :
  0 <= n < 2 ^ 31 -> 0 <= d < 2 ^ 32 ->
  (forall a b, rational_attribute gcd n d = Some (a, b) ->
     a * d = n * b /\ 0 <= a <= n /\ 0 <= b < 2 ^ 31
     /\ (2 ^ 31 <= d -> 0 < b /\ a < n))
  /\ (rational_attribute gcd n d = None <->
      2 ^ 31 <= d /\ (Z.gcd n d = 1 \/ n = 0)).
Proof.
  intros Hn Hd. unfold rational_attribute.
  destruct (Z.ltb_spec d (2 ^ 31)) as [Hsmall|Hbig].
  - rewrite MipFacts.int32_id by (unfold MipFacts.in_int32; lia).
    split.
    + intros a b [= <- <-]. repeat split; lia.
    + split; [discriminate|lia].
  - rewrite Hgcd by lia.
    pose proof (gcd_bounds n d ltac:(lia)) as Hg.
    destruct (Z.gcd_divide_l n d) as [k Hk].
    destruct (Z.gcd_divide_r n d) as [k' Hk'].
    remember (Z.gcd n d) as g eqn:Hgdef.
    assert (Hf : int32 g = if g <? 2 ^ 31 then g else g - 2 ^ 32).
    { unfold int32. destruct (Z.ltb_spec g (2 ^ 31)).
      - rewrite Z.mod_small by lia. lia.
      - replace (g + 2 ^ 31) with (g - 2 ^ 31 + 1 * 2 ^ 32) by lia.
        rewrite Z.mod_add by lia. rewrite Z.mod_small by lia. lia. }
    assert (Hzero : n = 0 <-> 2 ^ 31 <= g).
    { split.
      - intros ->. rewrite Z.gcd_0_l, Z.abs_eq in Hgdef by lia. lia.
      - intros Hbigg. destruct (Z.eq_dec n 0) as [|Hne]; [assumption|].
        assert (0 < k) by nia. nia. }
    rewrite Hf. split.
    + intros a b. destruct (Z.ltb_spec g (2 ^ 31)) as [Hg1|Hg1];
        [|replace (1 <? g - 2 ^ 32) with false by lia; discriminate].
      destruct (Z.ltb_spec 1 g) as [Hg2|Hg2]; [|discriminate].
      intros [= <- <-].
      assert (Z.quot n g = k) as -> by (subst n; apply Z.quot_mul; lia).
      assert (Z.quot d g = k') as -> by (subst d; apply Z.quot_mul; lia).
      assert (0 < k') by nia. assert (k' < 2 ^ 31) by nia.
      rewrite MipFacts.int32_id by (unfold MipFacts.in_int32; lia).
      assert (0 < k) by (destruct (Z.eq_dec n 0); [lia|nia]).
      split; [nia|]. split; [nia|]. split; [lia|]. intros _. split; [lia|].
      nia.
    + destruct (Z.ltb_spec g (2 ^ 31)) as [Hg1|Hg1].
      * destruct (Z.ltb_spec 1 g); split; try discriminate; try lia.
        intros _. reflexivity.
      * replace (1 <? g - 2 ^ 32) with false by lia.
        split; [lia|reflexivity].
Qed.

End WithLibraries.

(** X4 at work: 6 / 4294967294 is stored as 3 / 2147483647, and 0 over
    the same denominator is dropped. *)
Lemma rational_attribute_exact_witness :
  rational_attribute Z.gcd 6 4294967294 = Some (3, 2147483647)
  /\ 3 * 4294967294 = 6 * 2147483647
  /\ rational_attribute Z.gcd 0 4294967294 = None.
Proof.
  destruct (rational_attribute_exact Z.gcd (fun a b _ _ => eq_refl)
              6 4294967294) as (Hex & _).
  - lia.
  - lia.
  - destruct (Hex 3 2147483647 eq_refl) as (H & _).
    split; [reflexivity|]. split; [exact H|].
    destruct (rational_attribute_exact Z.gcd (fun a b _ _ => eq_refl)
                0 4294967294) as (_ & Hz).
    + lia.
    + lia.
    + apply Hz. split; [lia|now right].
Defined.

End MetadataFacts.

Module PipeFacts.

Import FFMPEGPipeOutput.

(** The ffmpeg pixel formats the writer knows: channels and bytes per
    channel. *)
Definition pix_fmt (s : string) : option (Z * Z) :=
  if String.eqb s "rgb24" then Some (3, 1)
  else if String.eqb s "rgb" then Some (3, 1)
  else if String.eqb s "rgb48le" then Some (3, 2)
  else if String.eqb s "rgba" then Some (4, 1)
  else if String.eqb s "rgba64le" then Some (4, 2)
  else None.

Lemma BASETYPE_eqb_eq a b : BASETYPE_eqb a b = true <-> a = b.
Proof. destruct a, b; simpl; split; congruence. Qed.

Lemma BASETYPE_eqb_neq a b : BASETYPE_eqb a b = false <-> a <> b.
Proof. destruct a, b; simpl; split; congruence. Qed.

Section Open.

Variable split : string -> list string.

(** What [open] asks of the file name and the spec. *)
Definition acceptable (name : string) (spec : spec_t) (chans bpp : Z) : Prop :=
  1 <= width spec /\ 1 <= height spec
  /\ (length (split name) = 2%nat \/ length (split name) = 4%nat)
  /\ pix_fmt (front (split name)) = Some (chans, bpp)
  /\ format spec = (if bpp =? 1 then UINT8 else UINT16)
  /\ nchannels spec = chans
  /\ back (split name) = "stdout"%string.

Lemma layout_eq (o : t) (fmt : string) :
  (if String.eqb fmt "rgb24" || String.eqb fmt "rgb"
   then Some (set_layout o 3 1)
   else if String.eqb fmt "rgb48le" then Some (set_layout o 3 2)
   else if String.eqb fmt "rgba" then Some (set_layout o 4 1)
   else if String.eqb fmt "rgba64le" then Some (set_layout o 4 2)
   else None)
  = match pix_fmt fmt with
    | Some (chans, bpp) => Some (set_layout o chans bpp)
    | None => None
    end.
Proof.
  unfold pix_fmt.
  destruct (String.eqb fmt "rgb24"), (String.eqb fmt "rgb"),
    (String.eqb fmt "rgb48le"), (String.eqb fmt "rgba"),
    (String.eqb fmt "rgba64le"); reflexivity.
Qed.

Lemma pix_fmt_range fmt chans bpp :
  pix_fmt fmt = Some (chans, bpp) ->
  (chans = 3 \/ chans = 4) /\ (bpp = 1 \/ bpp = 2).
Proof.
  unfold pix_fmt.
  destruct (String.eqb fmt "rgb24"), (String.eqb fmt "rgb"),
    (String.eqb fmt "rgb48le"), (String.eqb fmt "rgba"),
    (String.eqb fmt "rgba64le"); intros [= <- <-]; lia.
Qed.

Ltac open_fails :=
  right; split; [reflexivity|];
  split; [|cbn [snd m_spec m_obuf errors error set_layout set_spec
                set_bytesperline m_bytesperline m_dither m_chans m_bpp];
           now eauto].

Lemma open_cases (o : t) (name : string) (spec : spec_t) :
  let res := open split o name spec in
  (fst res = true /\ exists chans bpp,
     acceptable name spec chans bpp
     /\ snd res
        = mk spec (Some Cout) (int32 (int32 (width spec * chans) * bpp))
            (if BASETYPE_eqb (format spec) UINT8
             then default 0 (dither spec) mod 2 ^ 32 else 0)
            chans bpp (errors o))
  \/ (fst res = false
      /\ (forall chans bpp, ~ acceptable name spec chans bpp)
      /\ m_spec (snd res) = spec /\ m_obuf (snd res) = m_obuf o
      /\ exists e, errors (snd res) = errors o ++ [e]).
Proof.
  unfold open, acceptable. cbv zeta. cbn [m_spec set_spec].
  destruct ((width spec <? 1) || (height spec <? 1)) eqn:Hres.
  { open_fails. intros ? ?; lia. }
  apply orb_false_iff in Hres as [Hw Hh].
  apply Z.ltb_ge in Hw, Hh.
  destruct (negb (Z.of_nat (length (split name)) =? 2)
            && negb (Z.of_nat (length (split name)) =? 4)) eqn:Hn.
  { open_fails. intros ? ?; lia. }
  assert (Hlen : length (split name) = 2%nat \/ length (split name) = 4%nat)
    by lia.
  rewrite layout_eq.
  destruct (pix_fmt (front (split name))) as [[chans bpp]|] eqn:Hp.
  2:{ open_fails. intros ? ? (_ & _ & _ & ? & _). discriminate. }
  destruct (pix_fmt_range _ _ _ Hp) as [_ Hb].
  cbn [m_bpp m_chans m_spec m_obuf errors set_layout set_spec
       set_bytesperline set_obuf set_dither].
  replace (bpp <? 0) with false by lia.
  destruct ((bpp =? 1) && negb (BASETYPE_eqb (format spec) UINT8)) eqn:H8.
  { open_fails. intros ? ? (_ & _ & _ & [= <- <-] & Hf & _).
    apply andb_true_iff in H8 as [H8 H8'].
    rewrite H8 in Hf. rewrite Hf in H8'. discriminate. }
  destruct ((bpp =? 2) && negb (BASETYPE_eqb (format spec) UINT16)) eqn:H16.
  { open_fails. intros ? ? (_ & _ & _ & [= <- <-] & Hf & _).
    apply andb_true_iff in H16 as [H16 H16'].
    replace (bpp =? 1) with false in Hf by lia.
    rewrite Hf in H16'. discriminate. }
  assert (Hfmt : format spec = if bpp =? 1 then UINT8 else UINT16).
  { destruct Hb as [-> | ->]; simpl in *.
    - apply negb_false_iff, BASETYPE_eqb_eq in H8. exact H8.
    - apply negb_false_iff, BASETYPE_eqb_eq in H16. exact H16. }
  destruct (Z.eqb_spec (nchannels spec) chans) as [Hc|Hc]; cbn [negb].
  2:{ open_fails. intros ? ? (_ & _ & _ & [= <- <-] & _ & ? & _). congruence. }
  destruct (String.eqb (back (split name)) "stdout") eqn:Hs.
  - apply String.eqb_eq in Hs. left. split; [reflexivity|].
    exists chans, bpp. split; [repeat split; auto|]. reflexivity.
  - apply String.eqb_neq in Hs. open_fails.
    intros ? ? (_ & _ & _ & _ & _ & _ & ?). congruence.
Qed.

(** X5: [open] succeeds exactly when the image is at least 1x1, the file
    name splits at its dots into two or four parts of which the first
    names one of the pixel formats rgb24, rgb, rgb48le, rgba and rgba64le
    and the last is "stdout", and the spec has the channels and the 8- or
    16-bit format of that pixel format.  It then writes to standard
    output, a line at a time of width times channels times bytes per
    channel bytes, and dithers 8-bit output only.  When it fails it
    issues one error message, puts the spec in place all the same and
    keeps the stream it had. *)
Theorem open_accepts (o : t) (name : string) (spec : spec_t) :
  let res := open split o name spec in
  (fst res = true <-> exists chans bpp, acceptable name spec chans bpp)
  /\ (forall chans bpp, acceptable name spec chans bpp ->
      m_spec (snd res) = spec /\ m_obuf (snd res) = Some Cout
      /\ m_chans (snd res) = chans /\ m_bpp (snd res) = bpp
      /\ errors (snd res) = errors o
      /\ (width spec * 8 < 2 ^ 31 ->
          m_bytesperline (snd res) = width spec * nchannels spec * bpp)
      /\ (format spec = UINT16 -> m_dither (snd res) = 0))
  /\ (fst res = false ->
      m_spec (snd res) = spec /\ m_obuf (snd res) = m_obuf o
      /\ exists e, errors (snd res) = errors o ++ [e]).
Proof.
  intros res. destruct (open_cases o name spec) as
    [(Hok & chans & bpp & Hacc & Hres)|(Hfail & Hnot & Hrest)];
    fold res in Hok || fold res in Hfail.
  - fold res in Hres. split; [|split].
    + split; [intros _; eauto|intros _; exact Hok].
    + intros chans' bpp' Hacc'.
      assert (chans' = chans /\ bpp' = bpp) as [-> ->].
      { destruct Hacc as (_ & _ & _ & H1 & _), Hacc' as (_ & _ & _ & H2 & _).
        rewrite H1 in H2. injection H2 as <- <-. now split. }
      rewrite Hres. cbn [m_spec m_obuf m_chans m_bpp errors m_bytesperline
                          m_dither].
      repeat (split; [reflexivity|]).
      destruct Hacc as (Hw & _ & _ & Hp & Hf & Hc & _).
      destruct (pix_fmt_range _ _ _ Hp) as [Hcr Hbr].
      split.
      * intros Hsmall. rewrite Hc.
        destruct Hcr as [-> | ->], Hbr as [-> | ->];
          match goal with
          | |- context [int32 (width spec * ?c)] =>
              rewrite (MipFacts.int32_id (width spec * c))
                by (unfold MipFacts.in_int32; lia)
          end;
          rewrite MipFacts.int32_id by (unfold MipFacts.in_int32; lia);
          reflexivity.
      * intros H16. rewrite H16. reflexivity.
    + rewrite Hok. discriminate.
  - split; [|split].
    + rewrite Hfail. split; [discriminate|].
      intros (chans & bpp & Hacc). now apply Hnot in Hacc.
    + intros chans bpp Hacc. now apply Hnot in Hacc.
    + intros _. exact Hrest.
Qed.

End Open.

End PipeFacts.

Module MipChain.

Import MipFacts.

Lemma level_size_succ rm n top :
  level_size rm (S n) top = halve rm (level_size rm n top).
Proof. reflexivity. Qed.

Lemma level_size_shift rm n top :
  level_size rm (S n) top = level_size rm n (halve rm top).
Proof. unfold level_size. now rewrite Nat.iter_succ_r. Qed.

Lemma level_size_range rm n top :
  1 <= top -> 1 <= level_size rm n top <= top.
Proof.
  intros Htop. induction n as [|n IH]; [unfold level_size; simpl; lia|].
  rewrite level_size_succ.
  pose proof (halve_range rm (level_size rm n top)).
  pose proof (halve_bound rm (level_size rm n top) ltac:(lia)). lia.
Qed.

Lemma halve_pow2 rm w (k : nat) :
  1 <= w <= 2 ^ Z.of_nat (S k) -> 1 <= halve rm w <= 2 ^ Z.of_nat k.
Proof.
  intros Hw. split; [apply halve_range|].
  replace (2 ^ Z.of_nat (S k)) with (2 * 2 ^ Z.of_nat k) in Hw
    by (rewrite Nat2Z.inj_succ, Z.pow_succ_r; lia).
  assert (0 < 2 ^ Z.of_nat k) by (apply Z.pow_pos_nonneg; lia).
  unfold halve. pose proof (floor_half w). pose proof (ceil_half w).
  destruct rm; lia.
Qed.

Lemma level_size_pow2 rm n : forall top,
  1 <= top <= 2 ^ Z.of_nat n -> level_size rm n top = 1.
Proof.
  induction n as [|n IH]; intros top Htop.
  - unfold level_size. simpl in *. lia.
  - rewrite level_size_shift. apply IH. now apply halve_pow2.
Qed.

Lemma compute_mipres_dims part miplevel sp :
  PartInfo.levelmode part = EXR_TILE_MIPMAP_LEVELS ->
  PartInfo.roundingmode part <> EXR_TILE_ROUND_LAST_TYPE ->
  0 <= miplevel < 2 ^ 31 ->
  1 <= PartInfo.topwidth part < 2 ^ 31 - 1 ->
  1 <= PartInfo.topheight part < 2 ^ 31 - 1 ->
  ImageSpec.width (PartInfo.compute_mipres part miplevel sp)
    = level_size (PartInfo.roundingmode part) (Z.to_nat miplevel)
        (PartInfo.topwidth part)
  /\ ImageSpec.height (PartInfo.compute_mipres part miplevel sp)
    = level_size (PartInfo.roundingmode part) (Z.to_nat miplevel)
        (PartInfo.topheight part).
Proof.
  intros Hlm Hrm Hm Hw Hh. unfold PartInfo.compute_mipres.
  rewrite Hlm. rewrite (Z.mod_small miplevel) by lia.
  rewrite mip_loop_spec; try assumption; try (unfold in_int32; lia).
  destruct (miplevel =? 0), (PartInfo.cubeface part); simpl; auto.
Qed.

(** X6: in mipmap mode the levels never grow and never vanish: each
    dimension of a level is at least 1 and at most that of the level
    before, and it is 1 from the level on whose number is the binary
    logarithm of the top size, rounded up. *)
Theorem mip_levels_shrink_to_one
  (part : PartInfo.t) (miplevel : Z) (sp : ImageSpec.t) :
  PartInfo.levelmode part = EXR_TILE_MIPMAP_LEVELS ->
  PartInfo.roundingmode part <> EXR_TILE_ROUND_LAST_TYPE ->
  0 <= miplevel < 2 ^ 31 - 1 ->
  1 <= PartInfo.topwidth part < 2 ^ 31 - 1 ->
  1 <= PartInfo.topheight part < 2 ^ 31 - 1 ->
  let w m := ImageSpec.width (PartInfo.compute_mipres part m sp) in
  let h m := ImageSpec.height (PartInfo.compute_mipres part m sp) in
  1 <= w (miplevel + 1) <= w miplevel
  /\ 1 <= h (miplevel + 1) <= h miplevel
  /\ w 0 = PartInfo.topwidth part /\ h 0 = PartInfo.topheight part
  /\ (PartInfo.topwidth part <= 2 ^ miplevel -> w miplevel = 1)
  /\ (PartInfo.topheight part <= 2 ^ miplevel -> h miplevel = 1).
Proof.
  intros Hlm Hrm Hm Hw Hh w h. subst w h. cbv beta.
  destruct (compute_mipres_dims part miplevel sp Hlm Hrm ltac:(lia) Hw Hh)
    as [-> ->].
  destruct (compute_mipres_dims part (miplevel + 1) sp Hlm Hrm ltac:(lia) Hw Hh)
    as [-> ->].
  destruct (compute_mipres_dims part 0 sp Hlm Hrm ltac:(lia) Hw Hh)
    as [-> ->].
  replace (Z.to_nat (miplevel + 1)) with (S (Z.to_nat miplevel)) by lia.
  rewrite !level_size_succ.
  set (rm := PartInfo.roundingmode part).
  pose proof (level_size_range rm (Z.to_nat miplevel) _ (proj1 Hw)) as Rw.
  pose proof (level_size_range rm (Z.to_nat miplevel) _ (proj1 Hh)) as Rh.
  pose proof (halve_range rm (level_size rm (Z.to_nat miplevel)
                                (PartInfo.topwidth part))).
  pose proof (halve_bound rm (level_size rm (Z.to_nat miplevel)
                                (PartInfo.topwidth part)) ltac:(lia)).
  pose proof (halve_range rm (level_size rm (Z.to_nat miplevel)
                                (PartInfo.topheight part))).
  pose proof (halve_bound rm (level_size rm (Z.to_nat miplevel)
                                (PartInfo.topheight part)) ltac:(lia)).
  split; [lia|]. split; [lia|]. split; [reflexivity|]. split; [reflexivity|].
  split; intros Hp; apply level_size_pow2; rewrite Z2Nat.id by lia; lia.
Qed.

(** X6 at work: a 100x60 mipmap rounding up is 1 pixel high from level 6
    on and 1 pixel wide from level 7 on. *)
Lemma mip_levels_shrink_to_one_witness :
  let part := mipmap_part 100 60 EXR_TILE_ROUND_UP in
  ImageSpec.width (PartInfo.compute_mipres part 7 ImageSpec.default) = 1
  /\ ImageSpec.height (PartInfo.compute_mipres part 6 ImageSpec.default) = 1.
Proof.
  intros part.
  destruct (mip_levels_shrink_to_one part 7 ImageSpec.default)
    as (_ & _ & _ & _ & Hw & _);
    try reflexivity; try discriminate; try (simpl; lia).
  destruct (mip_levels_shrink_to_one part 6 ImageSpec.default)
    as (_ & _ & _ & _ & _ & Hh);
    try reflexivity; try discriminate; try (simpl; lia).
  split; [apply Hw|apply Hh]; simpl; lia.
Defined.

End MipChain.

Module StateFacts.

(** The vector [m_parts] has [m_nsubimages] elements, as [open] sizes
    it. *)
Definition sized (r : Reader.t) : Prop :=
  Z.of_nat (length (Reader.m_parts r)) = Reader.m_nsubimages r.

Lemma mipres_one_level part miplevel sp :
  PartInfo.levelmode part = EXR_TILE_ONE_LEVEL ->
  PartInfo.compute_mipres part miplevel sp = sp.
Proof. unfold PartInfo.compute_mipres. now intros ->. Qed.

Section WithLibraries.

Variable stdlib : StdSort.
Variable basetype_merge : TypeDesc -> TypeDesc -> TypeDesc.

Let seek := Reader.seek_subimage stdlib basetype_merge.

(** The part a seek leaves at [subimage], and the messages issued: the
    part as it is when it is initialized, what [parse_header] makes of it
    otherwise. *)
Definition inventory (r : Reader.t) (subimage : Z)
  : bool * PartInfo.t * list error_msg :=
  let part := Reader.part_at r subimage in
  if PartInfo.initialized part then (true, part, Reader.errors r)
  else
    match PartInfo.parse_header stdlib basetype_merge part
            (Reader.m_exr_context r) subimage (Reader.errors r) with
    | (false, part, errs) => (false, part, errs)
    | (true, part, errs) => (true, PartInfo.set_initialized part true, errs)
    end.

(** The reader a successful seek leaves. *)
Definition sought (r : Reader.t) (subimage miplevel : Z) (part : PartInfo.t)
  (errs : list error_msg) : Reader.t :=
  Reader.mk (<[Z.to_nat subimage := part]> (Reader.m_parts r))
    subimage miplevel (Reader.m_exr_context r) (Reader.m_nsubimages r)
    (Reader.m_missingcolor r)
    (PartInfo.compute_mipres part miplevel (PartInfo.spec part)) errs.

Lemma seek_subimage_unfold r subimage miplevel :
  seek r subimage miplevel
  = if (subimage <? 0) || (Reader.m_nsubimages r <=? subimage) then (false, r)
    else
      let '(ok, part, errs) := inventory r subimage in
      let r1 :=
        Reader.set_parts r (<[Z.to_nat subimage := part]> (Reader.m_parts r))
          errs in
      if negb ok then (false, r1)
      else if (miplevel <? 0) || (PartInfo.nmiplevels part <=? miplevel)
      then (false, Reader.set_subimage r1 subimage)
      else (true, sought r subimage miplevel part errs).
Proof.
  subst seek. unfold Reader.seek_subimage, inventory.
  destruct ((subimage <? 0) || (Reader.m_nsubimages r <=? subimage));
    [reflexivity|].
  destruct (PartInfo.initialized (Reader.part_at r subimage)).
  - cbn [negb]. cbv iota beta zeta.
    destruct ((miplevel <? 0) || _); [reflexivity|].
    unfold sought.
    destruct (miplevel =? 0) eqn:Hz;
      destruct (PartInfo.levelmode (Reader.part_at r subimage)) eqn:Hlm;
      unfold Reader.set_m_spec, Reader.set_miplevel,
        Reader.set_subimage, Reader.set_parts; cbn;
      rewrite ?(mipres_one_level _ miplevel _ Hlm); reflexivity.
  - destruct (PartInfo.parse_header _ _ _ _ _ _) as [[[] part] errs];
      cbn [negb]; cbv iota beta zeta; [|reflexivity].
    destruct ((miplevel <? 0) || _); [reflexivity|].
    unfold sought.
    destruct (miplevel =? 0) eqn:Hz;
      destruct (PartInfo.levelmode (PartInfo.set_initialized part true))
        eqn:Hlm;
      unfold Reader.set_m_spec, Reader.set_miplevel,
        Reader.set_subimage, Reader.set_parts; cbn;
      rewrite ?(mipres_one_level _ miplevel _ Hlm); reflexivity.
Qed.

Lemma seek_subimage_true r subimage miplevel r' :
  seek r subimage miplevel = (true, r') ->
  0 <= subimage < Reader.m_nsubimages r
  /\ exists part errs,
       inventory r subimage = (true, part, errs)
       /\ 0 <= miplevel < PartInfo.nmiplevels part
       /\ r' = sought r subimage miplevel part errs.
Proof.
  rewrite seek_subimage_unfold.
  destruct ((subimage <? 0) || (Reader.m_nsubimages r <=? subimage)) eqn:Hs;
    [discriminate|].
  destruct (inventory r subimage) as [[[] part] errs]; cbn [negb];
    cbv iota beta zeta; [|discriminate].
  destruct ((miplevel <? 0) || (PartInfo.nmiplevels part <=? miplevel)) eqn:Hm;
    [discriminate|].
  intros [= <-]. split; [lia|]. exists part, errs.
  split; [reflexivity|]. split; [lia|reflexivity].
Qed.

Lemma seek_subimage_sought r subimage miplevel part errs :
  0 <= subimage < Reader.m_nsubimages r ->
  inventory r subimage = (true, part, errs) ->
  0 <= miplevel < PartInfo.nmiplevels part ->
  seek r subimage miplevel = (true, sought r subimage miplevel part errs).
Proof.
  intros Hs Hinv Hm. rewrite seek_subimage_unfold, Hinv.
  replace ((subimage <? 0) || (Reader.m_nsubimages r <=? subimage))
    with false by lia.
  cbn [negb]. cbv iota beta zeta.
  now replace ((miplevel <? 0) || (PartInfo.nmiplevels part <=? miplevel))
    with false by lia.
Qed.

Lemma inventory_initialized r subimage part errs :
  inventory r subimage = (true, part, errs) ->
  PartInfo.initialized part = true.
Proof.
  unfold inventory.
  destruct (PartInfo.initialized (Reader.part_at r subimage)) eqn:Hi.
  - now intros [= <- <-].
  - destruct (PartInfo.parse_header _ _ _ _ _ _) as [[[] p] e];
      [|discriminate].
    now intros [= <- <-].
Qed.

Lemma part_at_sought r subimage miplevel part errs :
  sized r -> 0 <= subimage < Reader.m_nsubimages r ->
  Reader.part_at (sought r subimage miplevel part errs) subimage = part.
Proof.
  unfold sized, Reader.part_at, sought. cbn. intros Hsz Hs.
  rewrite list_lookup_insert_eq by lia. reflexivity.
Qed.

Lemma part_at_sought_ne r subimage miplevel part errs s0 :
  0 <= subimage -> 0 <= s0 -> s0 <> subimage ->
  Reader.part_at (sought r subimage miplevel part errs) s0
  = Reader.part_at r s0.
Proof.
  unfold Reader.part_at, sought. cbn. intros H1 H2 Hne.
  rewrite list_lookup_insert_ne by lia. reflexivity.
Qed.

Lemma sized_sought r subimage miplevel part errs :
  sized r -> sized (sought r subimage miplevel part errs).
Proof. unfold sized, sought. cbn. now rewrite length_insert. Qed.

(** X7: a seek that succeeds leaves the reader settled on the requested
    subimage and miplevel, with the part inventoried and [m_spec] the
    part's spec at that level; seeking there again changes nothing. *)
Theorem seek_subimage_settles (r r' : Reader.t) (subimage miplevel : Z) :
  sized r ->
  Reader.seek_subimage stdlib basetype_merge r subimage miplevel = (true, r') ->
  let part := Reader.part_at r' subimage in
  Reader.current_subimage r' = subimage
  /\ Reader.current_miplevel r' = miplevel
  /\ PartInfo.initialized part = true
  /\ 0 <= miplevel < PartInfo.nmiplevels part
  /\ Reader.m_spec r'
     = PartInfo.compute_mipres part miplevel (PartInfo.spec part)
  /\ sized r'
  /\ Reader.seek_subimage stdlib basetype_merge r' subimage miplevel
     = (true, r').
Proof.
  intros Hsz Hseek.
  destruct (seek_subimage_true r subimage miplevel r' Hseek)
    as (Hs & part & errs & Hinv & Hm & ->).
  cbv zeta. rewrite (part_at_sought r subimage miplevel part errs Hsz Hs).
  pose proof (inventory_initialized _ _ _ _ Hinv) as Hinit.
  repeat (split; [first [reflexivity | assumption | lia]|]).
  split; [now apply sized_sought|].
  fold seek.
  rewrite (seek_subimage_sought (sought r subimage miplevel part errs)
             subimage miplevel part errs).
  - unfold sought. cbn. now rewrite list_insert_insert_eq.
  - exact Hs.
  - unfold inventory.
    rewrite (part_at_sought r subimage miplevel part errs Hsz Hs), Hinit.
    reflexivity.
  - exact Hm.
Qed.

(** The reader with another file behind it. *)
Definition with_context (r : Reader.t) (ctxt : exr_context_t) : Reader.t :=
  Reader.mk (Reader.m_parts r) (Reader.m_subimage r) (Reader.m_miplevel r)
    ctxt (Reader.m_nsubimages r) (Reader.m_missingcolor r) (Reader.m_spec r)
    (Reader.errors r).

Lemma initialized_in_range r s0 :
  PartInfo.initialized (Reader.part_at r s0) = true ->
  (Z.to_nat s0 < length (Reader.m_parts r))%nat.
Proof.
  unfold Reader.part_at. intros H.
  destruct (Reader.m_parts r !! Z.to_nat s0) eqn:Hl.
  - now apply lookup_lt_Some in Hl.
  - discriminate.
Qed.

Lemma inventory_of_initialized r s0 :
  PartInfo.initialized (Reader.part_at r s0) = true ->
  inventory r s0 = (true, Reader.part_at r s0, Reader.errors r).
Proof. unfold inventory. now intros ->. Qed.

(** X8: a part that is inventoried is final.  No seek, to that part or
    to another, changes it; a seek to it issues no message and does not
    look at the file, so that its outcome is the same with any other file
    behind the reader. *)
Theorem inventoried_part_is_final (r : Reader.t) (s0 : Z) :
  PartInfo.initialized (Reader.part_at r s0) = true -> 0 <= s0 ->
  (forall subimage miplevel,
     Reader.part_at
       (snd (Reader.seek_subimage stdlib basetype_merge r subimage miplevel)) s0
     = Reader.part_at r s0)
  /\ (forall miplevel,
        Reader.errors
          (snd (Reader.seek_subimage stdlib basetype_merge r s0 miplevel))
        = Reader.errors r)
  /\ (forall miplevel ctxt,
        Reader.seek_subimage stdlib basetype_merge (with_context r ctxt)
          s0 miplevel
        = (fst (Reader.seek_subimage stdlib basetype_merge r s0 miplevel),
           with_context
             (snd (Reader.seek_subimage stdlib basetype_merge r s0 miplevel))
             ctxt)).
Proof.
  intros Hinit Hs0. pose proof (initialized_in_range r s0 Hinit) as Hlen.
  pose proof (inventory_of_initialized r s0 Hinit) as Hinv.
  fold seek. split; [|split].
  - intros subimage miplevel. rewrite seek_subimage_unfold.
    destruct ((subimage <? 0) || (Reader.m_nsubimages r <=? subimage)) eqn:Hs;
      [reflexivity|].
    assert (forall part,
              (subimage = s0 -> part = Reader.part_at r s0) ->
              default PartInfo.new
                (<[Z.to_nat subimage := part]> (Reader.m_parts r)
                   !! Z.to_nat s0)
              = Reader.part_at r s0) as Hkeep.
    { intros part Hp. unfold Reader.part_at.
      destruct (decide (subimage = s0)) as [->|Hne].
      - rewrite list_lookup_insert_eq by lia. simpl. now apply Hp.
      - rewrite list_lookup_insert_ne by lia. reflexivity. }
    destruct (inventory r subimage) as [[ok part] errs] eqn:Hi.
    assert (subimage = s0 -> part = Reader.part_at r s0) as Hp.
    { intros ->. rewrite Hinv in Hi. now injection Hi as _ <- _. }
    cbv iota beta zeta.
    destruct (negb ok); [now apply Hkeep|].
    destruct ((miplevel <? 0) || _); now apply Hkeep.
  - intros miplevel. rewrite seek_subimage_unfold, Hinv.
    destruct ((s0 <? 0) || (Reader.m_nsubimages r <=? s0)); [reflexivity|].
    cbn [negb]. cbv iota beta zeta.
    destruct ((miplevel <? 0) || _); reflexivity.
  - intros miplevel ctxt. rewrite !seek_subimage_unfold.
    change (Reader.m_nsubimages (with_context r ctxt))
      with (Reader.m_nsubimages r).
    destruct ((s0 <? 0) || (Reader.m_nsubimages r <=? s0)); [reflexivity|].
    rewrite Hinv.
    rewrite (inventory_of_initialized (with_context r ctxt) s0 Hinit).
    cbn [negb]. cbv iota beta zeta.
    destruct ((miplevel <? 0) || _); reflexivity.
Qed.

(** *** [open], [close] and [open] again *)

Variable extract_from_list_string : string -> list float.

Let open := Reader.open stdlib basetype_merge extract_from_list_string.

(** The reader [open] hands to its first seek, the stream being
    readable and [parts] the parts of the file. *)
Definition opening (r : Reader.t) (env : Reader.open_env)
  (parts : list exr_part) : Reader.t :=
  Reader.mk (Reader.resize_parts (length parts) (Reader.m_parts r))
    (-1) (-1) (Some parts) (Z.of_nat (length parts))
    (Reader.configure_missingcolor extract_from_list_string env
       (Reader.m_missingcolor r))
    ImageSpec.default (Reader.errors r).

Lemma open_unfold r env :
  open r env
  = if negb (Reader.io_readable env)
    then (false,
          Reader.set_m_spec
            (Reader.set_missingcolor r
               (Reader.configure_missingcolor extract_from_list_string env
                  (Reader.m_missingcolor r))) ImageSpec.default)
    else
      match Reader.file_parts env with
      | None =>
          (false,
           Reader.set_m_spec
             (Reader.set_missingcolor r
                (Reader.configure_missingcolor extract_from_list_string env
                   (Reader.m_missingcolor r))) ImageSpec.default)
      | Some parts =>
          match seek (opening r env parts) 0 0 with
          | (true, r) => (true, r)
          | (false, r) => (false, snd (Reader.close r))
          end
      end.
Proof. reflexivity. Qed.

Lemma sized_opening r env parts : sized (opening r env parts).
Proof.
  unfold sized, opening, Reader.resize_parts. cbn.
  rewrite length_app, length_take, length_replicate. lia.
Qed.

(** X9: [close] keeps the inventory of the parts, and [open] only
    resizes it.  A reader whose first part was inventoried, closed and
    opened again on any readable file with at least one part, does not
    read that file's header: [open] succeeds, and the spec it hands out
    is the one of the part inventoried before. *)
Theorem reopen_keeps_inventoried_parts
  (r0 : Reader.t) (env : Reader.open_env) (parts : list exr_part) :
  PartInfo.initialized (Reader.part_at r0 0) = true ->
  0 < PartInfo.nmiplevels (Reader.part_at r0 0) ->
  Reader.io_readable env = true ->
  Reader.file_parts env = Some parts -> parts <> [] ->
  let res :=
    Reader.open stdlib basetype_merge extract_from_list_string
      (snd (Reader.close r0)) env in
  fst res = true
  /\ Reader.m_exr_context (snd res) = Some parts
  /\ Reader.part_at (snd res) 0 = Reader.part_at r0 0
  /\ Reader.m_spec (snd res)
     = PartInfo.compute_mipres (Reader.part_at r0 0) 0
         (PartInfo.spec (Reader.part_at r0 0))
  /\ Reader.errors (snd res) = Reader.errors r0.
Proof.
  intros Hinit Hlev Hio Hparts Hne res. subst res. fold open.
  rewrite open_unfold, Hio, Hparts. cbn [negb].
  set (r := snd (Reader.close r0)).
  pose proof (initialized_in_range r0 0 Hinit) as Hlen.
  assert (0 < length parts)%nat as Hn by (destruct parts; simpl; [congruence|lia]).
  assert (Reader.part_at (opening r env parts) 0 = Reader.part_at r0 0) as Hp.
  { unfold Reader.part_at, opening, Reader.resize_parts. cbn.
    rewrite lookup_app_l by (rewrite length_take; lia).
    rewrite lookup_take_lt by lia. reflexivity. }
  rewrite (seek_subimage_sought (opening r env parts) 0 0
             (Reader.part_at r0 0) (Reader.errors r0)).
  - cbn [fst snd]. split; [reflexivity|]. split; [reflexivity|].
    split; [|split; reflexivity].
    rewrite part_at_sought; [reflexivity|apply sized_opening|cbn; lia].
  - cbn. lia.
  - unfold inventory. rewrite Hp, Hinit. reflexivity.
  - lia.
Qed.


(** *** [spec] and [spec_dimensions] *)

(** X11: [spec] hands out what a seek to the same subimage and miplevel
    leaves as the current spec, and the default spec where that seek
    fails.  It leaves the reader as it is when the part is inventoried;
    otherwise it does seek, and moves the reader. *)
Theorem spec_agrees_with_seek (r : Reader.t) (subimage miplevel : Z) :
  sized r ->
  let res := Queries.spec stdlib basetype_merge r subimage miplevel in
  let sought := Reader.seek_subimage stdlib basetype_merge r subimage miplevel in
  fst res = (if fst sought then Reader.m_spec (snd sought)
             else ImageSpec.default)
  /\ snd res = (if PartInfo.initialized (Reader.part_at r subimage)
                then r else snd sought).
Proof.
  intros Hsz. cbv zeta. unfold Queries.spec. fold seek.
  rewrite seek_subimage_unfold.
  destruct ((subimage <? 0) || (Reader.m_nsubimages r <=? subimage)) eqn:Hs.
  { split; [reflexivity|]. now destruct (PartInfo.initialized _). }
  assert (0 <= subimage < Reader.m_nsubimages r) as Hs' by lia.
  destruct (PartInfo.initialized (Reader.part_at r subimage)) eqn:Hinit.
  - rewrite (inventory_of_initialized r subimage Hinit).
    cbn [negb]. cbv iota beta zeta.
    destruct ((miplevel <? 0) || _); split; reflexivity.
  - destruct (inventory r subimage) as [[[] part] errs] eqn:Hinv;
      cbn [negb]; cbv iota beta zeta; [|split; reflexivity].
    destruct ((miplevel <? 0)
              || (PartInfo.nmiplevels part <=? miplevel)) eqn:Hm.
    + cbn [negb fst snd]. split; reflexivity.
    + cbn [negb fst snd].
      rewrite (part_at_sought r subimage miplevel part errs Hsz Hs'), Hm.
      split; reflexivity.
Qed.

Variable copy_dimensions : ImageSpec.t -> ImageSpec.t -> ImageSpec.t.

(** The data window and the full window of a spec. *)
Definition windows (sp : ImageSpec.t) : list Z :=
  [ImageSpec.x sp; ImageSpec.y sp; ImageSpec.width sp; ImageSpec.height sp;
   ImageSpec.full_x sp; ImageSpec.full_y sp;
   ImageSpec.full_width sp; ImageSpec.full_height sp].

Lemma compute_mipres_windows part miplevel sp sp' :
  windows sp = windows sp' ->
  windows (PartInfo.compute_mipres part miplevel sp)
  = windows (PartInfo.compute_mipres part miplevel sp').
Proof.
  intros H. unfold PartInfo.compute_mipres.
  destruct (PartInfo.levelmode part); [exact H| | |];
    destruct (PartInfo.mip_loop _ _ _ _) as [w h] || idtac;
    destruct (miplevel =? 0), (PartInfo.cubeface part); reflexivity.
Qed.

(** X12: [spec_dimensions] returns the default spec where [spec] does,
    and has the effect of [spec] on the reader.  Elsewhere it hands out,
    for the same part, the level's spec made from the copied dimensions;
    as [copy_dimensions] copies the data window and the full window, the
    two functions hand out the same windows. *)
Theorem spec_dimensions_agrees_with_spec (r : Reader.t) (subimage miplevel : Z) :
  sized r ->
  (forall ret other, windows (copy_dimensions ret other) = windows other) ->
  let dims :=
    Queries.spec_dimensions stdlib basetype_merge copy_dimensions r subimage
      miplevel in
  let full := Queries.spec stdlib basetype_merge r subimage miplevel in
  windows (fst dims) = windows (fst full)
  /\ snd dims = snd full
  /\ ((fst dims = ImageSpec.default /\ fst full = ImageSpec.default)
      \/ exists part,
           fst full
           = PartInfo.compute_mipres part miplevel (PartInfo.spec part)
           /\ fst dims
              = PartInfo.compute_mipres part miplevel
                  (copy_dimensions ImageSpec.default (PartInfo.spec part))).
Proof.
  intros _ Hcopy. cbv zeta. unfold Queries.spec_dimensions, Queries.spec.
  destruct ((subimage <? 0) || (Reader.m_nsubimages r <=? subimage));
    [repeat split; now left|].
  destruct (if PartInfo.initialized (Reader.part_at r subimage)
            then (true, r)
            else Reader.seek_subimage stdlib basetype_merge r subimage miplevel)
    as [[] r1] eqn:Hseek; cbn [negb]; cbv iota beta;
    [|repeat split; now left].
  destruct ((miplevel <? 0) || _); [repeat split; now left|].
  cbn [fst snd]. split; [|split; [reflexivity|]].
  - apply compute_mipres_windows, Hcopy.
  - right. eexists. split; reflexivity.
Qed.

End WithLibraries.

(** *** The theorems at work *)

(** A file of one scanline part, 16 by 16 pixels, with a half channel
    "R", and a reader sized for it. *)
Definition one_part_file : list exr_part :=
  [Examples.scanline_part [ChannelCatalog.mkEntry "R" EXR_PIXEL_HALF 1 1]].

Definition sized_reader : Reader.t := Examples.fresh_reader one_part_file.

(** A reader as its constructor leaves it. *)
Definition constructed_reader : Reader.t :=
  Reader.mk [] 0 0 None 0 Vector.empty_vector ImageSpec.default [].

Definition readable (parts : list exr_part) : Reader.open_env :=
  Reader.mkOpenEnv None "" true (Some parts).

Lemma seek_subimage_settles_witness :
  let r' :=
    snd (Reader.seek_subimage SortImpl.insertion_sort Examples.merge_first
           sized_reader 0 0) in
  Reader.current_subimage r' = 0
  /\ PartInfo.initialized (Reader.part_at r' 0) = true
  /\ Reader.seek_subimage SortImpl.insertion_sort Examples.merge_first r' 0 0
     = (true, r').
Proof.
  intros r'.
  destruct (seek_subimage_settles SortImpl.insertion_sort Examples.merge_first
              sized_reader r' 0 0)
    as (H1 & _ & H3 & _ & _ & _ & H7).
  - reflexivity.
  - vm_compute. reflexivity.
  - split; [exact H1|]. split; [exact H3|exact H7].
Defined.

Lemma inventoried_part_is_final_witness :
  Reader.part_at
    (snd (Reader.seek_subimage SortImpl.insertion_sort Examples.merge_first
            ScanFacts.scanline_reader 0 7)) 0
  = Reader.part_at ScanFacts.scanline_reader 0
  /\ Reader.errors
       (snd (Reader.seek_subimage SortImpl.insertion_sort Examples.merge_first
               ScanFacts.scanline_reader 0 7)) = [].
Proof.
  destruct (inventoried_part_is_final SortImpl.insertion_sort
              Examples.merge_first ScanFacts.scanline_reader 0)
    as (H1 & H2 & _).
  - vm_compute. reflexivity.
  - lia.
  - split; [apply H1|apply H2].
Defined.

(** A reader that read the 16 by 16 file, closed and opened on a file
    whose header cannot be read: [open] succeeds and hands out the spec of
    the 16 by 16 file. *)
Lemma reopen_keeps_inventoried_parts_witness :
  let res :=
    Reader.open SortImpl.insertion_sort Examples.merge_first (fun _ => [])
      (snd (Reader.close ScanFacts.scanline_reader))
      (readable [Examples.unreadable_part]) in
  fst res = true
  /\ ImageSpec.width (Reader.m_spec (snd res)) = 16
  /\ ImageSpec.channelnames (Reader.m_spec (snd res)) = ["R"%string].
Proof.
  intros res.
  destruct (reopen_keeps_inventoried_parts SortImpl.insertion_sort
              Examples.merge_first (fun _ => []) ScanFacts.scanline_reader
              (readable [Examples.unreadable_part]) [Examples.unreadable_part])
    as (H1 & _ & _ & H4 & _).
  - vm_compute. reflexivity.
  - vm_compute. reflexivity.
  - reflexivity.
  - reflexivity.
  - discriminate.
  - fold res in H1, H4. split; [exact H1|]. rewrite H4.
    split; vm_compute; reflexivity.
Defined.


Lemma spec_agrees_with_seek_witness :
  let res :=
    Queries.spec SortImpl.insertion_sort Examples.merge_first sized_reader 0 0 in
  ImageSpec.height (fst res) = 16
  /\ Reader.current_subimage (snd res) = 0.
Proof.
  intros res.
  destruct (spec_agrees_with_seek SortImpl.insertion_sort Examples.merge_first
              sized_reader 0 0) as [H1 H2].
  - reflexivity.
  - fold res in H1, H2. rewrite H1, H2. split; vm_compute; reflexivity.
Defined.

(** A [copy_dimensions] that copies all but the channel names. *)
Definition copy_all_but_names (ret other : ImageSpec.t) : ImageSpec.t :=
  ImageSpec.set_channelnames other (ImageSpec.channelnames ret).

Lemma spec_dimensions_agrees_with_spec_witness :
  let dims :=
    Queries.spec_dimensions SortImpl.insertion_sort Examples.merge_first
      copy_all_but_names sized_reader 0 0 in
  windows (fst dims) = [0; 0; 16; 16; 0; 0; 16; 16]
  /\ ImageSpec.channelnames (fst dims) = [].
Proof.
  intros dims.
  destruct (spec_dimensions_agrees_with_spec SortImpl.insertion_sort
              Examples.merge_first copy_all_but_names sized_reader 0 0)
    as (H1 & _ & _).
  - reflexivity.
  - intros ret other. reflexivity.
  - fold dims in H1. rewrite H1. split; vm_compute; reflexivity.
Defined.

End StateFacts.

Module HeaderFacts.

Import ChannelCatalog.

(** What the catalog keeps of a channel of the file: an entry of the
    file's channel list again. *)
Definition chan_entry (c : ChanNameHolder) : exr_attr_chlist_entry_t :=
  mkEntry (fullname c) (exr_data_type c) (xSampling c) (ySampling c).

(** The catalog's type of a channel is that of its pixel type. *)
Definition typed (c : ChanNameHolder) : Prop :=
  datatype c = TypeDesc_from_ImfPixelType (exr_data_type c).

Lemma chan_entry_new n e : chan_entry (ChanNameHolder_new n e) = e.
Proof.
  unfold ChanNameHolder_new, chan_entry.
  destruct (split_name (name e)). now destruct e.
Qed.

Lemma typed_new n e : typed (ChanNameHolder_new n e).
Proof. unfold ChanNameHolder_new, typed. now destruct (split_name (name e)). Qed.

Lemma chan_entry_emplace_all entries :
  map chan_entry (emplace_all entries) = entries.
Proof.
  unfold emplace_all. apply list_eq. intros i.
  rewrite list_lookup_fmap, list_lookup_imap.
  destruct (entries !! i) as [e|]; simpl; [|reflexivity].
  now rewrite chan_entry_new.
Qed.

Lemma typed_emplace_all entries : Forall typed (emplace_all entries).
Proof.
  unfold emplace_all. apply Forall_forall. intros c Hin.
  apply list_elem_of_lookup in Hin as [i Hi].
  rewrite list_lookup_imap in Hi.
  destruct (entries !! i) as [e|]; simpl in Hi; [|discriminate].
  injection Hi as <-. apply typed_new.
Qed.

Lemma layer_special_entry group :
  map chan_entry (layer_special group) = map chan_entry group
  /\ (Forall typed group -> Forall typed (layer_special group)).
Proof.
  unfold layer_special.
  destruct (suffixfound "X" group && _); (split;
    [rewrite map_map; apply map_ext; intros c;
     unfold compute_special_index_xyz, compute_special_index;
     destruct (special_loop _ _ _); reflexivity
    |intros H; apply Forall_map; eapply Forall_impl; [exact H|];
     intros c Hc; unfold compute_special_index_xyz, compute_special_index;
     destruct (special_loop _ _ _); exact Hc]).
Qed.

Section WithLibraries.

Variable stdlib : StdSort.

Lemma layers_loop_entry fuel : forall cnh,
  Permutation (map chan_entry cnh)
    (map chan_entry (layers_loop stdlib fuel cnh))
  /\ (Forall typed cnh -> Forall typed (layers_loop stdlib fuel cnh)).
Proof.
  induction fuel as [|fuel IH]; intros cnh; [split; [reflexivity|auto]|].
  destruct cnh as [|b rest]; [split; [reflexivity|auto]|]. simpl.
  destruct (layer_scan b rest) as [span post] eqn:Hs.
  destruct (CatalogFacts.layer_scan_spec _ _ _ _ Hs) as (-> & _ & _).
  destruct (IH post) as [IH1 IH2].
  destruct (layer_special_entry (b :: span)) as [L1 L2].
  split.
  - rewrite !map_app. rewrite <- IH1.
    rewrite <- (Permutation_map chan_entry
                  (std_sort_perm stdlib _ compare_cnh _)).
    rewrite L1. reflexivity.
  - intros H. apply Forall_cons in H as [Hb H].
    apply Forall_app in H as [Hsp Hpo].
    apply Forall_app. split; [|now apply IH2].
    eapply Permutation_Forall; [apply std_sort_perm|].
    apply L2. now constructor.
Qed.

(** The channels presented are the channels of the file, each with its
    name, pixel type and sampling, in another order. *)
Lemma canonical_order_entries entries :
  Permutation entries (map chan_entry (canonical_order stdlib entries))
  /\ Forall typed (canonical_order stdlib entries).
Proof.
  unfold canonical_order, layer_pass.
  destruct (layers_loop_entry
              (length (std_sort stdlib compare_layer (emplace_all entries)))
              (std_sort stdlib compare_layer (emplace_all entries)))
    as [H1 H2].
  split.
  - rewrite <- H1.
    rewrite <- (Permutation_map chan_entry
                  (std_sort_perm stdlib _ compare_layer _)).
    now rewrite chan_entry_emplace_all.
  - apply H2. eapply Permutation_Forall; [apply std_sort_perm|].
    apply typed_emplace_all.
Qed.

Variable basetype_merge : TypeDesc -> TypeDesc -> TypeDesc.

(** The fields of a spec that the loop over the channels leaves alone,
    and those of the part. *)
Definition spec_frame (sp : ImageSpec.t) :=
  (ImageSpec.x sp, ImageSpec.y sp, ImageSpec.z sp,
   ImageSpec.width sp, ImageSpec.height sp, ImageSpec.depth sp,
   ImageSpec.full_x sp, ImageSpec.full_y sp,
   ImageSpec.full_width sp, ImageSpec.full_height sp,
   ImageSpec.tile_width sp, ImageSpec.tile_height sp,
   ImageSpec.nchannels sp, ImageSpec.deep sp).

Definition part_frame (p : PartInfo.t) :=
  (PartInfo.initialized p, PartInfo.topwidth p, PartInfo.topheight p,
   PartInfo.levelmode p, PartInfo.roundingmode p, PartInfo.cubeface p,
   PartInfo.nmiplevels p, PartInfo.top_datawindow p,
   PartInfo.top_displaywindow p).

Definition same_type (ch0 ch : ChanNameHolder) : bool :=
  TypeDesc_eqb (datatype ch) (datatype ch0).

Definition unsampled (ch : ChanNameHolder) : bool :=
  (xSampling ch =? 1) && (ySampling ch =? 1).

Lemma chan_body_fields ch0 c ch st :
  let st' := PartInfo.chan_body basetype_merge ch0 c ch st in
  let sp := PartInfo.spec (PartInfo.cl_part st) in
  let sp' := PartInfo.spec (PartInfo.cl_part st') in
  ImageSpec.channelnames sp' = ImageSpec.channelnames sp ++ [fullname ch]
  /\ ImageSpec.channelformats sp'
     = ImageSpec.channelformats sp ++ [datatype ch]
  /\ ImageSpec.format sp' = basetype_merge (ImageSpec.format sp) (datatype ch)
  /\ PartInfo.cl_all_one_format st'
     = PartInfo.cl_all_one_format st && same_type ch0 ch
  /\ PartInfo.cl_ok st' = PartInfo.cl_ok st && unsampled ch
  /\ spec_frame sp' = spec_frame sp
  /\ part_frame (PartInfo.cl_part st') = part_frame (PartInfo.cl_part st)
  /\ (unsampled ch = true -> PartInfo.cl_errors st' = PartInfo.cl_errors st).
Proof.
  unfold PartInfo.chan_body, unsampled, same_type. cbv zeta.
  destruct (Z.eqb_spec (xSampling ch) 1), (Z.eqb_spec (ySampling ch) 1);
    cbn [negb orb andb];
    repeat match goal with
           | |- context [if ?b then _ else _] => destruct b
           end;
    cbn; rewrite ?andb_true_r, ?andb_false_r;
    repeat split; try reflexivity; try discriminate.
Qed.

Lemma chan_loop_from_fields ch0 cnh : forall c st,
  let st' := PartInfo.chan_loop_from basetype_merge ch0 c cnh st in
  let sp := PartInfo.spec (PartInfo.cl_part st) in
  let sp' := PartInfo.spec (PartInfo.cl_part st') in
  ImageSpec.channelnames sp' = ImageSpec.channelnames sp ++ map fullname cnh
  /\ ImageSpec.channelformats sp'
     = ImageSpec.channelformats sp ++ map datatype cnh
  /\ ImageSpec.format sp'
     = fold_left basetype_merge (map datatype cnh) (ImageSpec.format sp)
  /\ PartInfo.cl_all_one_format st'
     = PartInfo.cl_all_one_format st && forallb (same_type ch0) cnh
  /\ PartInfo.cl_ok st' = PartInfo.cl_ok st && forallb unsampled cnh
  /\ spec_frame sp' = spec_frame sp
  /\ part_frame (PartInfo.cl_part st') = part_frame (PartInfo.cl_part st)
  /\ (forallb unsampled cnh = true ->
      PartInfo.cl_errors st' = PartInfo.cl_errors st).
Proof.
  induction cnh as [|ch cnh IH]; intros c st; cbn [PartInfo.chan_loop_from].
  - cbn. rewrite !app_nil_r, !andb_true_r. repeat split; reflexivity.
  - destruct (chan_body_fields ch0 c ch st)
      as (B1 & B2 & B3 & B4 & B5 & B6 & B7 & B8).
    destruct (IH (c + 1) (PartInfo.chan_body basetype_merge ch0 c ch st))
      as (I1 & I2 & I3 & I4 & I5 & I6 & I7 & I8).
    cbv zeta in *. cbn [map fold_left forallb].
    rewrite I1, I2, I3, I4, I5, I6, I7, B1, B2, B3, B4, B5, B6, B7.
    rewrite <- !app_assoc, !andb_assoc. cbn [app].
    repeat split; try reflexivity.
    intros H. apply andb_true_iff in H as [H1 H2].
    rewrite I8, B8 by assumption. reflexivity.
Qed.

(** What is asked of [basetype_merge]: merging with the unknown type,
    or with the same type, gives that type. *)
Definition merges (merge : TypeDesc -> TypeDesc -> TypeDesc) : Prop :=
  (forall t, merge TypeUnknown t = t) /\ (forall t, merge t t = t).

Lemma merge_same t fmts :
  merges basetype_merge -> fmts <> [] -> Forall (eq t) fmts ->
  fold_left basetype_merge fmts TypeUnknown = t.
Proof.
  intros [Hu Hs] Hne Hall. destruct fmts as [|t0 fmts]; [congruence|].
  apply Forall_cons in Hall as [<- Hall]. cbn. rewrite Hu. clear Hne.
  induction Hall as [|t' fmts Heq _ IH]; cbn; [reflexivity|].
  subst t'. rewrite Hs. exact IH.
Qed.

(** The file's channels are all sampled at every pixel. *)
Definition all_unsampled (chlist : list exr_attr_chlist_entry_t) : Prop :=
  Forall (fun e => x_sampling e = 1 /\ y_sampling e = 1) chlist.

Lemma unsampled_canonical_order chlist :
  all_unsampled chlist ->
  forallb unsampled (canonical_order stdlib chlist) = true.
Proof.
  intros Hall. apply forallb_forall. intros ch Hin.
  destruct (canonical_order_entries chlist) as [Hperm _].
  assert (In (chan_entry ch) chlist) as He.
  { eapply Permutation_in; [symmetry; exact Hperm|]. now apply in_map. }
  unfold all_unsampled in Hall. rewrite Forall_forall in Hall.
  apply list_elem_of_In in He. destruct (Hall _ He) as [Hx Hy].
  unfold unsampled. cbn in Hx, Hy. rewrite Hx, Hy. reflexivity.
Qed.

Lemma canonical_order_length chlist :
  length (canonical_order stdlib chlist) = length chlist.
Proof.
  destruct (canonical_order_entries chlist) as [Hperm _].
  apply Permutation_length in Hperm. now rewrite length_map in Hperm.
Qed.

(** [query_channels] on a channel list that is not empty and has no
    subsampled channel. *)
Lemma query_channels_true part ctxt subimage errs chlist :
  exr_get_part ctxt subimage ≫= hdr_channels = Some chlist ->
  chlist <> [] -> all_unsampled chlist ->
  ImageSpec.channelformats (PartInfo.spec part) = [] ->
  merges basetype_merge ->
  exists part',
    PartInfo.query_channels stdlib basetype_merge part ctxt subimage errs
    = (true, part', errs)
    /\ ImageSpec.channelnames (PartInfo.spec part')
       = ImageSpec.channelnames (PartInfo.spec part)
         ++ map fullname (canonical_order stdlib chlist)
    /\ ImageSpec.nchannels (PartInfo.spec part') = Z.of_nat (length chlist)
    /\ (forall i ch, canonical_order stdlib chlist !! i = Some ch ->
          ImageSpec.channelformat (PartInfo.spec part') (Z.of_nat i)
          = datatype ch)
    /\ (forall sp0,
          spec_frame (ImageSpec.set_nchannels (PartInfo.spec part')
                        (ImageSpec.nchannels sp0))
          = spec_frame (ImageSpec.set_nchannels (PartInfo.spec part)
                          (ImageSpec.nchannels sp0)))
    /\ part_frame part' = part_frame part.
Proof.
  intros Hch Hne Hall Hfmt Hmerge. unfold PartInfo.query_channels.
  rewrite Hch.
  destruct (emplace_all chlist) as [|c0 cnh0] eqn:Hem.
  { apply (f_equal (@length _)) in Hem. unfold emplace_all in Hem.
    rewrite length_imap in Hem. destruct chlist; [congruence|discriminate]. }
  assert (length (c0 :: cnh0) = length chlist) as Hlen.
  { rewrite <- Hem. unfold emplace_all. now rewrite length_imap. }
  cbv zeta.
  set (cnh := canonical_order stdlib chlist).
  set (ch0 := hd _ cnh). set (st0 := PartInfo.mkLoop _ true true errs).
  destruct (chan_loop_from_fields ch0 cnh 0 st0)
    as (I1 & I2 & I3 & I4 & I5 & I6 & I7 & I8).
  cbv zeta in *.
  set (st' := PartInfo.chan_loop_from _ _ _ _ _) in *.
  pose proof (unsampled_canonical_order chlist Hall) as Hun. fold cnh in Hun.
  rewrite Hun in I5. cbn in I5. rewrite I5, (I8 Hun). cbn [PartInfo.cl_errors st0].
  eexists. split; [reflexivity|].
  assert (Hnames : ImageSpec.channelnames (PartInfo.spec (PartInfo.cl_part st'))
                   = ImageSpec.channelnames (PartInfo.spec part)
                     ++ map fullname cnh) by (rewrite I1; reflexivity).
  assert (Hframe : spec_frame (PartInfo.spec (PartInfo.cl_part st'))
                   = spec_frame
                       (ImageSpec.set_nchannels (PartInfo.spec part)
                          (Z.of_nat (length (c0 :: cnh0)))))
    by (rewrite I6; reflexivity).
  assert (Hpart : part_frame (PartInfo.cl_part st') = part_frame part)
    by (rewrite I7; reflexivity).
  assert (Hn : ImageSpec.nchannels (PartInfo.spec (PartInfo.cl_part st'))
               = Z.of_nat (length chlist)).
  { pose proof (f_equal (fun f => snd (fst f)) Hframe) as Hn.
    unfold spec_frame in Hn.
    cbn [fst snd ImageSpec.nchannels ImageSpec.set_nchannels] in Hn.
    now rewrite Hlen in Hn. }
  assert (Hformats : ImageSpec.channelformats
                       (PartInfo.spec (PartInfo.cl_part st'))
                     = map datatype cnh).
  { rewrite I2. subst st0. cbn. now rewrite Hfmt. }
  assert (Hformat : ImageSpec.format (PartInfo.spec (PartInfo.cl_part st'))
                    = fold_left basetype_merge (map datatype cnh) TypeUnknown)
    by (rewrite I3; reflexivity).
  assert (Hcnh : length cnh = length chlist)
    by apply canonical_order_length.
  clearbody st'. clear I1 I2 I3 I5 I6 I7 I8.
  destruct (PartInfo.cl_all_one_format st') eqn:Hone.
  - cbn [PartInfo.spec PartInfo.set_spec ImageSpec.channelnames
         ImageSpec.set_channelformats ImageSpec.nchannels].
    split; [exact Hnames|].
    split; [exact Hn|].
    split; [|split].
    + intros i ch Hi. unfold ImageSpec.channelformat. cbn.
      assert ((Z.of_nat i <? Z.of_nat 0) = false) as ->
        by (apply Z.ltb_ge; simpl; lia).
      rewrite andb_false_r, Hformat.
      symmetry in I4. cbn in I4. rename I4 into Hone'.
      rewrite forallb_forall in Hone'.
      assert (Forall (eq (datatype ch0)) (map datatype cnh)) as Hsame.
      { apply Forall_map, Forall_forall. intros c Hc.
        apply list_elem_of_In in Hc. apply Hone' in Hc.
        unfold same_type in Hc. apply TypeDesc_eqb_eq in Hc. now symmetry. }
      rewrite (merge_same (datatype ch0)); [| exact Hmerge | | exact Hsame].
      * apply list_elem_of_lookup_2, list_elem_of_In, Hone' in Hi.
        unfold same_type in Hi. apply TypeDesc_eqb_eq in Hi. now symmetry.
      * destruct cnh; [discriminate Hi|discriminate].
    + intros sp0. unfold spec_frame in Hframe |- *. cbn in Hframe |- *.
      injection Hframe; intros; congruence.
    + rewrite <- Hpart. reflexivity.
  - split; [exact Hnames|].
    split; [exact Hn|].
    split; [|split].
    + intros i ch Hi. unfold ImageSpec.channelformat. rewrite Hformats.
      rewrite length_map.
      pose proof (lookup_lt_Some _ _ _ Hi) as Hlt.
      replace ((0 <=? Z.of_nat i) && (Z.of_nat i <? Z.of_nat (length cnh)))
        with true by lia.
      rewrite Nat2Z.id.
      apply nth_lookup_Some with (d := ImageSpec.format
                                         (PartInfo.spec (PartInfo.cl_part st'))).
      rewrite list_lookup_fmap, Hi. reflexivity.
    + intros sp0. unfold spec_frame in Hframe |- *. cbn in Hframe |- *.
      injection Hframe; intros; congruence.
    + exact Hpart.
Qed.

(** A window whose width and height are 32-bit values. *)
Definition sane_window (b : exr_attr_box2i_t) : Prop :=
  -1 <= max_x b - min_x b < 2 ^ 31 - 1
  /\ -1 <= max_y b - min_y b < 2 ^ 31 - 1.

(** The header of a part stored as scanlines, as the header queries
    answer: windows, a channel list that is not empty and has no
    subsampled channel, and attributes that can all be read. *)
Record scanline_header (hdr : option exr_part) (dw dpw : exr_attr_box2i_t)
  (chlist : list exr_attr_chlist_entry_t) : Prop := {
  sh_data_window : hdr ≫= hdr_data_window = Some dw;
  sh_display_window : hdr ≫= hdr_display_window = Some dpw;
  sh_storage : hdr ≫= hdr_storage = Some EXR_STORAGE_SCANLINE;
  sh_channels : hdr ≫= hdr_channels = Some chlist;
  sh_attributes : hdr_attributes_ok <$> hdr = Some true;
  sh_some_channel : chlist <> [];
  sh_unsampled : all_unsampled chlist;
  sh_data_sane : sane_window dw;
  sh_display_sane : sane_window dpw
}.

Lemma int32_extent lo hi :
  -1 <= hi - lo < 2 ^ 31 - 1 -> int32 (int32 (hi - lo) + 1) = hi - lo + 1.
Proof.
  intros H. rewrite (MipFacts.int32_id (hi - lo))
    by (unfold MipFacts.in_int32; lia).
  apply MipFacts.int32_id. unfold MipFacts.in_int32. lia.
Qed.

(** [parse_header] on such a header. *)
Lemma parse_header_scanline part ctxt subimage errs dw dpw chlist :
  PartInfo.initialized part = false ->
  scanline_header (exr_get_part ctxt subimage) dw dpw chlist ->
  merges basetype_merge ->
  exists part',
    PartInfo.parse_header stdlib basetype_merge part ctxt subimage errs
    = (true, part', errs)
    /\ PartInfo.initialized part' = true
    /\ PartInfo.levelmode part' = EXR_TILE_ONE_LEVEL
    /\ PartInfo.nmiplevels part' = 1
    /\ PartInfo.top_datawindow part' = dw
    /\ PartInfo.top_displaywindow part' = dpw
    /\ (let sp := PartInfo.spec part' in
        ImageSpec.x sp = min_x dw /\ ImageSpec.y sp = min_y dw
        /\ ImageSpec.width sp = max_x dw - min_x dw + 1
        /\ ImageSpec.height sp = max_y dw - min_y dw + 1
        /\ ImageSpec.full_x sp = min_x dpw /\ ImageSpec.full_y sp = min_y dpw
        /\ ImageSpec.full_width sp = max_x dpw - min_x dpw + 1
        /\ ImageSpec.full_height sp = max_y dpw - min_y dpw + 1
        /\ ImageSpec.tile_width sp = 0 /\ ImageSpec.tile_height sp = 0
        /\ ImageSpec.deep sp = false
        /\ ImageSpec.nchannels sp = Z.of_nat (length chlist)
        /\ ImageSpec.channelnames sp
           = map fullname (canonical_order stdlib chlist)
        /\ forall i ch, canonical_order stdlib chlist !! i = Some ch ->
             ImageSpec.channelformat sp (Z.of_nat i) = datatype ch).
Proof.
  intros Hinit Hh Hmerge. destruct Hh as [Hdw Hdpw Hst Hch Hattr Hne Hun Hsd Hsp].
  unfold PartInfo.parse_header. rewrite Hinit, Hdw, Hdpw, Hst. cbv zeta.
  cbv iota beta.
  match goal with
  | |- context [PartInfo.query_channels _ _ ?p _ _ _] =>
      destruct (query_channels_true p ctxt subimage errs chlist Hch Hne Hun
                  eq_refl Hmerge)
        as (part' & -> & Hnames & Hn & Hfmt & Hframe & Hpart)
  end.
  rewrite Hattr. cbn [default negb].
  destruct (exr_get_part ctxt subimage ≫= hdr_envmap_cube) as [cube|];
    (eexists; split; [reflexivity|]).
  all: unfold part_frame in Hpart; cbn in Hpart;
    injection Hpart as _ P2 P3 P4 P5 P6 P7 P8 P9;
    specialize (Hframe ImageSpec.default); unfold spec_frame in Hframe;
    cbn in Hframe;
    injection Hframe as F1 F2 F3 F4 F5 F6 F7 F8 F9 F10 F11 F12 F13;
    destruct Hsd as [Hsx Hsy], Hsp as [Hpx Hpy];
    rewrite !int32_extent in * by assumption;
    cbn in Hnames;
    cbn; repeat (split; [first [reflexivity | assumption]|]);
    exact Hfmt.
Qed.

End WithLibraries.

End HeaderFacts.

Module OpenedFile.

Import ChannelCatalog Codec MemFacts HeaderFacts StateFacts.

Section WithLibraries.

Variable stdlib : StdSort.
Variable basetype_merge : TypeDesc -> TypeDesc -> TypeDesc.
Variable extract_from_list_string : string -> list float.

Hypothesis Hmerge : merges basetype_merge.

(** The part [open] inventories on a reader that was never used, for a
    file whose first part has a scanline header. *)
Lemma open_scanline_file r env parts dw dpw chlist :
  Reader.m_parts r = [] ->
  Reader.io_readable env = true -> Reader.file_parts env = Some parts ->
  scanline_header (exr_get_part (Some parts) 0) dw dpw chlist ->
  exists part,
    Reader.open stdlib basetype_merge extract_from_list_string r env
    = (true, sought (opening extract_from_list_string r env parts) 0 0 part
               (Reader.errors r))
    /\ Reader.part_at
         (sought (opening extract_from_list_string r env parts) 0 0 part
            (Reader.errors r)) 0 = part
    /\ PartInfo.compute_mipres part 0 (PartInfo.spec part) = PartInfo.spec part
    /\ PartInfo.initialized part = true
    /\ (let sp := PartInfo.spec part in
        ImageSpec.x sp = min_x dw /\ ImageSpec.y sp = min_y dw
        /\ ImageSpec.width sp = max_x dw - min_x dw + 1
        /\ ImageSpec.height sp = max_y dw - min_y dw + 1
        /\ ImageSpec.full_x sp = min_x dpw /\ ImageSpec.full_y sp = min_y dpw
        /\ ImageSpec.full_width sp = max_x dpw - min_x dpw + 1
        /\ ImageSpec.full_height sp = max_y dpw - min_y dpw + 1
        /\ ImageSpec.tile_width sp = 0 /\ ImageSpec.tile_height sp = 0
        /\ ImageSpec.deep sp = false
        /\ ImageSpec.nchannels sp = Z.of_nat (length chlist)
        /\ ImageSpec.channelnames sp
           = map fullname (canonical_order stdlib chlist)
        /\ forall i ch, canonical_order stdlib chlist !! i = Some ch ->
             ImageSpec.channelformat sp (Z.of_nat i) = datatype ch).
Proof.
  intros Hfresh Hio Hparts Hh.
  rewrite (open_unfold stdlib basetype_merge extract_from_list_string).
  rewrite Hio, Hparts. cbn [negb].
  set (r1 := opening extract_from_list_string r env parts).
  assert (0 < length parts)%nat as Hn.
  { destruct Hh as [Hdw _ _ _ _ _ _ _ _]. destruct parts; [discriminate|].
    simpl. lia. }
  assert (Reader.part_at r1 0 = PartInfo.new) as Hp.
  { unfold Reader.part_at, r1, opening, Reader.resize_parts. cbn.
    rewrite Hfresh. cbn. destruct (length parts); [lia|reflexivity]. }
  destruct (parse_header_scanline stdlib basetype_merge PartInfo.new
              (Some parts) 0 (Reader.errors r) dw dpw chlist eq_refl Hh Hmerge)
    as (part & Hparse & Hi & Hlm & Hlv & _ & _ & Hsp).
  assert (inventory stdlib basetype_merge r1 0
          = (true, PartInfo.set_initialized part true, Reader.errors r)) as Hinv.
  { unfold inventory. rewrite Hp. cbn [PartInfo.initialized PartInfo.new].
    change (Reader.m_exr_context r1) with (Some parts).
    change (Reader.errors r1) with (Reader.errors r).
    now rewrite Hparse. }
  exists (PartInfo.set_initialized part true).
  rewrite (seek_subimage_sought stdlib basetype_merge r1 0 0 _ _
             ltac:(cbn; lia) Hinv ltac:(cbn; lia)).
  split; [reflexivity|].
  split; [apply part_at_sought; [apply sized_opening|cbn; lia]|].
  split; [now apply mipres_one_level|].
  split; [reflexivity|]. exact Hsp.
Qed.

(** The channels of a spec filled from the presented order of the file's
    channels are channels of the file. *)
Lemma channels_of_file (sp : ImageSpec.t)
  (chlist : list exr_attr_chlist_entry_t) :
  ImageSpec.nchannels sp = Z.of_nat (length chlist) ->
  ImageSpec.channelnames sp = map fullname (canonical_order stdlib chlist) ->
  (forall i ch, canonical_order stdlib chlist !! i = Some ch ->
     ImageSpec.channelformat sp (Z.of_nat i) = datatype ch) ->
  forall c, 0 <= c < ImageSpec.nchannels sp ->
    exists e, In e chlist
      /\ ImageSpec.channel_name sp c = name e
      /\ ImageSpec.channelformat sp c
         = TypeDesc_from_ImfPixelType (pixel_type e).
Proof.
  intros Hn Hnames Hfmt c Hc.
  destruct (canonical_order_entries stdlib chlist) as [Hperm Htyped].
  rewrite Hn in Hc.
  rewrite <- (canonical_order_length stdlib chlist) in Hc.
  destruct (lookup_lt_is_Some_2 (canonical_order stdlib chlist) (Z.to_nat c)
              ltac:(lia)) as [ch Hch].
  exists (chan_entry ch). split; [|split].
  - eapply Permutation_in; [symmetry; exact Hperm|].
    apply in_map. eapply list_elem_of_In, list_elem_of_lookup_2, Hch.
  - unfold ImageSpec.channel_name. rewrite Hnames, length_map.
    replace ((0 <=? c)
             && (c <? Z.of_nat (length (canonical_order stdlib chlist))))
      with true by lia.
    apply nth_lookup_Some. rewrite list_lookup_fmap, Hch. reflexivity.
  - specialize (Hfmt _ _ Hch). rewrite Z2Nat.id in Hfmt by lia.
    rewrite Hfmt. rewrite Forall_forall in Htyped.
    apply Htyped. eapply list_elem_of_lookup_2, Hch.
Qed.

Lemma channel_names_of_file (sp : ImageSpec.t)
  (chlist : list exr_attr_chlist_entry_t) :
  ImageSpec.channelnames sp = map fullname (canonical_order stdlib chlist) ->
  Permutation (map name chlist) (ImageSpec.channelnames sp).
Proof.
  intros ->.
  destruct (canonical_order_entries stdlib chlist) as [Hperm _].
  replace (map fullname (canonical_order stdlib chlist))
    with (map name (map chan_entry (canonical_order stdlib chlist)))
    by (rewrite map_map; reflexivity).
  now apply Permutation_map.
Qed.

(** X13: [open] on a reader that was never used, given a readable file
    whose first part has a scanline header: it succeeds without a
    message, and the spec it hands out describes the file.  The data
    window and the display window are those of the header; there is one
    channel per channel of the file, under the file's names in the
    presented order, each with the format of its pixel type. *)
Theorem open_describes_file (r : Reader.t) (env : Reader.open_env)
  (parts : list exr_part) (dw dpw : exr_attr_box2i_t)
  (chlist : list exr_attr_chlist_entry_t) :
  Reader.m_parts r = [] ->
  Reader.io_readable env = true -> Reader.file_parts env = Some parts ->
  scanline_header (exr_get_part (Some parts) 0) dw dpw chlist ->
  let res :=
    Reader.open stdlib basetype_merge extract_from_list_string r env in
  let sp := Reader.m_spec (snd res) in
  fst res = true
  /\ Reader.errors (snd res) = Reader.errors r
  /\ (ImageSpec.x sp, ImageSpec.y sp, ImageSpec.width sp, ImageSpec.height sp)
     = (min_x dw, min_y dw, max_x dw - min_x dw + 1, max_y dw - min_y dw + 1)
  /\ (ImageSpec.full_x sp, ImageSpec.full_y sp,
      ImageSpec.full_width sp, ImageSpec.full_height sp)
     = (min_x dpw, min_y dpw,
        max_x dpw - min_x dpw + 1, max_y dpw - min_y dpw + 1)
  /\ ImageSpec.tile_width sp = 0
  /\ ImageSpec.nchannels sp = Z.of_nat (length chlist)
  /\ Permutation (map name chlist) (ImageSpec.channelnames sp)
  /\ (forall c, 0 <= c < ImageSpec.nchannels sp ->
        exists e, In e chlist
          /\ ImageSpec.channel_name sp c = name e
          /\ ImageSpec.channelformat sp c
             = TypeDesc_from_ImfPixelType (pixel_type e)).
Proof.
  intros Hfresh Hio Hparts Hh res sp. subst sp res.
  destruct (open_scanline_file r env parts dw dpw chlist Hfresh Hio Hparts Hh)
    as (part & -> & _ & Hmip & _ & Hsp).
  cbn [fst snd sought Reader.m_spec Reader.errors]. rewrite Hmip.
  cbv zeta in Hsp.
  destruct Hsp as (-> & -> & -> & -> & -> & -> & -> & -> & -> & _ & _
                   & Hn & Hnames & Hfmt).
  repeat (split; [first [reflexivity | assumption]|]).
  split; [now apply channel_names_of_file|].
  now apply channels_of_file.
Qed.

(** A scanline read of the file [open] has just opened: the reader is
    left as it is, and the lines asked for are in the caller's buffer. *)
Lemma read_opened (r0 : Reader.t) (env : Reader.open_env)
  (parts : list exr_part) (dw dpw : exr_attr_box2i_t)
  (chlist : list exr_attr_chlist_entry_t) (scansperchunk : Z)
  (results : nat -> exr_result_t) (ybegin yend chbegin chend : Z)
  (buf : mem) :
  Reader.m_parts r0 = [] ->
  Reader.io_readable env = true -> Reader.file_parts env = Some parts ->
  scanline_header (exr_get_part (Some parts) 0) dw dpw chlist ->
  NoDup (map name chlist) ->
  exr_get_part (Some parts) 0 ≫= hdr_scanlines_per_chunk
  = Some scansperchunk ->
  1 <= scansperchunk ->
  (forall i, results i = EXR_ERR_SUCCESS) ->
  min_y dw <= ybegin <= yend -> yend <= max_y dw + 1 ->
  0 <= chbegin < Z.of_nat (length chlist) ->
  let r :=
    snd (Reader.open stdlib basetype_merge extract_from_list_string r0 env) in
  let sp := Reader.m_spec r in
  let chend' := clamp chend (chbegin + 1) (ImageSpec.nchannels sp) in
  let pixelbytes := ImageSpec.pixel_bytes sp chbegin chend' in
  let scanlinebytes := ImageSpec.width sp * pixelbytes in
  Reader.m_exr_context r = Some parts
  /\ Reader.init_part stdlib basetype_merge r 0 0 = (sp, r)
  /\ ImageSpec.nchannels sp = Z.of_nat (length chlist)
  /\ exists m n,
    Reads.read_native_scanlines stdlib basetype_merge r results 0 0
      ybegin yend chbegin chend buf = Some (true, r, m, n)
    /\ forall y x c k,
         ybegin <= y < yend -> 0 <= x < ImageSpec.width sp ->
         chbegin <= c < chend' ->
         0 <= k < TypeDesc_size (ImageSpec.channelformat sp c) ->
         m !! ((y - ybegin) * scanlinebytes + x * pixelbytes
               + ImageSpec.pixel_bytes sp chbegin c + k)
         = Some (SampleByte (ImageSpec.channel_name sp c) (min_x dw + x) y k).
Proof.
  intros Hfresh Hio Hparts Hh Hnd Hspc Hpos Hres Hy Hyend Hch r sp chend'
    pixelbytes scanlinebytes.
  subst scanlinebytes pixelbytes chend' sp r.
  destruct (open_scanline_file r0 env parts dw dpw chlist Hfresh Hio Hparts Hh)
    as (part & -> & Hpart & Hmip & Hinit & Hsp).
  cbn [snd]. set (r := sought _ 0 0 part _) in *.
  change (Reader.m_spec r)
    with (PartInfo.compute_mipres part 0 (PartInfo.spec part)).
  rewrite Hmip. set (sp := PartInfo.spec part) in *.
  destruct Hsp as (Hx & Hy0 & Hw & Hht & _ & _ & _ & _ & _ & _ & _
                   & Hn & Hnames & Hfmt).
  pose proof (channels_of_file sp chlist Hn Hnames Hfmt) as Hfound.
  pose proof (channel_names_of_file sp chlist Hnames) as Hperm.
  set (chend' := clamp chend (chbegin + 1) (ImageSpec.nchannels sp)).
  assert (chbegin < chend' <= ImageSpec.nchannels sp) as Hce.
  { unfold chend', clamp. rewrite Hn.
    destruct (Z.leb_spec (chbegin + 1) chend); [|lia].
    destruct (Z.leb_spec chend (Z.of_nat (length chlist))); lia. }
  assert (Reader.init_part stdlib basetype_merge r 0 0 = (sp, r)) as Hip.
  { unfold Reader.init_part. rewrite Hpart, Hinit. reflexivity. }
  destruct Hh as [Hdw _ _ Hchl _ _ _ [Hsx Hsy] _].
  assert (ScanContent.file_agrees
            (exr_get_part (Reader.m_exr_context r) 0) sp dw scansperchunk
            chlist) as Hfile.
  { constructor; try assumption. lia. }
  assert (ScanContent.channels_agree sp chbegin chend' chlist) as Hagree.
  { constructor.
    - lia.
    - intros c Hc. destruct (Hfound c ltac:(lia)) as (e & Hin & Hnm & Hf).
      exists e. split; [exact Hin|]. split; [now symmetry|].
      unfold ScanContent.entry_size, ScanContent.size_of. now rewrite Hf.
    - exact Hnd.
    - intros c c' Hc Hc' Heq. unfold ScanContent.name_of in Heq.
      assert (NoDup (ImageSpec.channelnames sp)) as Hnd'
        by now rewrite <- Hperm.
      assert (Z.of_nat (length (ImageSpec.channelnames sp))
              = ImageSpec.nchannels sp) as Hlen.
      { rewrite <- (Permutation_length Hperm), length_map. now rewrite Hn. }
      unfold ImageSpec.channel_name in Heq. rewrite Hlen in Heq.
      replace ((0 <=? c) && (c <? ImageSpec.nchannels sp)) with true in Heq
        by lia.
      replace ((0 <=? c') && (c' <? ImageSpec.nchannels sp)) with true in Heq
        by lia.
      destruct (lookup_lt_is_Some_2 (ImageSpec.channelnames sp) (Z.to_nat c)
                  ltac:(lia)) as [nm Hnm].
      destruct (lookup_lt_is_Some_2 (ImageSpec.channelnames sp) (Z.to_nat c')
                  ltac:(lia)) as [nm' Hnm'].
      rewrite (nth_lookup_Some _ _ EmptyString _ Hnm) in Heq.
      rewrite (nth_lookup_Some _ _ EmptyString _ Hnm') in Heq. subst nm'.
      pose proof (NoDup_lookup _ _ _ _ Hnd' Hnm Hnm'). lia. }
  destruct (ScanContent.read_native_scanlines_rows stdlib basetype_merge
              r r results 0 0 ybegin yend chbegin chend buf sp dw
              scansperchunk chlist ltac:(eexists; reflexivity) Hip Hfile Hagree
              Hres ltac:(lia) ltac:(lia))
    as (m & n & _ & Hread & Hrows & _).
  split; [reflexivity|]. split; [exact Hip|]. split; [exact Hn|].
  exists m, n. split; [exact Hread|].
  intros y x c k Hyr Hxr Hcr Hkr.
  apply (Hrows y x c k Hyr ltac:(lia) Hxr Hcr Hkr).
Qed.

(** X14: a scanline read of the file [open] has just opened.  For a file
    whose first part has a scanline header with channels of distinct
    names, read by a pipeline that does not fail, a read of lines within
    the data window returns true, and every sample of the lines and
    channels asked for is in the caller's buffer at line, pixel and
    channel offset, under the name the spec gives the channel.  The
    channel range may end anywhere: it is cut to the channels there are. *)
Theorem opened_file_scanlines (r0 : Reader.t) (env : Reader.open_env)
  (parts : list exr_part) (dw dpw : exr_attr_box2i_t)
  (chlist : list exr_attr_chlist_entry_t) (scansperchunk : Z)
  (results : nat -> exr_result_t) (ybegin yend chbegin chend : Z)
  (buf : mem) :
  Reader.m_parts r0 = [] ->
  Reader.io_readable env = true -> Reader.file_parts env = Some parts ->
  scanline_header (exr_get_part (Some parts) 0) dw dpw chlist ->
  NoDup (map name chlist) ->
  exr_get_part (Some parts) 0 ≫= hdr_scanlines_per_chunk
  = Some scansperchunk ->
  1 <= scansperchunk ->
  (forall i, results i = EXR_ERR_SUCCESS) ->
  min_y dw <= ybegin <= yend -> yend <= max_y dw + 1 ->
  0 <= chbegin < Z.of_nat (length chlist) ->
  let r :=
    snd (Reader.open stdlib basetype_merge extract_from_list_string r0 env) in
  let sp := Reader.m_spec r in
  let chend' := clamp chend (chbegin + 1) (ImageSpec.nchannels sp) in
  let pixelbytes := ImageSpec.pixel_bytes sp chbegin chend' in
  let scanlinebytes := ImageSpec.width sp * pixelbytes in
  exists m n,
    Reads.read_native_scanlines stdlib basetype_merge r results 0 0
      ybegin yend chbegin chend buf = Some (true, r, m, n)
    /\ forall y x c k,
         ybegin <= y < yend -> 0 <= x < ImageSpec.width sp ->
         chbegin <= c < chend' ->
         0 <= k < TypeDesc_size (ImageSpec.channelformat sp c) ->
         m !! ((y - ybegin) * scanlinebytes + x * pixelbytes
               + ImageSpec.pixel_bytes sp chbegin c + k)
         = Some (SampleByte (ImageSpec.channel_name sp c) (min_x dw + x) y k).
Proof.
  intros Hfresh Hio Hparts Hh Hnd Hspc Hpos Hres Hy Hyend Hch.
  destruct (read_opened r0 env parts dw dpw chlist scansperchunk results
              ybegin yend chbegin chend buf Hfresh Hio Hparts Hh Hnd Hspc Hpos
              Hres Hy Hyend Hch) as (_ & _ & _ & H).
  exact H.
Qed.

(** X15: the reads without a channel range, on the file [open] has just
    opened: [read_native_scanlines] delivers whole pixels, all channels
    of the spec in the spec's order, line after line; and
    [read_native_scanline] delivers the one line from the start of the
    buffer on. *)
Theorem opened_file_whole_scanlines (r0 : Reader.t) (env : Reader.open_env)
  (parts : list exr_part) (dw dpw : exr_attr_box2i_t)
  (chlist : list exr_attr_chlist_entry_t) (scansperchunk : Z)
  (results : nat -> exr_result_t) (ybegin yend z : Z) (buf : mem) :
  Reader.m_parts r0 = [] ->
  Reader.io_readable env = true -> Reader.file_parts env = Some parts ->
  scanline_header (exr_get_part (Some parts) 0) dw dpw chlist ->
  NoDup (map name chlist) ->
  exr_get_part (Some parts) 0 ≫= hdr_scanlines_per_chunk
  = Some scansperchunk ->
  1 <= scansperchunk ->
  (forall i, results i = EXR_ERR_SUCCESS) ->
  min_y dw <= ybegin <= yend -> yend <= max_y dw + 1 ->
  let r :=
    snd (Reader.open stdlib basetype_merge extract_from_list_string r0 env) in
  let sp := Reader.m_spec r in
  let pixelbytes := ImageSpec.pixel_bytes sp 0 (ImageSpec.nchannels sp) in
  let scanlinebytes := ImageSpec.width sp * pixelbytes in
  (exists m n,
     ReadCalls.read_native_scanlines stdlib basetype_merge r results 0 0
       ybegin yend z buf = Some (true, r, m, n)
     /\ forall y x c k,
          ybegin <= y < yend -> 0 <= x < ImageSpec.width sp ->
          0 <= c < ImageSpec.nchannels sp ->
          0 <= k < TypeDesc_size (ImageSpec.channelformat sp c) ->
          m !! ((y - ybegin) * scanlinebytes + x * pixelbytes
                + ImageSpec.pixel_bytes sp 0 c + k)
          = Some (SampleByte (ImageSpec.channel_name sp c) (min_x dw + x) y k))
  /\ (ybegin < yend ->
      exists m n,
        ReadCalls.read_native_scanline stdlib basetype_merge r results 0 0
          ybegin z buf = Some (true, r, m, n)
        /\ forall x c k,
             0 <= x < ImageSpec.width sp ->
             0 <= c < ImageSpec.nchannels sp ->
             0 <= k < TypeDesc_size (ImageSpec.channelformat sp c) ->
             m !! (x * pixelbytes + ImageSpec.pixel_bytes sp 0 c + k)
             = Some (SampleByte (ImageSpec.channel_name sp c) (min_x dw + x)
                       ybegin k)).
Proof.
  intros Hfresh Hio Hparts Hh Hnd Hspc Hpos Hres Hy Hyend r sp pixelbytes
    scanlinebytes.
  assert (0 <= 0 < Z.of_nat (length chlist)) as Hch.
  { destruct Hh as [_ _ _ _ _ Hne _ _ _]. destruct chlist; [congruence|].
    simpl. lia. }
  destruct (read_opened r0 env parts dw dpw chlist scansperchunk results
              ybegin yend 0 (ImageSpec.nchannels sp) buf Hfresh Hio Hparts Hh
              Hnd Hspc Hpos Hres Hy Hyend Hch)
    as (Hctx & Hip & Hn & m & n & Hread & Hrows).
  fold r sp in Hctx, Hip, Hn, Hread, Hrows.
  assert (clamp (ImageSpec.nchannels sp) (0 + 1) (ImageSpec.nchannels sp)
          = ImageSpec.nchannels sp) as Hcl.
  { unfold clamp. rewrite Hn.
    destruct (Z.leb_spec (0 + 1) (Z.of_nat (length chlist))); [|lia].
    destruct (Z.leb_spec (Z.of_nat (length chlist))
                (Z.of_nat (length chlist))); lia. }
  rewrite Hcl in Hrows.
  split.
  - exists m, n. unfold ReadCalls.read_native_scanlines.
    rewrite Hctx, Hip. split; [exact Hread|exact Hrows].
  - intros Hlt.
    destruct (read_opened r0 env parts dw dpw chlist scansperchunk results
                ybegin (ybegin + 1) 0 (ImageSpec.nchannels sp) buf Hfresh Hio
                Hparts Hh Hnd Hspc Hpos Hres ltac:(lia) ltac:(lia) Hch)
      as (_ & _ & _ & m1 & n1 & Hread1 & Hrows1).
    fold r sp in Hread1, Hrows1. rewrite Hcl in Hrows1.
    exists m1, n1. unfold ReadCalls.read_native_scanline.
    rewrite Hctx, Hip. split; [exact Hread1|].
    intros x c k Hx Hc Hk.
    specialize (Hrows1 ybegin x c k ltac:(lia) Hx Hc Hk).
    rewrite Z.sub_diag, Z.mul_0_l, Z.add_0_l in Hrows1. exact Hrows1.
Qed.

End WithLibraries.

(** A scanline file of 16 x 16 pixels in chunks of 4 lines, with a
    [float] channel "A" and a [half] channel "R". *)
Definition two_channels : list exr_attr_chlist_entry_t :=
  [mkEntry "A" EXR_PIXEL_FLOAT 1 1; mkEntry "R" EXR_PIXEL_HALF 1 1].

Definition two_channel_file : list exr_part :=
  [Examples.scanline_part two_channels].

Lemma merge_first_merges : merges Examples.merge_first.
Proof. split; intros t; destruct t; reflexivity. Qed.

Lemma two_channel_header :
  scanline_header (exr_get_part (Some two_channel_file) 0)
    (mkBox 0 0 15 15) (mkBox 0 0 15 15) two_channels.
Proof.
  constructor; try reflexivity.
  - discriminate.
  - repeat constructor.
  - split; simpl; lia.
  - split; simpl; lia.
Qed.

Lemma two_channel_names : NoDup (map name two_channels).
Proof. apply NoDup_ListNoDup. repeat constructor; simpl; intuition discriminate. Qed.

(** On the file of two channels: [open] succeeds, and the spec has the
    window of 16 x 16 pixels and the two channels of the file. *)
Lemma open_describes_file_witness :
  let res :=
    Reader.open SortImpl.insertion_sort Examples.merge_first (fun _ => [])
      constructed_reader (readable two_channel_file) in
  let sp := Reader.m_spec (snd res) in
  fst res = true
  /\ Reader.errors (snd res) = []
  /\ (ImageSpec.x sp, ImageSpec.y sp, ImageSpec.width sp, ImageSpec.height sp)
     = (0, 0, 16, 16)
  /\ (ImageSpec.full_x sp, ImageSpec.full_y sp,
      ImageSpec.full_width sp, ImageSpec.full_height sp)
     = (0, 0, 16, 16)
  /\ ImageSpec.tile_width sp = 0
  /\ ImageSpec.nchannels sp = 2
  /\ Permutation ["A"; "R"]%string (ImageSpec.channelnames sp)
  /\ (forall c, 0 <= c < ImageSpec.nchannels sp ->
        exists e, In e two_channels
          /\ ImageSpec.channel_name sp c = name e
          /\ ImageSpec.channelformat sp c
             = TypeDesc_from_ImfPixelType (pixel_type e)).
Proof.
  exact (open_describes_file SortImpl.insertion_sort Examples.merge_first
           (fun _ => []) merge_first_merges constructed_reader
           (readable two_channel_file) two_channel_file (mkBox 0 0 15 15)
           (mkBox 0 0 15 15) two_channels eq_refl eq_refl eq_refl
           two_channel_header).
Defined.

(** On the file of two channels: lines 5 to 11, channel 1 up to the last
    channel. *)
Lemma opened_file_scanlines_witness :
  let r :=
    snd (Reader.open SortImpl.insertion_sort Examples.merge_first
           (fun _ => []) constructed_reader (readable two_channel_file)) in
  let sp := Reader.m_spec r in
  let chend' := clamp 7 (1 + 1) (ImageSpec.nchannels sp) in
  let pixelbytes := ImageSpec.pixel_bytes sp 1 chend' in
  let scanlinebytes := ImageSpec.width sp * pixelbytes in
  exists m n,
    Reads.read_native_scanlines SortImpl.insertion_sort Examples.merge_first
      r ScanContent.all_calls_succeed 0 0 5 12 1 7 ∅ = Some (true, r, m, n)
    /\ forall y x c k,
         5 <= y < 12 -> 0 <= x < ImageSpec.width sp -> 1 <= c < chend' ->
         0 <= k < TypeDesc_size (ImageSpec.channelformat sp c) ->
         m !! ((y - 5) * scanlinebytes + x * pixelbytes
               + ImageSpec.pixel_bytes sp 1 c + k)
         = Some (SampleByte (ImageSpec.channel_name sp c) (0 + x) y k).
Proof.
  exact (opened_file_scanlines SortImpl.insertion_sort Examples.merge_first
           (fun _ => []) merge_first_merges constructed_reader
           (readable two_channel_file) two_channel_file (mkBox 0 0 15 15)
           (mkBox 0 0 15 15) two_channels 4 ScanContent.all_calls_succeed
           5 12 1 7 ∅ eq_refl eq_refl eq_refl two_channel_header
           two_channel_names eq_refl ltac:(lia) ltac:(reflexivity)
           ltac:(simpl; lia) ltac:(simpl; lia) ltac:(simpl; lia)).
Defined.

(** On the file of two channels: lines 5 to 11 with all channels, and
    line 5 alone. *)
Lemma opened_file_whole_scanlines_witness :
  let r :=
    snd (Reader.open SortImpl.insertion_sort Examples.merge_first
           (fun _ => []) constructed_reader (readable two_channel_file)) in
  let sp := Reader.m_spec r in
  let pixelbytes := ImageSpec.pixel_bytes sp 0 (ImageSpec.nchannels sp) in
  let scanlinebytes := ImageSpec.width sp * pixelbytes in
  (exists m n,
     ReadCalls.read_native_scanlines SortImpl.insertion_sort
       Examples.merge_first r ScanContent.all_calls_succeed 0 0 5 12 0 ∅
     = Some (true, r, m, n)
     /\ forall y x c k,
          5 <= y < 12 -> 0 <= x < ImageSpec.width sp ->
          0 <= c < ImageSpec.nchannels sp ->
          0 <= k < TypeDesc_size (ImageSpec.channelformat sp c) ->
          m !! ((y - 5) * scanlinebytes + x * pixelbytes
                + ImageSpec.pixel_bytes sp 0 c + k)
          = Some (SampleByte (ImageSpec.channel_name sp c) (0 + x) y k))
  /\ (5 < 12 ->
      exists m n,
        ReadCalls.read_native_scanline SortImpl.insertion_sort
          Examples.merge_first r ScanContent.all_calls_succeed 0 0 5 0 ∅
        = Some (true, r, m, n)
        /\ forall x c k,
             0 <= x < ImageSpec.width sp ->
             0 <= c < ImageSpec.nchannels sp ->
             0 <= k < TypeDesc_size (ImageSpec.channelformat sp c) ->
             m !! (x * pixelbytes + ImageSpec.pixel_bytes sp 0 c + k)
             = Some (SampleByte (ImageSpec.channel_name sp c) (0 + x) 5 k)).
Proof.
  exact (opened_file_whole_scanlines SortImpl.insertion_sort
           Examples.merge_first (fun _ => []) merge_first_merges
           constructed_reader (readable two_channel_file) two_channel_file
           (mkBox 0 0 15 15) (mkBox 0 0 15 15) two_channels 4
           ScanContent.all_calls_succeed 5 12 0 ∅ eq_refl eq_refl eq_refl
           two_channel_header two_channel_names eq_refl ltac:(lia)
           ltac:(reflexivity) ltac:(simpl; lia) ltac:(simpl; lia)).
Defined.

End OpenedFile.

Module LastChunk.

Import Codec Reads MemFacts ScanContent.

Section Loop.

Variable hdr : option exr_part.
Variable results : nat -> exr_result_t.
Variable spec : ImageSpec.t.
Variable dw : exr_attr_box2i_t.
Variable scansperchunk : Z.
Variable fch : list ChannelCatalog.exr_attr_chlist_entry_t.
Variables ybegin yend chbegin chend : Z.

Hypothesis Hfile : file_agrees hdr spec dw scansperchunk fch.
Hypothesis Hagree : channels_agree spec chbegin chend fch.
Hypothesis Hresults : forall i, results i = EXR_ERR_SUCCESS.
Hypothesis Hybegin : ImageSpec.y spec <= ybegin.
Hypothesis Hyend : yend <= ImageSpec.y spec + ImageSpec.height spec.

Let pb := offset_of spec chbegin chend.
Let slb := ImageSpec.width spec * pb.
Let imgend := ImageSpec.y spec + ImageSpec.height spec.
Let body :=
  scan_body hdr results spec yend chbegin chend scansperchunk pb slb.

(** Where a turn of the loop that does not break leaves [y]. *)
Lemma body_next_y st st' :
  body st = (false, st') ->
  let invalid := Z.rem (sc_y st - ImageSpec.y spec) scansperchunk in
  sc_y (next st')
  = if negb (invalid =? 0)
    then sc_y st + Z.min (scansperchunk - invalid) (yend - sc_y st)
    else if (sc_y st + scansperchunk >? yend)
            && (sc_y st + scansperchunk <? imgend)
    then sc_y st + Z.min (yend - sc_y st) (yend - (sc_y st + 0))
    else sc_y st + scansperchunk.
Proof.
  intros Hb invalid. unfold body, scan_body in Hb. fold invalid in Hb.
  rewrite !Hresults in Hb. change (succeeded EXR_ERR_SUCCESS) with true in Hb.
  cbn [negb] in Hb. fold imgend in Hb.
  clearbody invalid.
  destruct (Z.eqb_spec invalid 0) as [Hz|Hnz]; cbn [negb] in Hb |- *;
    [destruct ((sc_y st + scansperchunk >? yend)
               && (sc_y st + scansperchunk <? imgend))|];
    destruct (sc_first st); cbv iota beta in Hb; rewrite ?Hresults in Hb;
    change (succeeded EXR_ERR_SUCCESS) with true in Hb;
    cbn [negb ptr_eqb] in Hb; rewrite ?Z.eqb_refl in Hb; cbn [negb] in Hb;
    injection Hb as <-; unfold next; cbn [sc_y sc_nlines]; lia.
Qed.

Definition aligned (y : Z) : Prop :=
  (y - ImageSpec.y spec) mod scansperchunk = 0.

Lemma aligned_apart a b :
  aligned a -> aligned b -> a < b -> a + scansperchunk <= b.
Proof.
  unfold aligned. intros Ha Hb Hlt.
  pose proof (fa_lines_pos _ _ _ _ _ Hfile) as Hpos.
  pose proof (Z.div_mod (a - ImageSpec.y spec) scansperchunk ltac:(lia)).
  pose proof (Z.div_mod (b - ImageSpec.y spec) scansperchunk ltac:(lia)).
  set (qa := (a - ImageSpec.y spec) `div` scansperchunk) in *.
  set (qb := (b - ImageSpec.y spec) `div` scansperchunk) in *.
  assert (qa < qb) by nia. nia.
Qed.

(** From a line up to the first line of the image's last chunk, the loop
    comes to that chunk and leaves it one chunk further on. *)
Lemma scan_loop_last_chunk ylast fuel :
  aligned ylast -> ybegin <= ylast < yend ->
  yend < ylast + scansperchunk -> imgend <= ylast + scansperchunk ->
  forall st,
  inv spec dw fch ybegin chbegin chend st ->
  sc_y st <= ylast -> (sc_y st = ybegin \/ aligned (sc_y st)) ->
  yend - sc_y st <= Z.of_nat fuel ->
  exists st',
    scan_loop hdr results spec yend chbegin chend scansperchunk pb slb fuel st
    = Some st'
    /\ inv spec dw fch ybegin chbegin chend st'
    /\ sc_y st' = ylast + scansperchunk.
Proof.
  intros Hal Hyl Hshort Hlast.
  pose proof (fa_lines_pos _ _ _ _ _ Hfile) as Hpos.
  induction fuel as [|fuel IH]; intros st Hinv Hle Hat Hfuel; [lia|].
  simpl. replace (sc_y st <? yend) with true by lia.
  destruct (scan_body_inv hdr results spec dw scansperchunk fch ybegin yend
              chbegin chend Hfile Hagree Hresults Hybegin Hyend st Hinv
              ltac:(lia)) as (st1 & Hbody & Hinv1 & Hprog & _).
  fold pb slb body in Hbody. fold body. rewrite Hbody.
  pose proof (body_next_y st st1 Hbody) as Hnext. cbv zeta in Hnext.
  assert (ImageSpec.y spec <= sc_y st) as Hy0
    by (destruct Hinv as (? & _); lia).
  destruct (rem_facts hdr spec dw scansperchunk fch ybegin yend Hfile
              (sc_y st) Hy0) as (Hrem & Hal0 & Hlo).
  set (invalid := Z.rem (sc_y st - ImageSpec.y spec) scansperchunk) in *.
  fold (next st1).
  destruct (Z.eqb_spec invalid 0) as [Hz|Hnz]; cbn [negb] in Hnext.
  - assert (aligned (sc_y st)) as Ha.
    { unfold aligned. rewrite Hz, Z.sub_0_r in Hal0. exact Hal0. }
    destruct (Z.eq_dec (sc_y st) ylast) as [Heq|Hne].
    + replace ((sc_y st + scansperchunk >? yend)
               && (sc_y st + scansperchunk <? imgend)) with false in Hnext
        by (unfold imgend in *; lia).
      exists (next st1).
      split; [|split; [exact Hinv1|lia]].
      destruct fuel; simpl;
        change (sc_y st1 + sc_nlines st1) with (sc_y (next st1));
        replace (sc_y (next st1) <? yend) with false by lia; reflexivity.
    + pose proof (aligned_apart (sc_y st) ylast Ha Hal ltac:(lia)) as Hap.
      replace ((sc_y st + scansperchunk >? yend)
               && (sc_y st + scansperchunk <? imgend)) with false in Hnext
        by lia.
      apply IH; [exact Hinv1|lia| |lia].
      right. unfold aligned in *. rewrite Hnext.
      replace (sc_y st + scansperchunk - ImageSpec.y spec)
        with (sc_y st - ImageSpec.y spec + 1 * scansperchunk) by ring.
      now rewrite Z.mod_add by lia.
  - assert (aligned (sc_y st - invalid)) as Ha by exact Hal0.
    pose proof (aligned_apart (sc_y st - invalid) ylast Ha Hal ltac:(lia))
      as Hap.
    replace (Z.min (scansperchunk - invalid) (yend - sc_y st))
      with (scansperchunk - invalid) in Hnext by lia.
    apply IH; [exact Hinv1|lia| |lia].
    right. unfold aligned in *. rewrite Hnext.
    replace (sc_y st + (scansperchunk - invalid) - ImageSpec.y spec)
      with (sc_y st - invalid - ImageSpec.y spec + 1 * scansperchunk) by ring.
    now rewrite Z.mod_add by lia.
Qed.

End Loop.

Section Read.

Variable stdlib : StdSort.
Variable basetype_merge : TypeDesc -> TypeDesc -> TypeDesc.

(** X16: a scanline read that stops inside the image's last chunk, short of
    the image's end, after coming to the first line of that chunk, decodes
    the chunk straight into the caller's buffer: it returns true with all
    lines from [ybegin] up to the end of the image in the buffer, also the
    lines from [yend] on, which were not asked for and lie beyond the
    [(yend - ybegin) * scanlinebytes] bytes of the request. *)
Theorem last_chunk_read_writes_to_image_end
  (r r1 : Reader.t) (results : nat -> exr_result_t)
  (subimage miplevel ybegin yend chbegin chend : Z) (buf : mem)
  (spec : ImageSpec.t) (dw : exr_attr_box2i_t) (scansperchunk : Z)
  (fch : list ChannelCatalog.exr_attr_chlist_entry_t) :
  let chend' := clamp chend (chbegin + 1) (ImageSpec.nchannels spec) in
  let pixelbytes := ImageSpec.pixel_bytes spec chbegin chend' in
  let scanlinebytes := ImageSpec.width spec * pixelbytes in
  let imgend := ImageSpec.y spec + ImageSpec.height spec in
  is_Some (Reader.m_exr_context r) ->
  Reader.init_part stdlib basetype_merge r subimage miplevel = (spec, r1) ->
  file_agrees (exr_get_part (Reader.m_exr_context r) subimage) spec dw
    scansperchunk fch ->
  channels_agree spec chbegin chend' fch ->
  (forall i, results i = EXR_ERR_SUCCESS) ->
  ImageSpec.y spec <= ybegin ->
  overruns spec scansperchunk ybegin yend ->
  exists m n,
    read_native_scanlines stdlib basetype_merge r results subimage miplevel
      ybegin yend chbegin chend buf = Some (true, r1, m, n)
    /\ forall y x c k,
         ybegin <= y < imgend -> 0 <= x < ImageSpec.width spec ->
         chbegin <= c < chend' ->
         0 <= k < TypeDesc_size (ImageSpec.channelformat spec c) ->
         m !! ((y - ybegin) * scanlinebytes + x * pixelbytes
               + ImageSpec.pixel_bytes spec chbegin c + k)
         = Some (SampleByte (ImageSpec.channel_name spec c) (min_x dw + x) y k).
Proof.
  intros chend' pixelbytes scanlinebytes imgend [ctx Hctx] Hinit Hfile Hagree
    Hres Hy (ylast & Hyl & Hal & Hshort & Hlast & Hlt).
  pose proof (ScanFacts.init_part_context stdlib basetype_merge r subimage
                miplevel) as Hc.
  rewrite Hinit in Hc. cbn [snd] in Hc.
  unfold read_native_scanlines. rewrite Hctx, Hinit. cbv beta iota zeta.
  rewrite Hc, (fa_lines _ _ _ _ _ Hfile).
  set (st0 := mkScan ybegin scansperchunk 0 true zero_pipeline
                EXR_ERR_SUCCESS 0 (mkBuffers buf ∅ 0)).
  assert (inv spec dw fch ybegin chbegin chend' st0) as Hinv0.
  { unfold inv, st0. cbn [sc_y sc_linedata sc_buffers sc_rv sc_first data].
    split; [lia|]. split; [ring|]. split; [|split; [reflexivity|discriminate]].
    intros y x c k Hr. lia. }
  destruct (scan_loop_last_chunk _ results spec dw scansperchunk fch ybegin
              yend chbegin chend' Hfile Hagree Hres Hy ltac:(fold imgend; lia)
              ylast (Z.to_nat (yend - ybegin)) Hal Hyl Hshort Hlast st0 Hinv0
              ltac:(simpl; lia) ltac:(now left) ltac:(simpl; lia))
    as (st & Hloop & (_ & _ & Hrows & Hrv & _) & Hstop).
  unfold offset_of in Hloop. fold chend'. rewrite Hloop, Hrv.
  exists (data (sc_buffers st)), (sc_calls st).
  split; [reflexivity|].
  intros y x c k Hyr Hxr Hcr Hkr.
  apply (Hrows y x c k); [fold imgend in Hlast; lia|lia|exact Hxr|exact Hcr|
                          exact Hkr].
Qed.

End Read.

(** In an image of 16 lines in chunks of 4 lines, a read of lines 12 and
    13 puts lines 12 to 15 into the caller's buffer. *)
Lemma last_chunk_read_writes_to_image_end_witness :
  exists r1 m n,
    read_native_scanlines SortImpl.insertion_sort Examples.merge_first
      ScanFacts.scanline_reader all_calls_succeed 0 0 12 14 0 1 ∅
    = Some (true, r1, m, n)
    /\ forall y x k,
         12 <= y < 16 -> 0 <= x < 16 -> 0 <= k < 2 ->
         m !! ((y - 12) * 32 + x * 2 + k)
         = Some (SampleByte "R" x y k).
Proof.
  pose (ip := Reader.init_part SortImpl.insertion_sort Examples.merge_first
                ScanFacts.scanline_reader 0 0).
  assert (Hfile : file_agrees
            (exr_get_part (Reader.m_exr_context ScanFacts.scanline_reader) 0)
            (fst ip) (mkBox 0 0 15 15) 4
            [ChannelCatalog.mkEntry "R" EXR_PIXEL_HALF 1 1]).
  { constructor; vm_compute; first [reflexivity | discriminate]. }
  assert (Hagree : channels_agree (fst ip) 0
            (clamp 1 (0 + 1) (ImageSpec.nchannels (fst ip)))
            [ChannelCatalog.mkEntry "R" EXR_PIXEL_HALF 1 1]).
  { change (clamp 1 (0 + 1) (ImageSpec.nchannels (fst ip))) with 1.
    constructor.
    - lia.
    - intros c Hc. assert (c = 0) as -> by lia.
      eexists. split; [left; reflexivity|]. split; reflexivity.
    - constructor; [intros H; inversion H|constructor].
    - intros c c' Hc Hc' _. lia. }
  destruct (last_chunk_read_writes_to_image_end
              SortImpl.insertion_sort Examples.merge_first
              ScanFacts.scanline_reader (snd ip) all_calls_succeed
              0 0 12 14 0 1 ∅ (fst ip) (mkBox 0 0 15 15) 4
              [ChannelCatalog.mkEntry "R" EXR_PIXEL_HALF 1 1]
              ltac:(eexists; reflexivity) ltac:(apply surjective_pairing)
              Hfile Hagree ltac:(reflexivity)
              ltac:(vm_compute; discriminate)
              ltac:(exists 12; vm_compute; intuition discriminate))
    as (m & n & Hread & Hrows).
  exists (snd ip), m, n. split; [exact Hread|].
  intros y x k Hy Hx Hk.
  specialize (Hrows y x 0 k Hy Hx ltac:(vm_compute; split; [discriminate|reflexivity])
                Hk).
  replace ((y - 12) * 32 + x * 2 + k)
    with ((y - 12) * 32 + x * 2 + 0 + k) by lia.
  exact Hrows.
Defined.

End LastChunk.

Module SingleTile.

Import Codec Reads MemFacts ScanContent.

Section WithLibraries.

Variable stdlib : StdSort.
Variable basetype_merge : TypeDesc -> TypeDesc -> TypeDesc.

(** X17: [read_native_tile] on a tile that the pipeline decodes.  Given
    a tiled part whose tile size is the spec's and whose channels are the
    spec's, and four pipeline calls that succeed, the read returns true
    after these four calls and leaves the reader as [init_part] left it.
    The tile lies in the caller's buffer in rows of a full tile width:
    every sample of the tile that lies within the level is at its row,
    pixel and channel offset, and the bytes outside these rows are left
    alone. *)
Theorem tile_read_delivers_tile
  (r r1 : Reader.t) (results : nat -> exr_result_t)
  (subimage miplevel x y z : Z) (buf : mem) (spec : ImageSpec.t)
  (dw : exr_attr_box2i_t) (txsz tysz : Z) (lm : exr_tile_level_mode_t)
  (rm : exr_tile_round_mode_t) (levw levh : Z)
  (fch : list ChannelCatalog.exr_attr_chlist_entry_t) :
  let hdr := exr_get_part (Reader.m_exr_context r) subimage in
  let nch := ImageSpec.nchannels spec in
  let pixelbytes := ImageSpec.pixel_bytes spec 0 nch in
  let scanlinebytes := ImageSpec.tile_width spec * pixelbytes in
  let tx := Z.quot (x - ImageSpec.x spec) (ImageSpec.tile_width spec) in
  let ty := Z.quot (y - ImageSpec.y spec) (ImageSpec.tile_height spec) in
  let w := Z.min txsz (levw - tx * txsz) in
  let h := Z.min tysz (levh - ty * tysz) in
  is_Some (Reader.m_exr_context r) ->
  Reader.init_part stdlib basetype_merge r subimage miplevel = (spec, r1) ->
  hdr ≫= hdr_data_window = Some dw ->
  hdr ≫= hdr_tile_descriptor = Some (txsz, tysz, lm, rm) ->
  hdr ≫= (fun p => hdr_level_sizes p miplevel) = Some (levw, levh) ->
  hdr ≫= hdr_channels = Some fch ->
  ImageSpec.tile_width spec = txsz -> ImageSpec.tile_height spec = tysz ->
  0 < txsz -> 0 < tysz ->
  channels_agree spec 0 nch fch ->
  (forall i, (i < 4)%nat -> results i = EXR_ERR_SUCCESS) ->
  exists m,
    ReadCalls.read_native_tile stdlib basetype_merge r results subimage
      miplevel x y z buf = (true, r1, m, 4%nat)
    /\ (forall j i c k,
          0 <= j < h -> 0 <= i < w -> 0 <= c < nch ->
          0 <= k < TypeDesc_size (ImageSpec.channelformat spec c) ->
          m !! (j * scanlinebytes + i * pixelbytes
                + ImageSpec.pixel_bytes spec 0 c + k)
          = Some (SampleByte (ImageSpec.channel_name spec c)
                    (min_x dw + tx * txsz + i) (min_y dw + ty * tysz + j) k))
    /\ (forall o, ~ (0 <= o < h * scanlinebytes) -> m !! o = buf !! o).
Proof.
  intros hdr nch pixelbytes scanlinebytes tx ty w h [ctx Hctx] Hinit Hdw Htd
    Hlev Hfch Htw Hth Hxpos Hypos Hagree Hres.
  pose proof (ScanFacts.init_part_context stdlib basetype_merge r subimage
                miplevel) as Hc.
  rewrite Hinit in Hc. cbn [snd] in Hc.
  unfold ReadCalls.read_native_tile. rewrite Hctx, Hinit. cbv beta iota zeta.
  rewrite Hc. fold hdr. rewrite Hlev. cbv beta iota zeta.
  rewrite (Hres 0%nat), (Hres 1%nat), (Hres 2%nat), (Hres 3%nat) by lia.
  change (succeeded EXR_ERR_SUCCESS) with true. cbn [negb].
  fold nch pixelbytes. fold scanlinebytes. fold tx ty.
  set (ci := tile_block hdr tx ty miplevel).
  assert (ci = mkChunk (min_x dw + tx * txsz) (min_y dw + ty * tysz) w h)
    as Hci.
  { unfold ci, tile_block. now rewrite Hdw, Htd, Hlev. }
  set (decoder1 := decoding_initialize hdr ci).
  assert (of_file fch (channels decoder1)) as Hof1.
  { unfold decoder1, decoding_initialize. rewrite Hfch. simpl.
    unfold of_file. clear. induction fch; constructor; auto. }
  assert (idle spec 0 nch (channels decoder1)) as Hidle1.
  { intros ch Hin. left. unfold decoder1, decoding_initialize in Hin.
    simpl in Hin. apply in_map_iff in Hin as (e & <- & _). reflexivity. }
  destruct (bind_channels_spec spec 0 nch fch Hagree (DataPtr 0) pixelbytes
              scanlinebytes decoder1 Hof1 Hidle1)
    as (Hof2 & Hidle2 & Hbound2 & Hchunk2).
  set (decoder2 := bind_channels spec 0 nch (DataPtr 0) pixelbytes
                     scanlinebytes decoder1) in *.
  assert (chunk decoder2 = ci) as Hchunk by exact Hchunk2.
  pose proof (ca_range _ _ _ _ Hagree) as Hr.
  pose proof (offset_of_nonneg spec 0 nch fch Hagree nch ltac:(lia)) as Hpb.
  assert (width ci * offset_of spec 0 nch <= scanlinebytes) as Hls.
  { rewrite Hci. cbn [width]. unfold scanlinebytes, pixelbytes, offset_of in *.
    rewrite Htw. unfold w. nia. }
  eexists. split; [reflexivity|].
  unfold decoding_run. rewrite decoding_run_sides. cbn [data].
  rewrite Hchunk. split.
  - intros j i c k Hj Hi Hcr Hk.
    pose proof (run_at spec 0 nch fch Hagree ci scanlinebytes Hls
                  (channels decoder2) true 0 Hof2 Hidle2 Hbound2 buf c j i k
                  Hcr ltac:(rewrite Hci; exact Hj) ltac:(rewrite Hci; exact Hi)
                  Hk) as Hat.
    rewrite Hci in Hat at 2 3. cbn [start_x start_y] in Hat.
    rewrite Z.add_0_l in Hat. exact Hat.
  - intros o Ho.
    apply (run_frame spec 0 nch fch Hagree ci scanlinebytes Hls
             (channels decoder2) true 0 Hidle2 Hbound2).
    rewrite Hci. cbn [height]. lia.
Qed.


End WithLibraries.

(** A reader opened on the tiled file of 32 x 16 pixels, without a
    missing colour. *)
Definition plain_tiled_reader : Reader.t :=
  snd (Reader.open SortImpl.insertion_sort Examples.merge_first
         (fun _ => []) (Examples.fresh_reader [])
         (Reader.mkOpenEnv None "" true
            (Some [TileFacts.tiled_part
                     [ChannelCatalog.mkEntry "R" EXR_PIXEL_HALF 1 1]]))).


(** The second tile of the file, read at pixel (16, 0): its samples are
    those of the pixels 16 to 31 of the lines 0 to 15. *)
Lemma tile_read_delivers_tile_witness :
  exists r1 m,
    ReadCalls.read_native_tile SortImpl.insertion_sort Examples.merge_first
      plain_tiled_reader all_calls_succeed 0 0 16 0 0 ∅ = (true, r1, m, 4%nat)
    /\ (forall j i k,
          0 <= j < 16 -> 0 <= i < 16 -> 0 <= k < 2 ->
          m !! (j * 32 + i * 2 + k) = Some (SampleByte "R" (16 + i) j k))
    /\ (forall o, ~ (0 <= o < 16 * 32) -> m !! o = (∅ : mem) !! o).
Proof.
  pose (ip := Reader.init_part SortImpl.insertion_sort Examples.merge_first
                plain_tiled_reader 0 0).
  assert (Hagree : channels_agree (fst ip) 0 (ImageSpec.nchannels (fst ip))
            [ChannelCatalog.mkEntry "R" EXR_PIXEL_HALF 1 1]).
  { change (ImageSpec.nchannels (fst ip)) with 1.
    constructor.
    - lia.
    - intros c Hc. assert (c = 0) as -> by lia.
      eexists. split; [left; reflexivity|]. split; reflexivity.
    - constructor; [intros H; inversion H|constructor].
    - intros c c' Hc Hc' _. lia. }
  destruct (tile_read_delivers_tile SortImpl.insertion_sort
              Examples.merge_first plain_tiled_reader (snd ip)
              all_calls_succeed 0 0 16 0 0 ∅ (fst ip) (mkBox 0 0 31 15)
              16 16 EXR_TILE_ONE_LEVEL EXR_TILE_ROUND_DOWN 32 16
              [ChannelCatalog.mkEntry "R" EXR_PIXEL_HALF 1 1]
              ltac:(eexists; reflexivity) ltac:(apply surjective_pairing)
              eq_refl eq_refl eq_refl eq_refl eq_refl eq_refl
              ltac:(lia) ltac:(lia) Hagree ltac:(reflexivity))
    as (m & Hread & Hrows & Hframe).
  exists (snd ip), m. split; [exact Hread|]. split; [|exact Hframe].
  intros j i k Hj Hi Hk.
  specialize (Hrows j i 0 k Hj Hi
                ltac:(vm_compute; split; [discriminate|reflexivity]) Hk).
  replace (j * 32 + i * 2 + k) with (j * 32 + i * 2 + 0 + k) by lia.
  replace (16 + i) with (0 + 1 * 16 + i) by lia.
  replace j with (0 + 0 * 16 + j) at 2 by lia.
  exact Hrows.
Defined.


End SingleTile.
